(** * Signal analyzer: the numerical core of csvProcessor

    A shallow embedding of the signal-processing functions of the
    repository (matrix utilities, Savitzky-Golay smoothing and derivative,
    CSV row parsing, root de-duplication, intersections, jump detection),
    of the chart data computed from their results and of the two filter
    controls of the page, together with the properties stated about them.

    JavaScript numbers are IEEE 754 binary64 values.  The code is written
    once over a class [Arith] of number operations and instantiated twice:
    - [float_arith]: Rocq's primitive binary64 floats, which is the
      arithmetic the program really runs;
    - [Qc_arith]: exact rationals, the arithmetic of the mathematics
      behind the filter (no rounding, no NaN, no infinities). *)

From Stdlib Require Import Ascii String.
From Stdlib Require Import ZArith QArith Qcanon Qround Qminmax Qcabs List Bool Lia.
From Stdlib Require Import Floats Ring Lqa Zquot.
Import ListNotations.

Set Implicit Arguments.
#[local] Set Warnings "-abstract-large-number".

(* ================================================================== *)
(** ** Exceptions *)

(** What a JavaScript call can end with besides a value: the
    [Error("Matrix degenerate")] thrown by [invertMatrix], and the
    [TypeError] of reading a property of [undefined]. *)
Inductive exn : Type :=
| MatrixDegenerate
| TypeError.

Inductive result (A : Type) : Type :=
| Ok (a : A)
| Throw (e : exn).

Arguments Ok {A} a.
Arguments Throw {A} e.

Definition bind {A B : Type} (r : result A) (k : A -> result B) : result B :=
  match r with
  | Ok a => k a
  | Throw e => Throw e
  end.

Notation "x <- r ;; k" := (bind r (fun x => k))
  (at level 61, r at next level, right associativity).

(* ================================================================== *)
(** ** Numbers *)

(** The operations the program performs on numbers.  [lit q] is the number
    a decimal literal or a decimal text denoting the rational [q] evaluates
    to; [ofZ z] the number for an integer; [NaN] what arithmetic yields
    once it has read [undefined] or the result of [parseFloat] on text
    that is not numeric; [eqb] is [===] on numbers; [floor] is
    [Math.floor] as an integer (none for NaN and the infinities); [max],
    [min] and [sign] are [Math.max], [Math.min] and [Math.sign]. *)
Class Arith (F : Type) : Type := {
  zero : F;
  one : F;
  add : F -> F -> F;
  sub : F -> F -> F;
  mul : F -> F -> F;
  div : F -> F -> F;
  opp : F -> F;
  abs : F -> F;
  ltb : F -> F -> bool;
  leb : F -> F -> bool;
  lit : Q -> F;
  ofZ : Z -> F;
  NaN : F;
  infinity : F;
  isNaN : F -> bool;
  floor : F -> option Z;
  eqb : F -> F -> bool;
  max : F -> F -> F;
  min : F -> F -> F;
  sign : F -> F;
}.

Declare Scope js_scope.
Delimit Scope js_scope with js.
Infix "+" := add : js_scope.
Infix "-" := sub : js_scope.
Infix "*" := mul : js_scope.
Infix "/" := div : js_scope.
Notation "- x" := (opp x) : js_scope.
Infix "<?" := ltb : js_scope.
Infix "<=?" := leb : js_scope.
Notation "x >? y" := (ltb y x) (only parsing) : js_scope.
Notation "x >=? y" := (leb y x) (only parsing) : js_scope.

(* ================================================================== *)
(** ** Array helpers *)

(** [lo, lo+1, ..., hi], the values a counting [for] loop runs through. *)
Definition zrange (lo hi : Z) : list Z :=
  map (fun k => (lo + Z.of_nat k)%Z) (seq 0 (Z.to_nat (hi - lo + 1))).

(** [l.map((x, k) => f(k, x))], the index counted from [k]. *)
Fixpoint mapi_from {A B : Type} (k : nat) (f : nat -> A -> B) (l : list A) : list B :=
  match l with
  | [] => []
  | x :: l' => f k x :: mapi_from (S k) f l'
  end.

Definition mapi {A B : Type} (f : nat -> A -> B) (l : list A) : list B :=
  mapi_from 0 f l.

(** [l[i] = x] for an index within the array; every index the program
    assigns at is (past the end JavaScript would extend the array, and
    this function leaves it as it is). *)
Fixpoint set_nth {A : Type} (i : nat) (x : A) (l : list A) : list A :=
  match l, i with
  | [], _ => []
  | _ :: l', O => x :: l'
  | y :: l', S i' => y :: set_nth i' x l'
  end.

(** Two arrays of the same length walked together. *)
Fixpoint map2 {A B C : Type} (f : A -> B -> C) (l1 : list A) (l2 : list B) : list C :=
  match l1, l2 with
  | a :: l1', b :: l2' => f a b :: map2 f l1' l2'
  | _, _ => []
  end.

(* ================================================================== *)
(** ** Text *)

(** Text is a [string] of code units below 256.  The white space that
    [trim] and [parseFloat] strip: TAB, LF, VT, FF, CR, SP and NBSP. *)
Definition isWhite (c : ascii) : bool :=
  let n := nat_of_ascii c in
  ((9 <=? n) && (n <=? 13) || (n =? 32) || (n =? 160))%nat.

Fixpoint trimLeft (s : string) : string :=
  match s with
  | String c s' => if isWhite c then trimLeft s' else s
  | EmptyString => EmptyString
  end.

Fixpoint trimRight (s : string) : string :=
  match s with
  | EmptyString => EmptyString
  | String c s' =>
      match trimRight s' with
      | EmptyString => if isWhite c then EmptyString else String c EmptyString
      | r => String c r
      end
  end.

(** [s.trim()] *)
Definition trim (s : string) : string := trimRight (trimLeft s).

(** [s.split(sep)] for a one-character separator. *)
Fixpoint splitOn (sep : ascii) (s : string) : list string :=
  match s with
  | EmptyString => [EmptyString]
  | String c s' =>
      if Ascii.eqb c sep then EmptyString :: splitOn sep s'
      else
        match splitOn sep s' with
        | [] => [String c EmptyString]
        | w :: ws => String c w :: ws
        end
  end.

(** [s.startsWith(p)] *)
Definition startsWith (p s : string) : bool := String.prefix p s.

Definition isDigit (c : ascii) : bool :=
  let n := nat_of_ascii c in ((48 <=? n) && (n <=? 57))%nat.

Definition digitVal (c : ascii) : Z := (Z.of_nat (nat_of_ascii c) - 48)%Z.

(** The longest prefix of decimal digits, and what follows it. *)
Fixpoint spanDigits (s : string) : list ascii * string :=
  match s with
  | String c s' =>
      if isDigit c then let '(ds, r) := spanDigits s' in (c :: ds, r)
      else ([], s)
  | EmptyString => ([], EmptyString)
  end.

Definition digitsValue (ds : list ascii) : Z :=
  fold_left (fun acc c => (10 * acc + digitVal c)%Z) ds 0%Z.

(** An optional sign in front of the rest of the text. *)
Definition spanSign (s : string) : bool * string :=
  match s with
  | String "-" r => (true, r)
  | String "+" r => (false, r)
  | _ => (false, s)
  end.

(** The value of an [ExponentPart] at the head of [s] (0 when there is
    none: an [e] that no digit follows is not part of the number). *)
Definition exponentPart (s : string) : Z :=
  match s with
  | String c r =>
      if (Ascii.eqb c "e" || Ascii.eqb c "E")%bool then
        let '(neg, r') := spanSign r in
        let '(ds, _) := spanDigits r' in
        match ds with
        | [] => 0%Z
        | _ => if neg then (- digitsValue ds)%Z else digitsValue ds
        end
      else 0%Z
  | EmptyString => 0%Z
  end.

(** The rational [m * 10^e]. *)
Definition decimalValue (m e : Z) : Q :=
  if (0 <=? e)%Z then Qmake (m * 10 ^ e) 1
  else Qmake m (Z.to_pos (10 ^ (- e))).

Section Code.

Context {F : Type} {AF : Arith F}.
Local Open Scope js_scope.

Definition matrix : Type := list (list F).

(** [M[i][j]] on a rectangular matrix.  Every matrix the callers build is
    rectangular and every index they use is in range. *)
Definition entry (M : matrix) (i j : nat) : F := nth j (nth i M []) NaN.

(* ================================================================== *)
(** ** Matrix utilities *)

(** [transpose]: [M[0].map((_, i) => M.map(row => row[i]))].  [M[0]] is
    [undefined] for an empty [M], and [.map] on it is a [TypeError]. *)
Definition transpose (M : matrix) : result matrix :=
  match M with
  | [] => Throw TypeError
  | row0 :: _ =>
      Ok (map (fun i => map (fun row => nth i row NaN) M) (seq 0 (length row0)))
  end.

(** [multiplyMatrices]: reads [A[0].length] and [B[0].length] first (a
    [TypeError] when either matrix has no row), then accumulates
    [C[i][j] += A[i][k] * B[k][j]] for k = 0, 1, ... starting from 0.
    When [B] has fewer rows than [A] has columns, [B[k]] is [undefined]
    for the last [k] and reading [B[k][j]] is a [TypeError]. *)
Definition multiplyMatrices (A B : matrix) : result matrix :=
  match A, B with
  | [], _ => Throw TypeError
  | _, [] => Throw TypeError
  | a0 :: _, b0 :: _ =>
      let aCols := length a0 in
      let bCols := length b0 in
      if ((length B <? aCols) && (0 <? bCols))%nat then Throw TypeError
      else
        Ok (map (fun rowA =>
                   map (fun j =>
                          fold_left (fun acc k => acc + nth k rowA NaN * entry B k j)
                                    (seq 0 aCols) zero)
                       (seq 0 bCols))
                A)
  end.

(** The threshold [1e-15] below which a pivot counts as zero. *)
Definition pivotEps : F := lit (1 # 1000000000000000).

(** The inner search of [invertMatrix]: the first row at or below [i]
    whose entry in column [i] has the largest magnitude. *)
Definition findMaxRow (A : matrix) (i n : nat) : nat :=
  fold_left (fun maxRow k =>
               if abs (entry A k i) >? abs (entry A maxRow i) then k else maxRow)
            (seq (S i) (n - S i)) i.

Definition swapRows (A : matrix) (i k : nat) : matrix :=
  set_nth i (nth k A []) (set_nth k (nth i A []) A).

(** One pass of the outer loop of [invertMatrix] for column [i]: pivot
    search, the degeneracy test, the row swap, scaling of the pivot row by
    the diagonal entry, and elimination of column [i] from every other
    row (each row [k] uses its own entry [A[k][i]], read before the row
    is updated, and the scaled pivot row). *)
Definition pivotStep (A : matrix) (i n : nat) : result matrix :=
  let maxRow := findMaxRow A i n in
  if abs (entry A maxRow i) <? pivotEps then Throw MatrixDegenerate
  else
    let A1 := if Nat.eqb maxRow i then A else swapRows A i maxRow in
    let diag := entry A1 i i in
    let rowi := map (fun x => x / diag) (nth i A1 []) in
    let A2 := set_nth i rowi A1 in
    Ok (mapi (fun k row =>
                if Nat.eqb k i then row
                else
                  let factor := nth i row NaN in
                  map2 (fun a b => a - factor * b) row rowi)
             A2).

(** The identity block appended to the rows of [m]. *)
Definition augment (m : matrix) : matrix :=
  let n := length m in
  mapi (fun i row => row ++ map (fun j => if Nat.eqb i j then one else zero) (seq 0 n)) m.

(** [invertMatrix]: Gauss-Jordan elimination with partial pivoting on the
    augmented matrix; the result is the right half of every row. *)
Definition invertMatrix (m : matrix) : result matrix :=
  let n := length m in
  A <- fold_left (fun acc i => A <- acc ;; pivotStep A i n) (seq 0 n) (Ok (augment m)) ;;
  Ok (map (skipn n) A).

(* ================================================================== *)
(** ** Savitzky-Golay filter *)

(** The design matrix: one row per offset [i] in [-half, half], one column
    per power [p] in [0, polyOrder], entry [i ** p].  For integer-valued
    doubles [i ** p] is the integer power, exact below 2^53 (and rounded
    to the nearest double here beyond that). *)
Definition designMatrix (half polyOrder : Z) : matrix :=
  map (fun i => map (fun p => ofZ (i ^ p)) (zrange 0 polyOrder)) (zrange (- half) half).

(** Lines 68-79 and 102-112, which the two filters share: the
    pseudo-inverse [(AtA)^-1 At], or [None] when [invertMatrix] threw
    (the [catch] clause has no binding and catches whatever was thrown). *)
Definition pseudoInverse (half polyOrder : Z) : result (option matrix) :=
  let A := designMatrix half polyOrder in
  AT <- transpose A ;;
  ATA <- multiplyMatrices AT A ;;
  match invertMatrix ATA with
  | Throw _ => Ok None
  | Ok invATA =>
      ATAinvAT <- multiplyMatrices invATA AT ;;
      Ok (Some ATAinvAT)
  end.

(** The index the filters read for output [i] and offset [j]: [i + j]
    clamped to [0, n - 1]. *)
Definition clampIndex (n : nat) (i : nat) (j : Z) : nat :=
  let idx := (Z.of_nat i + j)%Z in
  let idx := if (idx <? 0)%Z then 0%Z else idx in
  let idx := if (idx >=? Z.of_nat n)%Z then (Z.of_nat n - 1)%Z else idx in
  Z.to_nat idx.

(** The sliding dot product for output [i] of an array of length [n]:
    [acc += data[idx] * coeffs[j + half]] for j = -half, ..., half,
    starting from 0. *)
Definition convolveAt (n : nat) (data coeffs : list F) (half : Z) (i : nat) : F :=
  fold_left (fun acc j =>
               acc + nth (clampIndex n i j) data NaN
                     * nth (Z.to_nat (j + half)) coeffs NaN)
            (zrange (- half) half) zero.

(** The two normalisation steps of [savitzkyGolay] (lines 60-63).  The
    parameters are finite numbers, given as rationals. *)
Definition normWindow (windowSize : Q) : Z :=
  let w := Z.max 3 (Qfloor windowSize) in
  if (w mod 2 =? 0)%Z then (w + 1)%Z else w.

Definition normOrder (w : Z) (polyOrder : Q) : Z :=
  let p := Z.max 1 (Qfloor polyOrder) in
  if (p >=? w)%Z then (w - 1)%Z else p.

Definition savitzkyGolay (data : list F) (windowSize polyOrder : Q) : result (list F) :=
  match data with
  | [] => Ok []
  | _ =>
      let windowSize := normWindow windowSize in
      let polyOrder := normOrder windowSize polyOrder in
      let n := length data in
      let half := (windowSize / 2)%Z in
      P <- pseudoInverse half polyOrder ;;
      match P with
      | None => Ok data
      | Some ATAinvAT =>
          match nth_error ATAinvAT 0 with
          | None => Throw TypeError
          | Some coeffs => Ok (map (convolveAt n data coeffs half) (seq 0 n))
          end
      end
  end.

(** [calculateDerivativeSG]: no normalisation of the parameters; the loop
    bounds are [Math.floor(windowSize / 2)] and, for the power [p], every
    integer from 0 that is at most [polyOrder]. *)
Definition calculateDerivativeSG (t signal : list F) (windowSize polyOrder : Q)
  : result (list F) :=
  let n := length signal in
  if (n <? 3)%nat then Ok (repeat zero n)
  else
    let half := Qfloor (windowSize / 2) in
    P <- pseudoInverse half (Qfloor polyOrder) ;;
    match P with
    | None => Ok (repeat zero n)
    | Some ATAinvAT =>
        match nth_error ATAinvAT 1 with
        | None =>
            (* coeffsDeriv is undefined: the first coeffsDeriv[j + half]
               is a TypeError, unless the inner loop has no iteration. *)
            if (half <? 0)%Z then Ok (repeat (zero / (nth 1 t NaN - nth 0 t NaN)) n)
            else Throw TypeError
        | Some coeffsDeriv =>
            let dtConst := nth 1 t NaN - nth 0 t NaN in
            Ok (map (fun i => convolveAt n signal coeffsDeriv half i / dtConst) (seq 0 n))
        end
    end.

(* ================================================================== *)
(** ** Baseline removal *)

(** [arr.reduce((s, v) => s + v, 0)] *)
Definition sum (l : list F) : F := fold_left add l zero.

(** [arr.slice(0, count)]: the count is truncated towards zero, and a
    negative count is taken from the end of the array. *)
Definition sliceTo (arr : list F) (count : Q) : list F :=
  let k := if (Qnum count <? 0)%Z then Qceiling count else Qfloor count in
  let len := Z.of_nat (length arr) in
  let e := if (k <? 0)%Z then Z.max (len + k) 0 else Z.min k len in
  firstn (Z.to_nat e) arr.

Definition removeBaseline (arr : list F) (N : Q) : list F :=
  let count := Qmin (inject_Z (Z.of_nat (length arr))) N in
  let avg := sum (sliceTo arr count) / lit count in
  map (fun v => v - avg) arr.

(* ================================================================== *)
(** ** Zero crossings *)

(** [findZeroCrossings]: the arrays [t0] and [y0] are pushed together. *)
Definition findZeroCrossings (t interf : list F) : list F * list F :=
  fold_left
    (fun '(t0, y0) i =>
       let y1 := nth (i - 1) interf NaN in
       let y2 := nth i interf NaN in
       if y1 * y2 <? zero then
         let x1 := nth (i - 1) t NaN in
         let x2 := nth i t NaN in
         let tZ := x1 - y1 * (x2 - x1) / (y2 - y1) in
         (t0 ++ [tZ], y0 ++ [zero])
       else (t0, y0))
    (seq 1 (length interf - 1)) ([], []).

(* ================================================================== *)
(** ** Filtering of close points *)

Section FilterClosePoints.

(** The elements of [y0] are only copied; [undef] stands for the
    [undefined] read past the end of [y0] when it is shorter than [t0]. *)
Context {V : Type} (undef : V).
Variable minDistance : F.

(** The inner loop, from index 1 on: [lastT] is [newT[newT.length - 1]],
    [outT] and [outY] what is left of the arrays to read. *)
Fixpoint sweepFrom (lastT : F) (outT : list F) (outY : list V) : list F * list V :=
  match outT with
  | [] => ([], [])
  | ti :: restT =>
      if ti - lastT >=? minDistance then
        let '(newT, newY) := sweepFrom ti restT (tl outY) in
        (ti :: newT, hd undef outY :: newY)
      else sweepFrom lastT restT (tl outY)
  end.

(** One pass of the outer loop on a non-empty array: element 0 is kept. *)
Definition sweep (outT : list F) (outY : list V) : list F * list V :=
  match outT with
  | [] => ([NaN], [hd undef outY])
  | t0 :: restT =>
      let '(newT, newY) := sweepFrom t0 restT (tl outY) in
      (t0 :: newT, hd undef outY :: newY)
  end.

(** The outer loop: at most [k] passes, left at the first pass that
    removes nothing. *)
Fixpoint passes (k : nat) (outT : list F) (outY : list V) : list F * list V :=
  match k with
  | O => (outT, outY)
  | S k' =>
      let '(newT, newY) := sweep outT outY in
      if (length newT =? length outT)%nat then (outT, outY)
      else passes k' newT newY
  end.

Definition filterClosePoints (t0 : list F) (y0 : list V) : list F * list V :=
  if (length t0 <=? 1)%nat then (t0, y0) else passes 10 t0 y0.

End FilterClosePoints.

(* ================================================================== *)
(** ** Intersections of the two signals *)

Record RootPoint : Type := { pt_time : F; pt_value : F }.

(** The body of the loop of [findSignalIntersectionsAtZero] at index [i]:
    the point pushed there, if any. *)
Definition intersectionAt (t tenz interf : list F) (yThreshold : F) (i : nat)
  : option RootPoint :=
  let diffPrev := nth (i - 1) tenz NaN - nth (i - 1) interf NaN in
  let diffCurr := nth i tenz NaN - nth i interf NaN in
  if ((diffPrev <=? zero) && (diffCurr >? zero)
      || (diffPrev >=? zero) && (diffCurr <? zero))%bool then
    let t1 := nth (i - 1) t NaN in
    let t2 := nth i t NaN in
    let ratio := (- diffPrev) / (diffCurr - diffPrev) in
    let time := t1 + ratio * (t2 - t1) in
    let value := (nth (i - 1) tenz NaN + ratio * (nth i tenz NaN - nth (i - 1) tenz NaN)
                  + nth (i - 1) interf NaN
                  + ratio * (nth i interf NaN - nth (i - 1) interf NaN)) / ofZ 2 in
    if abs value <=? yThreshold then Some {| pt_time := time; pt_value := value |}
    else None
  else None.

Definition findSignalIntersectionsAtZero (t tenz interf : list F) (yThreshold : F)
  : list RootPoint :=
  flat_map (fun i => match intersectionAt t tenz interf yThreshold i with
                     | Some pt => [pt]
                     | None => []
                     end)
           (seq 1 (length t - 1)).

(* ================================================================== *)
(** ** Search for the largest jump *)

(** [Math.floor] of a finite number. *)
Definition floorZ (x : F) : Z := match floor x with Some z => z | None => 0%Z end.

(** The first loop of [findJumpByDerivative]. *)
Definition slopesOf (t signal : list F) : list F :=
  map (fun i =>
         let dt := max (nth i t NaN - nth (i - 1) t NaN) (lit (1 # 1000000000000)) in
         (nth i signal NaN - nth (i - 1) signal NaN) / dt)
      (seq 1 (length signal - 1)).

(** The second loop: index and value of the first slope of largest
    magnitude. *)
Definition maxSlopeOf (slopes : list F) : nat * F :=
  fold_left (fun '(maxIdx, maxSlope) i =>
               if abs (nth i slopes NaN) >? abs maxSlope then (i, nth i slopes NaN)
               else (maxIdx, maxSlope))
            (seq 1 (length slopes - 1)) (0%nat, nth 0 slopes NaN).

(** The [while] loop that walks back from the steepest slope. *)
Fixpoint walkBack (slopes : list F) (slopeSign startThreshold : F) (startIdx : nat) : nat :=
  match startIdx with
  | O => O
  | S prev =>
      let prevSlope := nth prev slopes NaN in
      if (negb (eqb (sign prevSlope) slopeSign)
          || (abs prevSlope <? startThreshold))%bool
      then startIdx
      else walkBack slopes slopeSign startThreshold prev
  end.

Definition findJumpByDerivative (t signal : list F) : option nat :=
  let slopes := slopesOf t signal in
  match slopes with
  | [] => None
  | _ =>
      let '(maxIdx, maxSlope) := maxSlopeOf slopes in
      let s := sign maxSlope in
      let slopeSign := if (eqb s zero || isNaN s)%bool then one else s in
      let startThreshold := abs maxSlope * lit (35 # 100) in
      Some (walkBack slopes slopeSign startThreshold maxIdx)
  end.

Record FocusHint : Type := { hint_time : F; hint_window : F }.

(** The first index whose sample is at or below [threshold]. *)
Fixpoint firstAtOrBelow (threshold : F) (i : nat) (l : list F) : option nat :=
  match l with
  | [] => None
  | x :: l' => if x <=? threshold then Some i else firstAtOrBelow threshold (S i) l'
  end.

(** Lines 341-356 of [findLargestJumpStart]: the start index found from
    the amplitude of the smoothed signal, if any. *)
Definition amplitudeStart (smoothSignal : list F) : option nat :=
  let n := Z.of_nat (length smoothSignal) in
  let headCount := Z.max 20 (floorZ (ofZ n * lit (5 # 100))) in
  let baseline := sum (firstn (Z.to_nat headCount) smoothSignal) / ofZ headCount in
  let minVal := fold_left min smoothSignal baseline in
  let amplitude := baseline - minVal in
  if amplitude >? zero then
    let threshold := baseline - amplitude * lit (15 # 100) in
    firstAtOrBelow threshold 0 smoothSignal
  else None.

Definition findLargestJumpStart (t signal : list F) : result (option FocusHint) :=
  if ((length t <? 3) || negb (length t =? length signal))%nat then Ok None
  else
    smoothSignal <- savitzkyGolay signal 11 2 ;;
    let startIdx :=
      match amplitudeStart smoothSignal with
      | Some i => Some i
      | None => findJumpByDerivative t smoothSignal
      end in
    match startIdx with
    | None => Ok None
    | Some startIdx =>
        let len := Z.of_nat (length signal) in
        let windowSamples := Z.max 20 (floorZ (ofZ len * lit (2 # 100))) in
        let leftIdx := Z.to_nat (Z.max 0 (Z.of_nat startIdx - windowSamples)) in
        let rightIdx := Z.to_nat (Z.min (len - 1) (Z.of_nat startIdx + windowSamples)) in
        let span := nth rightIdx t NaN - nth leftIdx t NaN in
        let window := if span >? zero then span else lit (1 # 1000000) in
        Ok (Some {| hint_time := nth startIdx t NaN; hint_window := window |})
    end.

(* ================================================================== *)
(** ** CSV parsing *)

(** [parseFloat]: leading white space is skipped, then the longest prefix
    that is a decimal literal (an optional sign, then [Infinity] or digits
    with an optional fraction and exponent) is converted; NaN when there
    is no such prefix. *)
Definition parseFloat (s : string) : F :=
  let '(neg, s) := spanSign (trimLeft s) in
  let withSign := fun x : F => if neg then - x else x in
  if startsWith "Infinity" s then withSign infinity
  else
    let '(ip, s1) := spanDigits s in
    let '(fp, s2) :=
      match s1 with
      | String "." r => spanDigits r
      | _ => ([], s1)
      end in
    match ip ++ fp with
    | [] => NaN
    | ds => withSign (lit (decimalValue (digitsValue ds)
                                        (exponentPart s2 - Z.of_nat (length fp))))
    end.

Record Trace : Type := { tr_t : list F; tr_tenz : list F; tr_interf : list F }.

(** Lines 167-177: what a retained line adds to the three arrays. *)
Definition parseRow (line : string) : option (F * F * F) :=
  let fields := splitOn "," line in
  if (5 <=? length fields)%nat then
    let t0 := parseFloat (nth 0 fields EmptyString) in
    let ch1 := parseFloat (nth 1 fields EmptyString) in
    let ch3 := parseFloat (nth 3 fields EmptyString) in
    if (negb (isNaN t0) && negb (isNaN ch1) && negb (isNaN ch3))%bool then
      Some (t0, ch1 * lit (132 # 100000) * lit (125 # 100), ch3 + lit (4 # 100))
    else None
  else None.

(** The loop over the lines (lines 154-178); giving back the arrays where
    the source has [break]. *)
Fixpoint readLines (skipStart skipEnd : Q) (lines : list string)
         (dataStarted : bool) (lineCount : Z) (acc : Trace) : Trace :=
  match lines with
  | [] => acc
  | raw :: rest =>
      let line := trim raw in
      if String.eqb line EmptyString then
        readLines skipStart skipEnd rest dataStarted lineCount acc
      else if startsWith "TIME,CH1," line then
        readLines skipStart skipEnd rest true lineCount acc
      else if negb dataStarted then
        readLines skipStart skipEnd rest dataStarted lineCount acc
      else
        let lineCount := (lineCount + 1)%Z in
        if negb (Qle_bool skipStart (inject_Z lineCount)) then
          readLines skipStart skipEnd rest dataStarted lineCount acc
        else if negb (Qle_bool (inject_Z lineCount) skipEnd) then acc
        else
          match parseRow line with
          | Some (t0, tz, itf) =>
              readLines skipStart skipEnd rest dataStarted lineCount
                {| tr_t := tr_t acc ++ [t0];
                   tr_tenz := tr_tenz acc ++ [tz];
                   tr_interf := tr_interf acc ++ [itf] |}
          | None => readLines skipStart skipEnd rest dataStarted lineCount acc
          end
  end.

(** The options object: every field is a finite number or absent. *)
Record Options : Type := {
  sgWindow : option Q;
  sgPoly : option Q;
  baselineN : option Q;
  skipStart : option Q;
  skipEnd : option Q;
  derivativeWindowNs : option Q;
}.

(** [value || dflt]: the default replaces an absent field and also 0. *)
Definition orDefault (value : option Q) (dflt : Q) : Q :=
  match value with
  | Some v => if Qeq_bool v 0 then dflt else v
  | None => dflt
  end.

(** Lines 144-178 of [parseCSV]: the three arrays read from the text. *)
Definition parseTrace (csvText : string) (options : Options) : Trace :=
  let skipStart := orDefault (skipStart options) 6650 in
  let skipEnd := orDefault (skipEnd options) 27000 in
  let lines := splitOn "010" csvText in
  readLines skipStart skipEnd lines false 0
            {| tr_t := []; tr_tenz := []; tr_interf := [] |}.

Record Results : Type := {
  res_t : list F;
  res_tenz : list F;
  res_interf : list F;
  res_interfSmoothed : list F;
  res_interfCorrected : list F;
  res_t0 : list F;
  res_y0 : list F;
  res_dudt_interf : list (option F);
  res_intersectionPoints : list RootPoint;
}.

(** [a <= x && x <= b] *)
Definition within (a b x : F) : bool := ((x >=? a) && (x <=? b))%bool.

(** Lines 213-216: the local derivative values scattered back to their
    positions; [None] is the [undefined] read from an empty [dudt_local]. *)
Definition scatter (n : nat) (idxMap : list nat) (dudt_local : list F) : list (option F) :=
  fold_left (fun out k => set_nth (nth k idxMap 0%nat) (nth_error dudt_local k) out)
            (seq 0 (length idxMap)) (repeat (Some zero) n).

Definition parseCSV (csvText : string) (options : Options) : result Results :=
  let sgWindow := orDefault (sgWindow options) 31 in
  let sgPoly := orDefault (sgPoly options) 3 in
  let baselineN := orDefault (baselineN options) 2000 in
  let derivativeWindowNs := orDefault (derivativeWindowNs options) 200 in
  let tr := parseTrace csvText options in
  let t := tr_t tr in
  let tenz := tr_tenz tr in
  let interf := tr_interf tr in
  interfSmoothed <- savitzkyGolay interf sgWindow sgPoly ;;
  let interfCorrected := removeBaseline interfSmoothed baselineN in
  let '(t0, y0) := findZeroCrossings t interfCorrected in
  let '(filteredT0, filteredY0) :=
    filterClosePoints NaN (lit (100 # 1000000000)) t0 y0 in
  let derivWindowSec := lit derivativeWindowNs * lit (1 # 1000000000) in
  let mask := map (fun ti =>
                     existsb (fun center =>
                                within (center - derivWindowSec) (center + derivWindowSec) ti)
                             filteredT0) t in
  let idxMap := filter (fun i => nth i mask false) (seq 0 (length t)) in
  let tForDeriv := map (fun i => nth i t NaN) idxMap in
  let interfForDeriv := map (fun i => nth i interfCorrected NaN) idxMap in
  dudt_local <- (if (3 <? length tForDeriv)%nat
                 then calculateDerivativeSG tForDeriv interfForDeriv sgWindow sgPoly
                 else Ok []) ;;
  let dudt_interf := scatter (length t) idxMap dudt_local in
  let intersectionPoints :=
    findSignalIntersectionsAtZero t tenz interfCorrected (lit (2 # 100)) in
  Ok {| res_t := t; res_tenz := tenz; res_interf := interf;
        res_interfSmoothed := interfSmoothed;
        res_interfCorrected := interfCorrected;
        res_t0 := filteredT0; res_y0 := filteredY0;
        res_dudt_interf := dudt_interf;
        res_intersectionPoints := intersectionPoints |}.

(* ================================================================== *)
(** ** Chart data *)

(** A chart point [{x, y}]; [y] is [None] where the source reads an
    element that the array does not have. *)
Record ChartPoint : Type := { cp_x : F; cp_y : option F }.

(** A point [{time, value}] of the velocity or displacement series. *)
Record SeriesPoint : Type := { sp_time : F; sp_value : F }.

(** [Math.max(1, Math.floor(t.length / maxPoints))].  [None] stands for a
    step that is not a finite number (the quotient overflowed): adding it
    to the loop counter ends the loop. *)
Definition chartStep (len : nat) (maxPoints : Q) : option nat :=
  let q := ofZ (Z.of_nat len) / lit maxPoints in
  match floor q with
  | Some z => Some (Z.to_nat (Z.max 1 z))
  | None => if (isNaN q || (q >? zero))%bool then None else Some 1%nat
  end.

(** The indices [i] that [for (let i = 0; i < len; i += step)] runs
    through; a positive step needs at most [len] rounds. *)
Fixpoint strideFrom (fuel len step i : nat) : list nat :=
  match fuel with
  | O => []
  | S fuel' => if (i <? len)%nat then i :: strideFrom fuel' len step (i + step) else []
  end.

Definition sampledIndices (len : nat) (step : option nat) : list nat :=
  match step with
  | Some s => strideFrom len len s 0
  | None => if (0 <? len)%nat then [0%nat] else []
  end.

(** [xs.map((x, i) => ({x, y: ys[i]}))] *)
Definition pointsOf (xs : list F) (ys : list (option F)) : list ChartPoint :=
  mapi (fun i x => {| cp_x := x; cp_y := nth i ys None |}) xs.

(** The [while] loop of the velocity series: [idx] moves forward while it
    is not the last index and [t[idx] < ptTime]; it moves at most
    [t.length] times. *)
Fixpoint advance (fuel : nat) (t : list F) (ptTime : F) (idx : nat) : nat :=
  match fuel with
  | O => idx
  | S fuel' =>
      if ((S idx <? length t)%nat && (nth idx t NaN <? ptTime))%bool
      then advance fuel' t ptTime (S idx)
      else idx
  end.

(** [dudt_interf[idx] ?? 0] *)
Definition velocityAt (dudt_interf : list (option F)) (idx : nat) : F :=
  match nth_error dudt_interf idx with
  | Some (Some v) => v
  | _ => zero
  end.

(** The loop over the intersection points (lines 478-494), from point
    [k] on: [idx], [lastTime], [lastVel] and [disp] are the variables of
    the source; the two series are given back together. *)
Fixpoint seriesLoop (t : list F) (dudt_interf : list (option F)) (k : nat)
         (points : list RootPoint) (idx : nat) (lastTime lastVel disp : F)
  : list SeriesPoint * list SeriesPoint :=
  match points with
  | [] => ([], [])
  | p :: rest =>
      let ptTime := pt_time p in
      let idx := advance (length t) t ptTime idx in
      let v := velocityAt dudt_interf idx in
      let disp :=
        if (0 <? k)%nat
        then disp + lit (1 # 2) * (v + lastVel) * (ptTime - lastTime)
        else disp in
      let '(velocitySeries, displacementSeries) :=
        seriesLoop t dudt_interf (S k) rest idx ptTime v disp in
      ({| sp_time := ptTime; sp_value := v |} :: velocitySeries,
       {| sp_time := ptTime; sp_value := disp |} :: displacementSeries)
  end.

Definition seriesAt (t : list F) (dudt_interf : list (option F))
           (intersectionPoints : list RootPoint)
  : list SeriesPoint * list SeriesPoint :=
  match intersectionPoints with
  | [] => ([], [])
  | p0 :: _ => seriesLoop t dudt_interf 0 intersectionPoints 0 (pt_time p0) zero zero
  end.

(** The data of the chart object: the four series of the first chart and
    the derivative of the second, the raw arrays, the intersections, the
    two series computed at them, and the focus point.  Labels, colours
    and the other constants of presentation are not data and are left
    out. *)
Record ChartData : Type := {
  cd_tenz : list ChartPoint;
  cd_smoothed : list ChartPoint;
  cd_corrected : list ChartPoint;
  cd_derivative : list ChartPoint;
  cd_crossings : list ChartPoint;
  cd_raw_t : list F;
  cd_raw_tenz : list F;
  cd_raw_interf : list F;
  cd_raw_interfCorrected : list F;
  cd_raw_dudt_interf : list (option F);
  cd_intersections : list RootPoint;
  cd_velocitySeries : list SeriesPoint;
  cd_displacementSeries : list SeriesPoint;
  cd_focusPoints : option FocusHint;
}.

Definition generateChartData (results : Results) (maxPoints : option Q)
  : result ChartData :=
  let t := res_t results in
  let maxPoints := orDefault maxPoints 2000 in
  let step := chartStep (length t) maxPoints in
  let idxs := sampledIndices (length t) step in
  let lt := map (fun i => nth i t NaN) idxs in
  let lten := map (fun i => nth_error (res_tenz results) i) idxs in
  let lint := map (fun i => nth_error (res_interfCorrected results) i) idxs in
  let lsm := map (fun i => nth_error (res_interfSmoothed results) i) idxs in
  let lder := map (fun i => match nth_error (res_dudt_interf results) i with
                            | Some v => v
                            | None => None
                            end) idxs in
  let '(velocitySeries, displacementSeries) :=
    seriesAt t (res_dudt_interf results) (res_intersectionPoints results) in
  interfJumpCenter <- findLargestJumpStart t (res_interfCorrected results) ;;
  Ok {| cd_tenz := pointsOf lt lten;
        cd_smoothed := pointsOf lt lsm;
        cd_corrected := pointsOf lt lint;
        cd_derivative := pointsOf lt lder;
        cd_crossings :=
          map (fun p => {| cp_x := pt_time p; cp_y := Some (pt_value p) |})
              (res_intersectionPoints results);
        cd_raw_t := t;
        cd_raw_tenz := res_tenz results;
        cd_raw_interf := res_interf results;
        cd_raw_interfCorrected := res_interfCorrected results;
        cd_raw_dudt_interf := res_dudt_interf results;
        cd_intersections := res_intersectionPoints results;
        cd_velocitySeries := velocitySeries;
        cd_displacementSeries := displacementSeries;
        cd_focusPoints := interfJumpCenter |}.

(* ================================================================== *)
(** ** The controls of the page *)

(** [Number(e.target.value) || dflt] for a number input, whose value is a
    finite number ([None] stands for NaN; 0 is what an empty field
    gives).  The integer arithmetic that follows is that of doubles
    below 2^53 in magnitude. *)
Definition numberOr (value : option Q) (dflt : Q) : Q := orDefault value dflt.


(** The [onChange] handler of the order field (lines 102-106): the new
    [sgPoly], given the current [sgWindow]. *)
Definition onPolyChange (sgWindow : Z) (value : option Q) : Z :=
  let raw := Qfloor (numberOr value 1) in
  Z.min (Z.max 1 raw) (sgWindow - 1).



End Code.

(* ================================================================== *)
(** ** Doubles *)

Module Double.

Local Open Scope Z_scope.

(** The double nearest to the integer [m] times 2^[e], ties to even. *)
Definition ofZexp (m e : Z) : float :=
  SF2Prim (binary_normalize prec emax m e false).

Definition ofZ (z : Z) : float := ofZexp z 0.

(** The double nearest to a non-negative rational [n/d]: the quotient is
    taken with at least 64 significant bits and one more bit that records
    whether the division left a remainder, so that the single rounding to
    53 bits sees on which side of every midpoint the exact value lies. *)
Definition ofQpos (n : Z) (d : positive) : float :=
  if n =? 0 then PrimFloat.zero
  else
    let k := Z.max 0 (66 + Z.log2 (Zpos d) - Z.log2 n) in
    let q := (n * 2 ^ k) / Zpos d in
    let r := (n * 2 ^ k) mod Zpos d in
    let m := 2 * q + (if r =? 0 then 0 else 1) in
    ofZexp m (- k - 1).

Definition lit (q : Q) : float :=
  if Qnum q <? 0 then PrimFloat.opp (ofQpos (- Qnum q) (Qden q))
  else ofQpos (Qnum q) (Qden q).

(** [Math.floor] to an integer, for finite doubles. *)
Definition floor (x : float) : option Z :=
  match Prim2SF x with
  | S754_zero _ => Some 0
  | S754_finite s m e =>
      let v := if s then Z.neg m else Z.pos m in
      Some (if 0 <=? e then Z.shiftl v e else Z.shiftr v (- e))
  | _ => None
  end.

(** [Math.max] and [Math.min] of two numbers: NaN if either is NaN, and
    +0 counts as larger than -0. *)
Definition max (a b : float) : float :=
  if (PrimFloat.is_nan a || PrimFloat.is_nan b)%bool then PrimFloat.nan
  else if PrimFloat.ltb a b then b
  else if PrimFloat.ltb b a then a
  else if PrimFloat.get_sign a then b else a.

Definition min (a b : float) : float :=
  if (PrimFloat.is_nan a || PrimFloat.is_nan b)%bool then PrimFloat.nan
  else if PrimFloat.ltb a b then a
  else if PrimFloat.ltb b a then b
  else if PrimFloat.get_sign a then a else b.

(** [Math.sign]: 1, -1, or the argument itself when it is a zero or NaN. *)
Definition sign (x : float) : float :=
  if PrimFloat.ltb PrimFloat.zero x then PrimFloat.one
  else if PrimFloat.ltb x PrimFloat.zero then PrimFloat.opp PrimFloat.one
  else x.

End Double.

#[export] Instance float_arith : Arith float := {
  zero := PrimFloat.zero;
  one := PrimFloat.one;
  add := PrimFloat.add;
  sub := PrimFloat.sub;
  mul := PrimFloat.mul;
  div := PrimFloat.div;
  opp := PrimFloat.opp;
  abs := PrimFloat.abs;
  ltb := PrimFloat.ltb;
  leb := PrimFloat.leb;
  lit := Double.lit;
  ofZ := Double.ofZ;
  NaN := PrimFloat.nan;
  infinity := PrimFloat.infinity;
  isNaN := PrimFloat.is_nan;
  floor := Double.floor;
  eqb := PrimFloat.eqb;
  max := Double.max;
  min := Double.min;
  sign := Double.sign;
}.

(* ================================================================== *)
(** ** Exact rationals *)

Module Exact.

Definition ltb (x y : Qc) : bool :=
  match (x ?= y)%Qc with Lt => true | _ => false end.

Definition leb (x y : Qc) : bool :=
  match (x ?= y)%Qc with Gt => false | _ => true end.

Definition ofZ (z : Z) : Qc := Q2Qc (inject_Z z).

Definition max (x y : Qc) : Qc := if ltb x y then y else x.

Definition min (x y : Qc) : Qc := if ltb y x then y else x.

Definition sign (x : Qc) : Qc :=
  if ltb (Q2Qc 0) x then Q2Qc 1
  else if ltb x (Q2Qc 0) then Q2Qc (-1)
  else x.

End Exact.

(** Exact arithmetic has no NaN and no infinity; the two fields are
    filled with 0 and [isNaN] is never true.  Theorems about this
    instance concern computations that read no [undefined] and parse no
    text. *)
#[export] Instance Qc_arith : Arith Qc := {
  zero := Q2Qc 0;
  one := Q2Qc 1;
  add := Qcplus;
  sub := Qcminus;
  mul := Qcmult;
  div := Qcdiv;
  opp := Qcopp;
  abs := Qcabs;
  ltb := Exact.ltb;
  leb := Exact.leb;
  lit := Q2Qc;
  ofZ := Exact.ofZ;
  NaN := Q2Qc 0;
  infinity := Q2Qc 0;
  isNaN := fun _ => false;
  floor := fun x => Some (Qfloor x);
  eqb := Qc_eq_bool;
  max := Exact.max;
  min := Exact.min;
  sign := Exact.sign;
}.

(* ================================================================== *)
(** * Vocabulary of the properties *)

(** ** Shapes and steps of the elimination *)

Section MatrixVocabulary.

Context {F : Type} {AF : Arith F}.
Local Open Scope js_scope.

(** A matrix with [r] rows of [c] entries each. *)
Definition hasShape (r c : nat) (M : matrix (F:=F)) : Prop :=
  length M = r /\ Forall (fun row => length row = c) M.

(** All [n] rows have [w] entries. *)
Definition rowsOfLength (n w : nat) (A : matrix (F:=F)) : Prop :=
  length A = n /\ forall k, (k < n)%nat -> length (nth k A []) = w.

(** The normal-equations matrix [AtA] that [pseudoInverse] inverts. *)
Definition normalMatrix (half polyOrder : Z) : result (matrix (F:=F)) :=
  AT <- transpose (designMatrix half polyOrder) ;;
  multiplyMatrices AT (designMatrix half polyOrder).

(** The rows of [A] with the pivot row moved to position [i]. *)
Definition pivotRows (A : matrix) (i n : nat) : matrix :=
  if Nat.eqb (findMaxRow A i n) i then A else swapRows A i (findMaxRow A i n).

(** Where row [k] of [pivotRows A i n] comes from. *)
Definition pivotSource (A : matrix) (i n k : nat) : nat :=
  if Nat.eqb k i then findMaxRow A i n
  else if Nat.eqb k (findMaxRow A i n) then i else k.

(** The pivot row after scaling, and a row after elimination. *)
Definition scaledPivotRow (A : matrix) (i n : nat) : list F :=
  map (fun x => x / entry (pivotRows A i n) i i) (nth i (pivotRows A i n) []).

Definition eliminatedRow (A : matrix) (i n k : nat) : list F :=
  map2 (fun a b => a - nth i (nth k (pivotRows A i n) []) NaN * b)
       (nth k (pivotRows A i n) []) (scaledPivotRow A i n).

(** ** Exact linear algebra *)

(** The dot product of two vectors. *)
Fixpoint dot (c v : list F) : F :=
  match c, v with
  | x :: c', y :: v' => x * y + dot c' v'
  | _, _ => zero
  end.

(** The sum of a vector. *)
Fixpoint total (l : list F) : F :=
  match l with
  | [] => zero
  | x :: l' => x + total l'
  end.

(** Column [j] of a matrix. *)
Definition columnOf (j : nat) (rows : matrix (F:=F)) : list F :=
  map (fun r => nth j r NaN) rows.

(** The first column of a matrix. *)
Definition firstColumn (M : matrix (F:=F)) : list F :=
  map (fun row => nth 0 row NaN) M.

(** A row [b | c] of the matrix augmented from the [n] by [n] matrix [M]
    satisfies [c . M = b] in its first column. *)
Definition rowOK (M : matrix (F:=F)) (n : nat) (r : list F) : Prop :=
  length r = (n + n)%nat /\ dot (skipn n r) (firstColumn M) = nth 0 r NaN.

Definition rowsOK (M : matrix (F:=F)) (n : nat) (A : matrix (F:=F)) : Prop :=
  length A = n /\ forall k, (k < n)%nat -> rowOK M n (nth k A []).

(** The first column of the left half has become that of the identity. *)
Definition firstColumnDone (n : nat) (A : matrix (F:=F)) : Prop :=
  nth 0 (nth 0 A []) NaN = one
  /\ forall k, (1 <= k < n)%nat -> nth 0 (nth k A []) NaN = zero.

(** ** The filter *)

(** The dot product of the head of [xs] with [cs], added to [acc] from
    left to right. *)
Fixpoint dotFrom (acc : F) (xs cs : list F) : F :=
  match xs, cs with
  | x :: xs', c :: cs' => dotFrom (acc + x * c) xs' cs'
  | _, _ => acc
  end.

(** The dot products of [cs] with the first [k] windows of [l]. *)
Fixpoint slideDot (k : nat) (l cs : list F) : list F :=
  match k with
  | O => []
  | S k' => dotFrom zero l cs :: slideDot k' (tl l) cs
  end.

(** The input with its first and last samples repeated [h] times at the
    two ends: what the clamped index reads. *)
Definition padded (h : nat) (data : list F) : list F :=
  repeat (nth 0 data NaN) h ++ data ++ repeat (nth (length data - 1) data NaN) h.

End MatrixVocabulary.

(** The window and the order that [savitzkyGolay] works with. *)
Definition smoothHalf (windowSize : Q) : Z := (normWindow windowSize / 2)%Z.

Definition smoothOrder (windowSize polyOrder : Q) : Z :=
  normOrder (normWindow windowSize) polyOrder.

(** The smoothing coefficient vector that [savitzkyGolay] derives for its
    parameters (row 0 of the pseudo-inverse), when the inversion does not
    fall back. *)
Definition smoothingCoeffs {F : Type} {AF : Arith F} (windowSize polyOrder : Q)
  : option (list F) :=
  match pseudoInverse (smoothHalf windowSize) (smoothOrder windowSize polyOrder) with
  | Ok (Some ATAinvAT) => nth_error ATAinvAT 0
  | _ => None
  end.

Definition fractions (r : result (list Qc)) : result (list Q) :=
  match r with
  | Ok l => Ok (map this l)
  | Throw e => Throw e
  end.

(** ** Close roots *)

Section DedupVocabulary.

Context {F : Type} {AF : Arith F}.
Variable minDistance : F.
Local Open Scope js_scope.

(** Every element is at least [minDistance] after the one before it,
    [last] being the one before the first: the test of the source,
    [x - last >= minDistance], holds all along. *)
Fixpoint separatedFrom (last : F) (l : list F) : bool :=
  match l with
  | [] => true
  | x :: l' => (x - last >=? minDistance) && separatedFrom x l'
  end.

Definition separated (l : list F) : bool :=
  match l with
  | [] => true
  | x :: l' => separatedFrom x l'
  end.

End DedupVocabulary.

(** ** Rows of the trace *)

(** The data rows of a text, in the words of the specification: the
    trimmed, non-empty lines after the header line, header lines
    excluded. *)
Fixpoint dataRows (lines : list string) (dataStarted : bool) : list string :=
  match lines with
  | [] => []
  | raw :: rest =>
      let line := trim raw in
      if String.eqb line EmptyString then dataRows rest dataStarted
      else if startsWith "TIME,CH1," line then dataRows rest true
      else if dataStarted then line :: dataRows rest dataStarted
      else dataRows rest dataStarted
  end.

(** The rows retained for bounds [skipStart] and [skipEnd], in the words
    of the specification: rows are counted from [count + 1]; a row whose
    count is below [skipStart] is discarded; reading stops at the first
    row whose count exceeds [skipEnd]. *)
Fixpoint retainedFrom (skipStart skipEnd : Q) (count : Z) (rows : list string)
  : list string :=
  match rows with
  | [] => []
  | row :: rest =>
      let count := (count + 1)%Z in
      if negb (Qle_bool skipStart (inject_Z count)) then
        retainedFrom skipStart skipEnd count rest
      else if negb (Qle_bool (inject_Z count) skipEnd) then []
      else row :: retainedFrom skipStart skipEnd count rest
  end.

(** The same rows picked by their count alone. *)
Fixpoint rowsInRange (skipStart skipEnd : Q) (count : Z) (rows : list string)
  : list string :=
  match rows with
  | [] => []
  | row :: rest =>
      let count := (count + 1)%Z in
      if (Qle_bool skipStart (inject_Z count) && Qle_bool (inject_Z count) skipEnd)%bool
      then row :: rowsInRange skipStart skipEnd count rest
      else rowsInRange skipStart skipEnd count rest
  end.

Definition field (k : nat) (line : string) : string :=
  nth k (splitOn "," line) EmptyString.

Section RowVocabulary.

Context {F : Type} {AF : Arith F}.
Local Open Scope js_scope.

(** The test a retained row has to pass: at least 5 fields, and no NaN
    from [parseFloat] on fields 0, 1 and 3. *)
Definition acceptedRow (line : string) : bool :=
  ((5 <=? length (splitOn "," line))%nat
   && negb (isNaN (parseFloat (field 0 line)))
   && negb (isNaN (parseFloat (field 1 line)))
   && negb (isNaN (parseFloat (field 3 line))))%bool.

Definition rowTime (line : string) : F := parseFloat (field 0 line).

Definition rowStrain (line : string) : F :=
  parseFloat (field 1 line) * lit (132 # 100000) * lit (125 # 100).

Definition rowInterf (line : string) : F := parseFloat (field 3 line) + lit (4 # 100).

Definition pushRows (acc : Trace) (rows : list string) : Trace :=
  {| tr_t := tr_t acc ++ map rowTime rows;
     tr_tenz := tr_tenz acc ++ map rowStrain rows;
     tr_interf := tr_interf acc ++ map rowInterf rows |}.

End RowVocabulary.

Definition emptyTrace {F : Type} : Trace (F:=F) :=
  {| tr_t := []; tr_tenz := []; tr_interf := [] |}.

Definition newline : string := String "010" EmptyString.

(** The data rows of a text, after the split into lines. *)
Definition dataRowsOf (csvText : string) : list string :=
  dataRows (splitOn "010" csvText) false.

(** Three data rows under a header. *)
Definition threeRows : string :=
  ("TIME,CH1,CH2,CH3,CH4" ++ newline ++ "0,1,2,3,4" ++ newline
   ++ "1,1,2,3,4" ++ newline ++ "2,1,2,3,4" ++ newline)%string.

Definition boundsOptions (s e : Q) : Options :=
  {| sgWindow := None; sgPoly := None; baselineN := None;
     skipStart := Some s; skipEnd := Some e; derivativeWindowNs := None |}.

(** Five samples, 10 ns apart, whose interferometer channel steps from
    -1 to 1: one zero crossing, with all five samples within 200 ns. *)
Definition crossingRows : string :=
  ("TIME,CH1,CH2,CH3,CH4" ++ newline ++ "0,1,0,-1,0" ++ newline
   ++ "1e-8,1,0,-1,0" ++ newline ++ "2e-8,1,0,1,0" ++ newline
   ++ "3e-8,1,0,1,0" ++ newline ++ "4e-8,1,0,1,0" ++ newline)%string.

Definition filterOptions (window order : Q) : Options :=
  {| sgWindow := Some window; sgPoly := Some order; baselineN := None;
     skipStart := Some 1%Q; skipEnd := None; derivativeWindowNs := None |}.

(** ** Crossings of the two signals *)

Section CrossingVocabulary.

Context {F : Type} {AF : Arith F}.
Local Open Scope js_scope.

Variables t tenz interf : list F.

(** The pointwise difference of the two series at index [i]. *)
Definition diffAt (i : nat) : F := nth i tenz NaN - nth i interf NaN.

(** The sign change between index [i - 1] and index [i]. *)
Definition signChange (i : nat) : bool :=
  ((diffAt (i - 1) <=? zero) && (diffAt i >? zero)
   || (diffAt (i - 1) >=? zero) && (diffAt i <? zero))%bool.

(** Where between the two samples the difference crosses zero. *)
Definition crossingRatio (i : nat) : F :=
  (- diffAt (i - 1)) / (diffAt i - diffAt (i - 1)).

(** Linear interpolation of a series between index [i - 1] and [i]. *)
Definition interpolate (series : list F) (i : nat) : F :=
  nth (i - 1) series NaN + crossingRatio i * (nth i series NaN - nth (i - 1) series NaN).

(** The amplitude: half the sum of the two interpolated values, the four
    terms being added from left to right as in the source. *)
Definition crossingValue (i : nat) : F :=
  (nth (i - 1) tenz NaN + crossingRatio i * (nth i tenz NaN - nth (i - 1) tenz NaN)
   + nth (i - 1) interf NaN
   + crossingRatio i * (nth i interf NaN - nth (i - 1) interf NaN)) / ofZ 2.

Definition crossingPoint (i : nat) : RootPoint :=
  {| pt_time := interpolate t i; pt_value := crossingValue i |}.

End CrossingVocabulary.

(** ** Doubles and the synthetic step *)

Definition SFnonzero (x : spec_float) : bool :=
  match x with
  | S754_zero _ => false
  | _ => true
  end.

(** 10,000 samples: 0 below index [start], a linear ramp over the [len]
    samples from index [start] (sample [start + k] is [-k / len]), and -1
    from index [start + len] on. *)
Definition rampSignal (start len : nat) : list float :=
  map (fun i =>
         if (i <? start)%nat then PrimFloat.zero
         else if (i <? start + len)%nat
              then PrimFloat.div (Double.ofZ (Z.of_nat start - Z.of_nat i))
                                 (Double.ofZ (Z.of_nat len))
              else Double.ofZ (-1))
      (seq 0 10000).

(** The step at sample 5000 with its ramp of 20 samples: 0 below index
    5000, [-k / 20] at index [5000 + k], -1 from index 5020 on. *)
Definition stepSignal : list float := rampSignal 5000 20.

(** The coefficients of the fixed filter of the detector (window 11,
    order 2), as [savitzkyGolay] computes them in doubles. *)
Definition jumpCoeffs : list float :=
  match pseudoInverse (F:=float) (smoothHalf 11) (smoothOrder 11 2) with
  | Ok (Some P) => nth 0 P []
  | _ => []
  end.

(** Sample times with spacing 1: [t[i] = i]. *)
Definition uniformTime : list float :=
  map (fun i => Double.ofZ (Z.of_nat i)) (seq 0 10000).

(** ** The inverse *)

Section InverseVocabulary.

Context {F : Type} {AF : Arith F}.
Local Open Scope js_scope.

(** The [n] by [n] identity matrix. *)
Definition identityMatrix (n : nat) : matrix (F:=F) :=
  map (fun i => map (fun j => if Nat.eqb i j then one else zero) (seq 0 n)) (seq 0 n).

(** A row [b | c] of the matrix augmented from the [n] by [n] matrix [M]
    satisfies [c . M = b] in column [j]. *)
Definition rowSolves (M : matrix (F:=F)) (n j : nat) (r : list F) : Prop :=
  length r = (n + n)%nat /\ dot (skipn n r) (columnOf j M) = nth j r NaN.

Definition rowsSolve (M : matrix (F:=F)) (n : nat) (A : matrix (F:=F)) : Prop :=
  length A = n
  /\ forall j k, (j < n)%nat -> (k < n)%nat -> rowSolves M n j (nth k A []).

(** The columns before [i] of the left half are those of the identity. *)
Definition columnsDone (i n : nat) (A : matrix (F:=F)) : Prop :=
  forall c k, (c < i)%nat -> (k < n)%nat ->
              nth c (nth k A []) NaN = if Nat.eqb k c then one else zero.

End InverseVocabulary.

(** ** Polynomials under the filter *)

Section PolynomialVocabulary.

Context {F : Type} {AF : Arith F}.
Local Open Scope js_scope.

(** The value at the offset [o] of the polynomial with coefficients [b],
    the first of them for the power [j]. *)
Fixpoint polyFrom (j : Z) (b : list F) (o : Z) : F :=
  match b with
  | [] => zero
  | x :: b' => x * ofZ (o ^ j) + polyFrom (j + 1) b' o
  end.

(** [b0 + b1 o + b2 o^2 + ...] *)
Definition polyAt (b : list F) (o : Z) : F := polyFrom 0 b o.

(** The samples read for output [i]: those at the offsets from [-half] to
    [half], the index clamped to the array. *)
Definition windowAt (data : list F) (half : Z) (i : nat) : list F :=
  map (fun o => nth (clampIndex (length data) i o) data NaN) (zrange (- half) half).

(** The powers [o^j] of the offsets of a window. *)
Definition powerColumn (half j : Z) : list F :=
  map (fun o => ofZ (o ^ j)) (zrange (- half) half).

End PolynomialVocabulary.

(** ** Subsequences *)

(** [l1] is [l2] with some of its elements dropped. *)
Inductive subseq {A : Type} : list A -> list A -> Prop :=
| subseq_nil : subseq [] []
| subseq_keep (x : A) (l1 l2 : list A) : subseq l1 l2 -> subseq (x :: l1) (x :: l2)
| subseq_drop (x : A) (l1 l2 : list A) : subseq l1 l2 -> subseq l1 (x :: l2).

(** ** Roots *)

Section RootVocabulary.

Context {F : Type} {AF : Arith F}.
Local Open Scope js_scope.

(** The test of [findZeroCrossings] on the pair of samples [i - 1], [i]. *)
Definition oppositeSigns (interf : list F) (i : nat) : bool :=
  nth (i - 1) interf NaN * nth i interf NaN <? zero.

(** The root time interpolated on that pair. *)
Definition rootTime (t interf : list F) (i : nat) : F :=
  nth (i - 1) t NaN
  - nth (i - 1) interf NaN * (nth i t NaN - nth (i - 1) t NaN)
    / (nth i interf NaN - nth (i - 1) interf NaN).

End RootVocabulary.

(** ** The page and the chart *)



(** The number of indices [0, s, 2 s, ...] below [len]. *)
Definition strideCount (len s : nat) : nat := ((len + s - 1) / s)%nat.

Section ChartVocabulary.

Context {F : Type} {AF : Arith F}.
Local Open Scope js_scope.

(** The displacement series [ds] goes with the velocity series [vs] by
    the trapezoid rule, from the displacement [disp] reached at the time
    [lastTime] with the velocity [lastVel]. *)
Inductive trapezoid : F -> F -> F -> list SeriesPoint -> list SeriesPoint -> Prop :=
| trapezoid_nil (lastTime lastVel disp : F) : trapezoid lastTime lastVel disp [] []
| trapezoid_cons (lastTime lastVel disp time v : F) (vs ds : list SeriesPoint) :
    trapezoid time v (disp + lit (1 # 2) * (v + lastVel) * (time - lastTime)) vs ds ->
    trapezoid lastTime lastVel disp
              ({| sp_time := time; sp_value := v |} :: vs)
              ({| sp_time := time;
                  sp_value := disp + lit (1 # 2) * (v + lastVel) * (time - lastTime) |}
               :: ds).

End ChartVocabulary.

(* ================================================================== *)
(** * Properties *)

#[local] Set Warnings "-inexact-float".

(** ** Sample runs in doubles *)

Example parseFloat_samples :
  map (parseFloat (F:=float)) ["1.5"; " -2e3"; "12abc"; ".5"; "5."; "1e"; "-4.56E-3"]%string
  = [1.5; -2000; 12; 0.5; 5; 1; -0.0045599999999999998]%float.
Proof. vm_compute. reflexivity. Qed.

Example parseFloat_not_numeric :
  map (fun s => isNaN (parseFloat (F:=float) s)) [""; "abc"; "."; "e5"; "-"]%string
  = [true; true; true; true; true].
Proof. vm_compute. reflexivity. Qed.

Example parseFloat_rounds_to_nearest :
  map (parseFloat (F:=float)) ["0.1"; "9007199254740993"; "1e400"; "2.5e-324"]%string
  = [0.10000000000000001; 9007199254740992; PrimFloat.infinity;
     4.9406564584124654e-324]%float.
Proof. vm_compute. reflexivity. Qed.

Example splitOn_sample :
  splitOn "," "a,b,,c," = ["a"; "b"; ""; "c"; ""]%string
  /\ splitOn "," "" = [""]%string.
Proof. split; reflexivity. Qed.

Example trim_sample : trim (String "009" "  ab c  " ++ newline) = "ab c"%string.
Proof. reflexivity. Qed.

Example filterClosePoints_sample :
  filterClosePoints (F:=float) 0%nat 0.1%float
                    [0; 0.05; 0.12; 0.15; 0.3; 0.31]%float [1; 2; 3; 4; 5; 6]%nat
  = ([0; 0.12; 0.3]%float, [1; 3; 5]%nat).
Proof. vm_compute. reflexivity. Qed.

Example findZeroCrossings_sample :
  findZeroCrossings (F:=float) [0; 1; 2; 3]%float [-1; 1; 2; -2]%float
  = ([0.5; 2.5]%float, [0; 0]%float).
Proof. vm_compute. reflexivity. Qed.

Example removeBaseline_sample :
  removeBaseline (F:=float) [1; 2; 3; 4]%float 2 = [-0.5; 0.5; 1.5; 2.5]%float.
Proof. vm_compute. reflexivity. Qed.

Example findJumpByDerivative_sample :
  findJumpByDerivative (F:=float) [0; 1; 2; 3; 4; 5]%float [0; 0; 0.1; 2; 4; 4.1]%float
  = Some 2%nat.
Proof. vm_compute. reflexivity. Qed.

(** The whole of [parseCSV] on the five samples of [crossingRows], with
    window 3 and order 1: one root, one intersection. *)
Example parseCSV_sample :
  match parseCSV (F:=float) crossingRows (filterOptions 3 1) with
  | Ok r =>
      res_t0 r = [1.8000000000000002e-08]%float
      /\ res_dudt_interf r
         = [Some 33333333.333333332; Some 66666666.666666664;
            Some 66666666.666666664; Some 33333333.333333332; Some 0]%float
      /\ length (res_intersectionPoints r) = 1%nat
  | Throw _ => False
  end.
Proof. vm_compute. repeat split; reflexivity. Qed.

(** ** Shapes of the matrices *)

Lemma bind_ok {A B : Type} (r : result A) (k : A -> result B) (b : B) :
  bind r k = Ok b -> exists a, r = Ok a /\ k a = Ok b.
Proof.
  destruct r as [a | e]; simpl; intros H; [exists a; auto | discriminate].
Qed.

Lemma zrange_length (lo hi : Z) : length (zrange lo hi) = Z.to_nat (hi - lo + 1).
Proof. unfold zrange. now rewrite length_map, length_seq. Qed.

Lemma zrange_nth (lo hi : Z) (k : nat) (d : Z) :
  (k < Z.to_nat (hi - lo + 1))%nat -> nth k (zrange lo hi) d = (lo + Z.of_nat k)%Z.
Proof.
  intros Hk. unfold zrange.
  rewrite nth_indep with (d' := (lo + Z.of_nat 0)%Z) by now rewrite length_map, length_seq.
  rewrite (map_nth (fun k => (lo + Z.of_nat k)%Z)), seq_nth by exact Hk.
  reflexivity.
Qed.

Lemma mapi_from_length {A B : Type} (f : nat -> A -> B) (l : list A) (k : nat) :
  length (mapi_from k f l) = length l.
Proof. revert k; induction l as [| x l IH]; intros k; simpl; [| rewrite IH]; reflexivity. Qed.

Lemma mapi_length {A B : Type} (f : nat -> A -> B) (l : list A) :
  length (mapi f l) = length l.
Proof. apply mapi_from_length. Qed.

Lemma mapi_from_nth {A B : Type} (f : nat -> A -> B) (l : list A) (k i : nat) (da : A) (db : B) :
  (i < length l)%nat -> nth i (mapi_from k f l) db = f (k + i)%nat (nth i l da).
Proof.
  revert k i; induction l as [| x l IH]; intros k i Hi; simpl in *; [lia |].
  destruct i as [| i]; [now rewrite Nat.add_0_r |].
  rewrite IH by lia. f_equal. lia.
Qed.

Lemma mapi_nth {A B : Type} (f : nat -> A -> B) (l : list A) (i : nat) (da : A) (db : B) :
  (i < length l)%nat -> nth i (mapi f l) db = f i (nth i l da).
Proof. intros Hi. unfold mapi. now rewrite mapi_from_nth with (da := da). Qed.

Lemma set_nth_length {A : Type} (i : nat) (x : A) (l : list A) :
  length (set_nth i x l) = length l.
Proof.
  revert i; induction l as [| y l IH]; intros [| i]; simpl; auto.
Qed.

Lemma set_nth_nth {A : Type} (i k : nat) (x d : A) (l : list A) :
  nth k (set_nth i x l) d
  = if Nat.eqb k i then (if (i <? length l)%nat then x else d) else nth k l d.
Proof.
  revert i k; induction l as [| y l IH]; intros i k; simpl.
  - destruct i, k; simpl; try reflexivity; now destruct (Nat.eqb k i).
  - destruct i as [| i], k as [| k]; simpl; try reflexivity.
    rewrite IH. reflexivity.
Qed.

Lemma map2_length {A B C : Type} (f : A -> B -> C) (l1 : list A) (l2 : list B) :
  length (map2 f l1 l2) = Nat.min (length l1) (length l2).
Proof.
  revert l2; induction l1 as [| a l1 IH]; intros [| b l2]; simpl; auto.
Qed.

Lemma map2_nth {A B C : Type} (f : A -> B -> C) (l1 : list A) (l2 : list B)
      (i : nat) (da : A) (db : B) (dc : C) :
  (i < length l1)%nat -> (i < length l2)%nat ->
  nth i (map2 f l1 l2) dc = f (nth i l1 da) (nth i l2 db).
Proof.
  revert l2 i; induction l1 as [| a l1 IH]; intros [| b l2] i H1 H2; simpl in *; try lia.
  destruct i as [| i]; [reflexivity | apply IH; lia].
Qed.

Section Shapes.

Context {F : Type} {AF : Arith F}.
Local Open Scope js_scope.

Lemma designMatrix_shape (half polyOrder : Z) :
  hasShape (Z.to_nat (2 * half + 1)) (Z.to_nat (polyOrder + 1)) (designMatrix half polyOrder).
Proof.
  unfold hasShape, designMatrix. split.
  - rewrite length_map, zrange_length. f_equal. lia.
  - apply Forall_forall. intros row Hin. apply in_map_iff in Hin as [i [<- _]].
    rewrite length_map, zrange_length. f_equal. lia.
Qed.

Lemma transpose_shape (r c : nat) (M : matrix (F:=F)) :
  hasShape (S r) c M -> exists T, transpose M = Ok T /\ hasShape c (S r) T.
Proof.
  intros [Hlen Hrows]. destruct M as [| row0 M']; [discriminate |].
  eexists; split; [reflexivity |]. split.
  - rewrite length_map, length_seq. now inversion Hrows.
  - apply Forall_forall. intros col Hin. apply in_map_iff in Hin as [i [<- _]].
    now rewrite length_map.
Qed.

Lemma multiplyMatrices_shape (r c k k' : nat) (A B : matrix (F:=F)) :
  hasShape (S r) k A -> hasShape (S k') c B -> (k <= S k')%nat ->
  exists C, multiplyMatrices A B = Ok C /\ hasShape (S r) c C.
Proof.
  intros [HlenA HrowsA] [HlenB HrowsB] Hk.
  destruct A as [| a0 A']; [discriminate |].
  destruct B as [| b0 B']; [discriminate |].
  unfold multiplyMatrices.
  assert (Ha0 : length a0 = k) by now inversion HrowsA.
  rewrite Ha0, HlenB.
  destruct (Nat.ltb_spec (S k') k) as [Hlt | _]; [lia |]. cbn [andb].
  eexists; split; [reflexivity |]. split.
  - now rewrite length_map.
  - apply Forall_forall. intros row Hin. apply in_map_iff in Hin as [rowA [<- _]].
    rewrite length_map, length_seq. now inversion HrowsB.
Qed.

(** With no column, the product of the (empty) transpose is a
    [TypeError]: this is the case of a negative [polyOrder]. *)
Lemma multiplyMatrices_nil_l (B : matrix (F:=F)) : multiplyMatrices [] B = Throw TypeError.
Proof. reflexivity. Qed.

(** *** One step of the elimination, row by row *)

Lemma findMaxRow_bounds (A : matrix (F:=F)) (i n : nat) :
  (i < n)%nat -> (i <= findMaxRow A i n < n)%nat.
Proof.
  intros Hi. unfold findMaxRow.
  assert (H : forall l init,
             (forall k, In k l -> (i <= k < n)%nat) -> (i <= init < n)%nat ->
             (i <= fold_left (fun maxRow k =>
                                if abs (entry A k i) >? abs (entry A maxRow i)
                                then k else maxRow) l init < n)%nat).
  { induction l as [| k l IH]; intros init Hl Hinit; simpl; [exact Hinit |].
    apply IH; [intros k' Hk'; apply Hl; now right |].
    destruct (ltb _ _); [apply Hl; now left | exact Hinit]. }
  apply H; [| lia]. intros k Hk. apply in_seq in Hk. lia.
Qed.

Lemma pivotSource_bound (A : matrix (F:=F)) (i n k : nat) :
  (i < n)%nat -> (k < n)%nat -> (pivotSource A i n k < n)%nat.
Proof.
  intros Hi Hk. unfold pivotSource. pose proof (findMaxRow_bounds A Hi).
  destruct (Nat.eqb k i); [lia |]. destruct (Nat.eqb k _); lia.
Qed.

Lemma pivotRows_length (A : matrix (F:=F)) (i n : nat) : length (pivotRows A i n) = length A.
Proof.
  unfold pivotRows, swapRows. destruct (Nat.eqb _ _); [reflexivity |].
  now rewrite !set_nth_length.
Qed.

Lemma pivotRows_nth (A : matrix (F:=F)) (i n k : nat) :
  length A = n -> (i < n)%nat ->
  nth k (pivotRows A i n) [] = nth (pivotSource A i n k) A [].
Proof.
  intros Hlen Hi. unfold pivotRows, pivotSource.
  pose proof (findMaxRow_bounds A Hi) as Hm.
  destruct (Nat.eqb_spec (findMaxRow A i n) i) as [Heq | Hne].
  - rewrite Heq. destruct (Nat.eqb_spec k i); congruence.
  - unfold swapRows. rewrite set_nth_nth, set_nth_length.
    destruct (Nat.eqb_spec k i) as [-> | Hki].
    + destruct (Nat.ltb_spec i (length A)); [reflexivity | lia].
    + rewrite set_nth_nth.
      destruct (Nat.eqb_spec k (findMaxRow A i n)) as [-> | Hkm]; [| reflexivity].
      destruct (Nat.ltb_spec (findMaxRow A i n) (length A)); [reflexivity | lia].
Qed.

Lemma pivotStep_rows (A A' : matrix (F:=F)) (i n : nat) :
  length A = n -> (i < n)%nat -> pivotStep A i n = Ok A' ->
  (abs (entry (pivotRows A i n) i i) <? pivotEps) = false
  /\ length A' = n
  /\ forall k, (k < n)%nat ->
               nth k A' [] = if Nat.eqb k i then scaledPivotRow A i n
                             else eliminatedRow A i n k.
Proof.
  intros Hlen Hi Hstep. unfold pivotStep in Hstep.
  assert (Hpiv : entry (pivotRows A i n) i i = entry A (findMaxRow A i n) i).
  { unfold entry. rewrite pivotRows_nth by assumption.
    unfold pivotSource. now rewrite Nat.eqb_refl. }
  destruct (abs (entry A (findMaxRow A i n) i) <? pivotEps) eqn:Htest; [discriminate |].
  injection Hstep as <-.
  fold (pivotRows A i n). fold (scaledPivotRow A i n).
  repeat split.
  - now rewrite Hpiv.
  - now rewrite mapi_length, set_nth_length, pivotRows_length.
  - intros k Hk.
    rewrite mapi_nth with (da := [])
      by (rewrite set_nth_length, pivotRows_length; lia).
    rewrite set_nth_nth, pivotRows_length.
    destruct (Nat.eqb_spec k i) as [-> | Hki].
    + destruct (Nat.ltb_spec i (length A)); [reflexivity | lia].
    + reflexivity.
Qed.

Lemma hasShape_rowsOfLength (n w : nat) (A : matrix (F:=F)) :
  hasShape n w A <-> rowsOfLength n w A.
Proof.
  unfold hasShape, rowsOfLength. split; intros [Hlen Hrows]; (split; [exact Hlen |]).
  - intros k Hk. rewrite Forall_forall in Hrows. apply Hrows, nth_In. lia.
  - apply Forall_forall. intros row Hin.
    destruct (In_nth A row [] Hin) as [k [Hk <-]]. apply Hrows. lia.
Qed.

Lemma pivotStep_shape (A A' : matrix (F:=F)) (i n w : nat) :
  rowsOfLength n w A -> (i < n)%nat -> pivotStep A i n = Ok A' ->
  rowsOfLength n w A'.
Proof.
  intros [Hlen Hrows] Hi Hstep.
  destruct (@pivotStep_rows A A' i n Hlen Hi Hstep) as [_ [Hlen' Hrows']].
  assert (Hsrc : forall k, (k < n)%nat -> length (nth k (pivotRows A i n) []) = w).
  { intros k Hk. rewrite pivotRows_nth by assumption.
    apply Hrows. now apply pivotSource_bound. }
  split; [exact Hlen' |]. intros k Hk. rewrite Hrows' by exact Hk.
  destruct (Nat.eqb k i).
  - unfold scaledPivotRow. rewrite length_map. now apply Hsrc.
  - unfold eliminatedRow, scaledPivotRow.
    rewrite map2_length, length_map, !Hsrc by assumption. lia.
Qed.

Lemma pivotLoop_thrown (cols : list nat) (n : nat) (e : exn) :
  fold_left (fun acc i => A <- acc ;; pivotStep A i n) cols (Throw e) = Throw e.
Proof. induction cols as [| i cols IH]; simpl; [reflexivity | exact IH]. Qed.

Lemma pivotLoop_shape (n w len : nat) :
  forall s (A A' : matrix (F:=F)),
    (s + len <= n)%nat -> rowsOfLength n w A ->
    fold_left (fun acc i => A <- acc ;; pivotStep A i n) (seq s len) (Ok A) = Ok A' ->
    rowsOfLength n w A'.
Proof.
  induction len as [| len IH]; intros s A A' Hs HA Hloop; simpl in Hloop.
  - now injection Hloop as <-.
  - destruct (pivotStep A s n) as [A1 | e] eqn:Hstep;
      [| rewrite pivotLoop_thrown in Hloop; discriminate].
    apply (IH (S s) A1 A'); [lia | | exact Hloop].
    apply (@pivotStep_shape A A1 s n w HA); [lia | exact Hstep].
Qed.

(** The inverse of a square matrix, when there is one, has its shape. *)
Lemma invertMatrix_shape (n : nat) (m inv : matrix (F:=F)) :
  hasShape n n m -> invertMatrix m = Ok inv -> hasShape n n inv.
Proof.
  intros Hm Hinv. apply hasShape_rowsOfLength in Hm. destruct Hm as [Hlen Hrows].
  unfold invertMatrix in Hinv. rewrite Hlen in Hinv.
  apply bind_ok in Hinv as [A' [Hloop Hinv]]. injection Hinv as <-.
  assert (Haug : rowsOfLength n (n + n) (augment m)).
  { unfold augment. rewrite Hlen. split; [now rewrite mapi_length |].
    intros k Hk. rewrite mapi_nth with (da := []) by lia.
    rewrite length_app, length_map, length_seq, Hrows by exact Hk. reflexivity. }
  destruct (@pivotLoop_shape n (n + n) n 0 (augment m) A' ltac:(lia) Haug Hloop)
    as [Hlen' Hrows'].
  apply hasShape_rowsOfLength. split; [now rewrite length_map |].
  intros k Hk.
  assert (Hk' : nth k (map (skipn n) A') [] = skipn n (nth k A' [])).
  { rewrite <- (map_nth (skipn n) A' []). f_equal. now destruct n. }
  rewrite Hk', length_skipn, Hrows' by exact Hk. lia.
Qed.

(** [invertMatrix] only ever throws the degeneracy error. *)
Lemma pivotLoop_throw (cols : list nat) (n : nat) (r : result matrix) (e : exn) :
  fold_left (fun acc i => A <- acc ;; pivotStep A i n) cols r = Throw e ->
  (forall e', r = Throw e' -> e' = MatrixDegenerate) -> e = MatrixDegenerate.
Proof.
  revert r; induction cols as [| i cols IH]; intros r H Hr; simpl in H.
  - now apply Hr.
  - apply IH in H; [exact H |].
    intros e'. destruct r as [A | e0]; simpl.
    + unfold pivotStep. destruct (ltb _ _); congruence.
    + intros H'; injection H' as <-. now apply Hr.
Qed.

Lemma invertMatrix_throw (m : matrix (F:=F)) (e : exn) :
  invertMatrix m = Throw e -> e = MatrixDegenerate.
Proof.
  unfold invertMatrix. intros H.
  destruct (fold_left _ _ _) as [A | e0] eqn:Hloop; simpl in H; [discriminate |].
  injection H as <-.
  apply pivotLoop_throw in Hloop; [exact Hloop | discriminate].
Qed.

Lemma normalMatrix_shape (half polyOrder : Z) :
  (0 <= half)%Z -> (0 <= polyOrder)%Z ->
  exists AT ATA,
    transpose (designMatrix half polyOrder) = Ok AT /\
    hasShape (Z.to_nat (polyOrder + 1)) (Z.to_nat (2 * half + 1)) AT /\
    multiplyMatrices AT (designMatrix half polyOrder) = Ok ATA /\
    hasShape (Z.to_nat (polyOrder + 1)) (Z.to_nat (polyOrder + 1)) ATA.
Proof.
  intros Hh Hp.
  pose proof (designMatrix_shape half polyOrder) as HA.
  replace (Z.to_nat (2 * half + 1)) with (S (Z.to_nat (2 * half))) in * by lia.
  replace (Z.to_nat (polyOrder + 1)) with (S (Z.to_nat polyOrder)) in * by lia.
  destruct (transpose_shape HA) as [AT [HT HATs]].
  destruct (multiplyMatrices_shape HATs HA (Nat.le_refl _)) as [ATA [HM HMs]].
  exists AT, ATA. auto.
Qed.

(** On a window with at least one row and a non-negative order,
    [pseudoInverse] never throws: it is the fallback [None] or a matrix
    with one row per power. *)
Lemma pseudoInverse_shape (half polyOrder : Z) :
  (0 <= half)%Z -> (0 <= polyOrder)%Z ->
  pseudoInverse half polyOrder = Ok None \/
  exists P, pseudoInverse half polyOrder = Ok (Some P) /\
            hasShape (Z.to_nat (polyOrder + 1)) (Z.to_nat (2 * half + 1)) P.
Proof.
  intros Hh Hp.
  destruct (normalMatrix_shape Hh Hp) as [AT [ATA [HT [HATs [HM HMs]]]]].
  unfold pseudoInverse. rewrite HT; cbn [bind]. rewrite HM; cbn [bind].
  destruct (invertMatrix ATA) as [inv | e] eqn:Hinv; [right | now left].
  apply (invertMatrix_shape HMs) in Hinv.
  replace (Z.to_nat (polyOrder + 1)) with (S (Z.to_nat polyOrder)) in * by lia.
  destruct (multiplyMatrices_shape Hinv HATs (Nat.le_refl _)) as [P [HP HPs]].
  rewrite HP. cbn [bind]. exists P. auto.
Qed.

End Shapes.

(* ================================================================== *)
(** ** Normalisation of the filter parameters *)

Lemma normWindow_spec (windowSize : Q) :
  (3 <= normWindow windowSize)%Z /\ Z.odd (normWindow windowSize) = true.
Proof.
  unfold normWindow.
  destruct (Z.eqb_spec (Z.max 3 (Qfloor windowSize) mod 2) 0) as [He | Hne].
  - split; [lia |]. rewrite Z.add_1_r, Z.odd_succ.
    rewrite <- Z.negb_odd. rewrite Zodd_mod, He. reflexivity.
  - split; [lia |]. rewrite Zodd_mod.
    pose proof (Z.mod_pos_bound (Z.max 3 (Qfloor windowSize)) 2 ltac:(lia)) as Hb.
    apply Z.eqb_eq. lia.
Qed.

Lemma normOrder_spec (w : Z) (polyOrder : Q) :
  (3 <= w)%Z -> (1 <= normOrder w polyOrder < w)%Z.
Proof.
  intros Hw. unfold normOrder.
  destruct (Z.geb_spec (Z.max 1 (Qfloor polyOrder)) w); lia.
Qed.

Lemma smoothHalf_pos (windowSize : Q) : (1 <= smoothHalf windowSize)%Z.
Proof.
  unfold smoothHalf. destruct (normWindow_spec windowSize) as [H3 _].
  apply Z.div_le_lower_bound; lia.
Qed.

Lemma smoothOrder_bounds (windowSize polyOrder : Q) :
  (1 <= smoothOrder windowSize polyOrder < normWindow windowSize)%Z.
Proof.
  apply normOrder_spec. apply normWindow_spec.
Qed.

Section NoEscape.

Context {F : Type} {AF : Arith F}.

Lemma savitzkyGolay_unfold (data : list F) (windowSize polyOrder : Q) :
  data <> [] ->
  savitzkyGolay data windowSize polyOrder =
    (P <- pseudoInverse (smoothHalf windowSize) (smoothOrder windowSize polyOrder) ;;
     match P with
     | None => Ok data
     | Some ATAinvAT =>
         match nth_error ATAinvAT 0 with
         | None => Throw TypeError
         | Some coeffs =>
             Ok (map (convolveAt (length data) data coeffs (smoothHalf windowSize))
                     (seq 0 (length data)))
         end
     end).
Proof. destruct data; [congruence | reflexivity]. Qed.

(** The smoothing path never throws and keeps the length of its input. *)
Lemma savitzkyGolay_ok (data : list F) (windowSize polyOrder : Q) :
  exists out, savitzkyGolay data windowSize polyOrder = Ok out
              /\ length out = length data.
Proof.
  destruct data as [| d0 data']; [exists []; auto |].
  rewrite savitzkyGolay_unfold by discriminate.
  pose proof (smoothHalf_pos windowSize) as Hh.
  pose proof (smoothOrder_bounds windowSize polyOrder) as Hp.
  destruct (@pseudoInverse_shape F AF (smoothHalf windowSize)
              (smoothOrder windowSize polyOrder)) as [-> | [P [-> [Hlen _]]]]; try lia.
  - exists (d0 :: data'); auto.
  - cbn [bind]. destruct P as [| coeffs P'].
    + simpl in Hlen. lia.
    + eexists; split; [reflexivity |]. now rewrite length_map, length_seq.
Qed.

Lemma savitzkyGolay_fallback (data : list F) (windowSize polyOrder : Q) (ATA : matrix (F:=F)) :
  normalMatrix (smoothHalf windowSize) (smoothOrder windowSize polyOrder) = Ok ATA ->
  invertMatrix ATA = Throw MatrixDegenerate ->
  savitzkyGolay data windowSize polyOrder = Ok data.
Proof.
  intros HM Hinv. destruct data as [| d0 data']; [reflexivity |].
  rewrite savitzkyGolay_unfold by discriminate.
  unfold pseudoInverse. unfold normalMatrix in HM.
  apply bind_ok in HM as [AT [-> HM]]. cbn [bind]. rewrite HM. cbn [bind].
  now rewrite Hinv.
Qed.

Lemma calculateDerivativeSG_fallback (t signal : list F) (windowSize polyOrder : Q)
      (ATA : matrix (F:=F)) :
  normalMatrix (Qfloor (windowSize / 2)) (Qfloor polyOrder) = Ok ATA ->
  invertMatrix ATA = Throw MatrixDegenerate ->
  calculateDerivativeSG t signal windowSize polyOrder = Ok (repeat zero (length signal)).
Proof.
  intros HM Hinv. unfold calculateDerivativeSG.
  destruct (length signal <? 3)%nat; [reflexivity |].
  unfold pseudoInverse. unfold normalMatrix in HM.
  apply bind_ok in HM as [AT [-> HM]]. cbn [bind]. rewrite HM. cbn [bind].
  now rewrite Hinv.
Qed.

(** With a window of at least one sample and an order of at least 1 the
    derivative path does not throw either. *)
Lemma calculateDerivativeSG_ok (t signal : list F) (windowSize polyOrder : Q) :
  (0 <= Qfloor (windowSize / 2))%Z -> (1 <= Qfloor polyOrder)%Z ->
  exists out, calculateDerivativeSG t signal windowSize polyOrder = Ok out
              /\ length out = length signal.
Proof.
  intros Hh Hp. unfold calculateDerivativeSG.
  destruct (length signal <? 3)%nat.
  { eexists; split; [reflexivity | apply repeat_length]. }
  destruct (@pseudoInverse_shape F AF (Qfloor (windowSize / 2)) (Qfloor polyOrder))
    as [-> | [P [-> [Hlen _]]]]; try lia; cbn [bind].
  { eexists; split; [reflexivity | apply repeat_length]. }
  destruct P as [| r0 [| r1 P']]; simpl in Hlen; try lia.
  eexists; split; [reflexivity |]. now rewrite length_map, length_seq.
Qed.

End NoEscape.

(* ================================================================== *)
(** ** Degenerate matrices: the fallback of the two filters *)

(** C3.  When [invertMatrix] throws on the normal-equations matrix (a
    pivot of magnitude below 1e-15), the smoothing path returns its input
    unchanged and the derivative path returns zeros of the length of its
    input; the smoothing path never throws at all, and with window 3 and
    order 2 neither path throws. *)
Theorem degenerate_matrix_fallback {F : Type} {AF : Arith F}
        (t data : list F) (windowSize polyOrder : Q) :
  (forall ATA,
      normalMatrix (smoothHalf windowSize) (smoothOrder windowSize polyOrder) = Ok ATA ->
      invertMatrix ATA = Throw MatrixDegenerate ->
      savitzkyGolay data windowSize polyOrder = Ok data)
  /\ (forall ATA,
         normalMatrix (Qfloor (windowSize / 2)) (Qfloor polyOrder) = Ok ATA ->
         invertMatrix ATA = Throw MatrixDegenerate ->
         calculateDerivativeSG t data windowSize polyOrder
         = Ok (repeat zero (length data)))
  /\ (exists out, savitzkyGolay data windowSize polyOrder = Ok out
                  /\ length out = length data)
  /\ (exists out, savitzkyGolay data 3 2 = Ok out /\ length out = length data)
  /\ (exists out, calculateDerivativeSG t data 3 2 = Ok out
                  /\ length out = length data).
Proof.
  repeat split.
  - intros ATA. apply savitzkyGolay_fallback.
  - intros ATA. apply calculateDerivativeSG_fallback.
  - apply savitzkyGolay_ok.
  - apply savitzkyGolay_ok.
  - apply calculateDerivativeSG_ok; vm_compute; discriminate.
Qed.

(** The fallback of the derivative path at work in doubles: with window 3
    and order 3 the columns of [i] and [i^3] coincide, the third pivot is
    0 and the output is all zeros. *)
Lemma degenerate_matrix_fallback_witness :
  calculateDerivativeSG (F:=float) (map Double.ofZ [0; 1; 2]%Z)
                        (map Double.ofZ [1; 2; 4]%Z) 3 3
  = Ok (repeat zero 3).
Proof.
  destruct (degenerate_matrix_fallback (F:=float) (map Double.ofZ [0; 1; 2]%Z)
              (map Double.ofZ [1; 2; 4]%Z) 3 3) as [_ [H _]].
  destruct (normalMatrix (F:=float) (Qfloor (3 / 2)) (Qfloor 3)) as [ATA | e] eqn:HM;
    [| vm_compute in HM; discriminate].
  apply (H ATA); [reflexivity |].
  vm_compute in HM. injection HM as <-. vm_compute. reflexivity.
Defined.

(* ================================================================== *)
(** ** The derivative path does not normalise its parameters *)

(** C9.  The smoothing path normalises (an odd window of at least 3, an
    order of at least 1 and below the window), but the derivative path
    uses [polyOrder] as it is: with order 0 the pseudo-inverse has a
    single row, [coeffsDeriv] is [undefined] and reading its entry throws
    a [TypeError], whatever the samples are. *)
Theorem derivative_order_zero_throws (t signal : list float) :
  (3 <= length signal)%nat ->
  calculateDerivativeSG t signal 3 0 = Throw TypeError.
Proof.
  intros Hn. unfold calculateDerivativeSG.
  destruct (Nat.ltb_spec (length signal) 3) as [Hlt | _]; [lia |].
  reflexivity.
Qed.

Lemma derivative_order_zero_throws_witness :
  calculateDerivativeSG (F:=float) (map Double.ofZ [0; 1; 2]%Z)
                        (map Double.ofZ [1; 2; 3]%Z) 3 0
  = Throw TypeError.
Proof.
  apply derivative_order_zero_throws. simpl. lia.
Defined.

(** The same [TypeError] leaves [parseCSV]: a fractional order below 1
    passes the [||] default, the smoothing path raises it to 1, and the
    derivative path, called on the samples around the root, builds a
    single column. *)
Lemma parseCSV_fractional_order_throws :
  parseCSV (F:=float) crossingRows (filterOptions 3 (1 # 2)) = Throw TypeError.
Proof. vm_compute. reflexivity. Qed.

(** What the smoothing path, by contrast, does with the same order. *)
Lemma smoothing_normalises (windowSize polyOrder : Q) :
  (3 <= normWindow windowSize)%Z
  /\ Z.odd (normWindow windowSize) = true
  /\ (1 <= smoothOrder windowSize polyOrder < normWindow windowSize)%Z.
Proof.
  destruct (normWindow_spec windowSize) as [H3 Hodd].
  repeat split; try assumption; apply smoothOrder_bounds.
Qed.

(* ================================================================== *)
(** ** The guard of the jump detector *)

(** C10.  When the two arrays differ in length or have fewer than 3
    elements, [findLargestJumpStart] returns [null]. *)
Theorem findLargestJumpStart_guard {F : Type} {AF : Arith F} (t signal : list F) :
  (length t <> length signal \/ length t < 3)%nat ->
  findLargestJumpStart t signal = Ok None.
Proof.
  intros H. unfold findLargestJumpStart.
  destruct (Nat.ltb_spec (length t) 3) as [Hlt | Hge]; [reflexivity |].
  destruct (Nat.eqb_spec (length t) (length signal)) as [Heq | Hne]; [lia | reflexivity].
Qed.

Lemma findLargestJumpStart_guard_witness :
  findLargestJumpStart (F:=float) (map Double.ofZ [0; 1; 2; 3]%Z)
                       (map Double.ofZ [5; 5; 5]%Z) = Ok None
  /\ findLargestJumpStart (F:=float) (map Double.ofZ [0; 1]%Z)
                          (map Double.ofZ [5; 5]%Z) = Ok None.
Proof.
  split; apply findLargestJumpStart_guard; simpl; [left | right]; lia.
Defined.

(* ================================================================== *)
(** ** De-duplication of close roots *)

Section Dedup.

Context {F : Type} {AF : Arith F} {V : Type}.
Variable undef : V.
Variable minDistance : F.
Local Open Scope js_scope.

(** What a sweep keeps is separated. *)
Lemma sweepFrom_separated (outT : list F) :
  forall last outY,
    separatedFrom minDistance last (fst (sweepFrom undef minDistance last outT outY))
    = true.
Proof.
  induction outT as [| ti restT IH]; intros last outY; simpl; [reflexivity |].
  destruct (leb minDistance (ti - last)) eqn:Hkeep.
  - specialize (IH ti (tl outY)).
    destruct (sweepFrom undef minDistance ti restT (tl outY)) as [newT newY]; simpl in *.
    now rewrite Hkeep, IH.
  - apply IH.
Qed.

Lemma sweepFrom_length_le (outT : list F) :
  forall last outY, (length (fst (sweepFrom undef minDistance last outT outY)) <= length outT)%nat.
Proof.
  induction outT as [| ti restT IH]; intros last outY; simpl; [lia |].
  destruct (leb minDistance (ti - last)).
  - specialize (IH ti (tl outY)).
    destruct (sweepFrom undef minDistance ti restT (tl outY)) as [newT newY]; simpl in *. lia.
  - specialize (IH last (tl outY)). lia.
Qed.

(** A sweep that drops nothing has met a separated array... *)
Lemma sweepFrom_full (outT : list F) :
  forall last outY,
    length (fst (sweepFrom undef minDistance last outT outY)) = length outT ->
    separatedFrom minDistance last outT = true.
Proof.
  induction outT as [| ti restT IH]; intros last outY Hlen; simpl in *; [reflexivity |].
  destruct (leb minDistance (ti - last)) eqn:Hkeep.
  - specialize (IH ti (tl outY)).
    destruct (sweepFrom undef minDistance ti restT (tl outY)) as [newT newY]; simpl in *.
    apply IH. lia.
  - pose proof (sweepFrom_length_le restT last (tl outY)). lia.
Qed.

(** ... and a separated array goes through a sweep unchanged. *)
Lemma sweepFrom_fixed (outT : list F) :
  forall last outY,
    separatedFrom minDistance last outT = true ->
    fst (sweepFrom undef minDistance last outT outY) = outT.
Proof.
  induction outT as [| ti restT IH]; intros last outY Hsep; simpl in *; [reflexivity |].
  apply andb_true_iff in Hsep as [Hkeep Hsep]. rewrite Hkeep.
  specialize (IH ti (tl outY) Hsep).
  destruct (sweepFrom undef minDistance ti restT (tl outY)) as [newT newY]; simpl in *.
  now rewrite IH.
Qed.

Lemma sweep_separated (outT : list F) (outY : list V) :
  outT <> [] -> separated minDistance (fst (sweep undef minDistance outT outY)) = true.
Proof.
  destruct outT as [| t0 restT]; [congruence | intros _]. simpl.
  pose proof (sweepFrom_separated restT t0 (tl outY)) as H.
  destruct (sweepFrom undef minDistance t0 restT (tl outY)); exact H.
Qed.

Lemma sweep_full (outT : list F) (outY : list V) :
  outT <> [] ->
  length (fst (sweep undef minDistance outT outY)) = length outT ->
  separated minDistance outT = true.
Proof.
  destruct outT as [| t0 restT]; [congruence | intros _]. simpl.
  pose proof (sweepFrom_full restT t0 (tl outY)) as H.
  destruct (sweepFrom undef minDistance t0 restT (tl outY)); simpl in *. intros Hlen. apply H. lia.
Qed.

Lemma sweep_fixed (outT : list F) (outY : list V) :
  separated minDistance outT = true -> outT <> [] -> fst (sweep undef minDistance outT outY) = outT.
Proof.
  destruct outT as [| t0 restT]; [congruence | intros Hsep _]. simpl in *.
  pose proof (sweepFrom_fixed restT t0 (tl outY) Hsep) as H.
  destruct (sweepFrom undef minDistance t0 restT (tl outY)); simpl in *. now rewrite H.
Qed.

Lemma sweep_nonempty (outT : list F) (outY : list V) :
  fst (sweep undef minDistance outT outY) <> [].
Proof.
  destruct outT as [| t0 restT]; simpl; [discriminate |].
  destruct (sweepFrom undef minDistance t0 restT (tl outY)); discriminate.
Qed.

(** On a separated array the loop stops at its first pass. *)
Lemma passes_fixed (k : nat) (outT : list F) (outY : list V) :
  separated minDistance outT = true -> outT <> [] ->
  passes undef minDistance k outT outY = (outT, outY).
Proof.
  intros Hsep Hne. destruct k as [| k]; simpl; [reflexivity |].
  pose proof (sweep_fixed outY Hsep Hne) as Hfix.
  destruct (sweep undef minDistance outT outY) as [newT newY]; simpl in Hfix; subst newT.
  now rewrite Nat.eqb_refl.
Qed.

(** Two passes are always enough: the first does all the dropping, the
    second finds nothing to drop. *)
Lemma passes_two (k : nat) (outT : list F) (outY : list V) :
  outT <> [] ->
  passes undef minDistance (S (S k)) outT outY =
    if (length (fst (sweep undef minDistance outT outY)) =? length outT)%nat then (outT, outY)
    else sweep undef minDistance outT outY.
Proof.
  intros Hne. cbn [passes].
  pose proof (sweep_separated outY Hne) as Hsep.
  pose proof (sweep_nonempty outT outY) as Hne'.
  destruct (sweep undef minDistance outT outY) as [newT newY]; simpl in *.
  destruct (length newT =? length outT)%nat; [reflexivity |].
  pose proof (sweep_fixed newY Hsep Hne') as Hfix.
  destruct (sweep undef minDistance newT newY) as [newT2 newY2]; simpl in Hfix; subst newT2.
  now rewrite Nat.eqb_refl.
Qed.

Lemma passes_separated (k : nat) (outT : list F) (outY : list V) :
  outT <> [] -> separated minDistance (fst (passes undef minDistance (S (S k)) outT outY)) = true.
Proof.
  intros Hne. rewrite passes_two by exact Hne.
  destruct (Nat.eqb_spec (length (fst (sweep undef minDistance outT outY)))
                         (length outT)) as [Heq | _].
  - simpl. now apply sweep_full with (outY := outY).
  - now apply sweep_separated.
Qed.

Lemma passes_nonempty (k : nat) (outT : list F) (outY : list V) :
  outT <> [] -> fst (passes undef minDistance (S (S k)) outT outY) <> [].
Proof.
  intros Hne. rewrite passes_two by exact Hne.
  destruct (_ =? _)%nat; [exact Hne | apply sweep_nonempty].
Qed.

End Dedup.

(** C7.  The output of [filterClosePoints] is separated (every kept point
    is at least the minimum distance after the kept point before it), the
    function applied to its own output returns it unchanged, and the loop
    never needs its cap of 10 passes: any cap of at least 2 gives the
    same result, and a further pass over the result drops nothing. *)
Theorem filterClosePoints_idempotent {F : Type} {AF : Arith F} {V : Type}
        (undef : V) (minDistance : F) (t0 : list F) (y0 : list V) :
  separated minDistance (fst (filterClosePoints undef minDistance t0 y0)) = true
  /\ filterClosePoints undef minDistance
       (fst (filterClosePoints undef minDistance t0 y0))
       (snd (filterClosePoints undef minDistance t0 y0))
     = filterClosePoints undef minDistance t0 y0
  /\ (forall k, (2 <= k)%nat ->
        (if (length t0 <=? 1)%nat then (t0, y0) else passes undef minDistance k t0 y0)
        = filterClosePoints undef minDistance t0 y0)
  /\ (t0 <> [] ->
      fst (sweep undef minDistance
             (fst (filterClosePoints undef minDistance t0 y0))
             (snd (filterClosePoints undef minDistance t0 y0)))
      = fst (filterClosePoints undef minDistance t0 y0)).
Proof.
  unfold filterClosePoints.
  destruct (Nat.leb_spec (length t0) 1) as [Hshort | Hlong].
  - simpl. rewrite (proj2 (Nat.leb_le _ _) Hshort).
    repeat split; auto.
    + destruct t0 as [| a [| b t0']]; simpl in *; auto; lia.
    + intros Hne. destruct t0 as [| a [| b t0']]; simpl in *; try lia; congruence.
  - assert (Hne : t0 <> []) by (destruct t0; simpl in *; [lia | discriminate]).
    pose proof (passes_separated undef minDistance 8 y0 Hne) as Hsep.
    pose proof (passes_nonempty undef minDistance 8 y0 Hne) as Hne'.
    repeat split.
    + exact Hsep.
    + destruct (passes undef minDistance 10 t0 y0) as [T Y]; cbn [fst snd] in *.
      destruct (length T <=? 1)%nat; [reflexivity |].
      now apply passes_fixed.
    + intros k Hk. destruct k as [| [| k]]; try lia.
      now rewrite !passes_two.
    + intros _. destruct (passes undef minDistance 10 t0 y0) as [T Y]; cbn [fst snd] in *.
      now apply sweep_fixed.
Qed.

(** Six roots in doubles, 0.1 apart at least after the filter: a cap of
    two passes gives the same three roots, and one more pass keeps them. *)
Lemma filterClosePoints_idempotent_witness :
  passes (F:=float) 0%nat 0.1%float 2
         [0; 0.05; 0.12; 0.15; 0.3; 0.31]%float [1; 2; 3; 4; 5; 6]%nat
  = ([0; 0.12; 0.3]%float, [1; 3; 5]%nat)
  /\ fst (sweep (F:=float) 0%nat 0.1%float [0; 0.12; 0.3]%float [1; 3; 5]%nat)
     = [0; 0.12; 0.3]%float.
Proof.
  destruct (filterClosePoints_idempotent (F:=float) 0%nat 0.1%float
              [0; 0.05; 0.12; 0.15; 0.3; 0.31]%float [1; 2; 3; 4; 5; 6]%nat)
    as [_ [_ [Hcap Hpass]]].
  split.
  - exact (Hcap 2%nat (le_n 2)).
  - apply Hpass. discriminate.
Defined.

(* ================================================================== *)
(** ** The rows of the trace *)

Lemma rowsInRange_past (skipStart skipEnd : Q) (rows : list string) :
  forall count, Qle_bool (inject_Z count) skipEnd = false ->
                rowsInRange skipStart skipEnd count rows = [].
Proof.
  induction rows as [| row rest IH]; intros count Hpast; simpl; [reflexivity |].
  assert (Hnext : Qle_bool (inject_Z (count + 1)) skipEnd = false).
  { destruct (Qle_bool (inject_Z (count + 1)) skipEnd) eqn:Hle; [| reflexivity].
    apply Qle_bool_iff in Hle.
    assert (Hc : (inject_Z count <= skipEnd)%Q).
    { eapply Qle_trans; [| exact Hle]. rewrite <- Zle_Qle. lia. }
    apply Qle_bool_iff in Hc. congruence. }
  rewrite Hnext, andb_false_r. now apply IH.
Qed.

(** Stopping at the first row past [skipEnd] loses no row in range. *)
Lemma retainedFrom_rowsInRange (skipStart skipEnd : Q) (rows : list string) :
  forall count, retainedFrom skipStart skipEnd count rows
                = rowsInRange skipStart skipEnd count rows.
Proof.
  induction rows as [| row rest IH]; intros count; simpl; [reflexivity |].
  destruct (Qle_bool skipStart (inject_Z (count + 1))); simpl; [| apply IH].
  destruct (Qle_bool (inject_Z (count + 1)) skipEnd) eqn:Hend; simpl.
  - now rewrite IH.
  - symmetry. now apply rowsInRange_past.
Qed.

Section Rows.

Context {F : Type} {AF : Arith F}.
Local Open Scope js_scope.

Lemma parseRow_spec (line : string) :
  parseRow line =
    if acceptedRow line then Some (rowTime line, rowStrain line, rowInterf line)
    else None.
Proof.
  unfold parseRow, acceptedRow, rowTime, rowStrain, rowInterf, field.
  destruct (5 <=? length (splitOn "," line))%nat; reflexivity.
Qed.

Lemma pushRows_nil (acc : Trace) : pushRows acc [] = acc.
Proof. destruct acc; unfold pushRows; simpl. now rewrite !app_nil_r. Qed.

Lemma pushRows_cons (acc : Trace) (row : string) (rows : list string) :
  pushRows acc (row :: rows)
  = pushRows {| tr_t := tr_t acc ++ [rowTime row];
                tr_tenz := tr_tenz acc ++ [rowStrain row];
                tr_interf := tr_interf acc ++ [rowInterf row] |} rows.
Proof. unfold pushRows; simpl. now rewrite <- !app_assoc. Qed.

(** The loop of [parseCSV] adds to its arrays the accepted ones among the
    retained data rows, in order. *)
Lemma readLines_spec (skipStart skipEnd : Q) (lines : list string) :
  forall dataStarted lineCount acc,
    readLines skipStart skipEnd lines dataStarted lineCount acc
    = pushRows acc (filter acceptedRow
                      (retainedFrom skipStart skipEnd lineCount
                         (dataRows lines dataStarted))).
Proof.
  induction lines as [| raw rest IH]; intros dataStarted lineCount acc.
  - simpl. now rewrite pushRows_nil.
  - cbn [readLines dataRows].
    destruct (String.eqb (trim raw) EmptyString); [apply IH |].
    destruct (startsWith "TIME,CH1," (trim raw)); [apply IH |].
    destruct dataStarted; cbn [negb]; [| apply IH].
    cbn [retainedFrom].
    destruct (Qle_bool skipStart (inject_Z (lineCount + 1))); cbn [negb]; [| apply IH].
    destruct (Qle_bool (inject_Z (lineCount + 1)) skipEnd); cbn [negb].
    + rewrite parseRow_spec. cbn [filter].
      destruct (acceptedRow (trim raw)).
      * rewrite IH, pushRows_cons. reflexivity.
      * apply IH.
    + simpl. now rewrite pushRows_nil.
Qed.

End Rows.

(** C4.  For every text and configuration, the trace consists of the
    retained data rows that have at least 5 fields and whose fields 0, 1
    and 3 give a number other than NaN under [parseFloat] (an infinite
    value passes the test); such a row contributes its time as parsed,
    its strain times 0.00132 times 1.25 and its interferometer value plus
    0.04; any other row is skipped. *)
Theorem parseTrace_rows {F : Type} {AF : Arith F} (csvText : string) (options : Options) :
  let rows := retainedFrom (orDefault (skipStart options) 6650)
                           (orDefault (skipEnd options) 27000) 0
                           (dataRowsOf csvText) in
  parseTrace csvText options
  = {| tr_t := map rowTime (filter acceptedRow rows);
       tr_tenz := map rowStrain (filter acceptedRow rows);
       tr_interf := map rowInterf (filter acceptedRow rows) |}
  /\ (forall line,
        parseRow line
        = if ((5 <=? length (splitOn "," line))%nat
              && negb (isNaN (parseFloat (field 0 line)))
              && negb (isNaN (parseFloat (field 1 line)))
              && negb (isNaN (parseFloat (field 3 line))))%bool
          then Some (parseFloat (field 0 line),
                     mul (mul (parseFloat (field 1 line)) (lit (132 # 100000)))
                         (lit (125 # 100)),
                     add (parseFloat (field 3 line)) (lit (4 # 100)))
          else None).
Proof.
  split.
  - unfold parseTrace. rewrite readLines_spec. reflexivity.
  - intros line. apply parseRow_spec.
Qed.

(** A row whose time field reads [Infinity] is accepted, although the
    field does not parse as a finite number. *)
Lemma infinite_row_accepted :
  acceptedRow (F:=float) "Infinity,1,2,3,4" = true
  /\ PrimFloat.is_finite (parseFloat (field 0 "Infinity,1,2,3,4")) = false
  /\ tr_t (parseTrace (F:=float)
             ("TIME,CH1,CH2,CH3,CH4" ++ newline ++ "Infinity,1,2,3,4")
             {| sgWindow := None; sgPoly := None; baselineN := None;
                skipStart := Some 1%Q; skipEnd := None;
                derivativeWindowNs := None |})
     = [PrimFloat.infinity].
Proof. repeat split; vm_compute; reflexivity. Qed.

(** The bounds at work when both are configured and neither is 0: the
    retained rows are exactly those whose count lies between them. *)
Lemma parseTrace_bounds {F : Type} {AF : Arith F} (csvText : string) (options : Options)
      (s e : Q) :
  skipStart options = Some s -> Qeq_bool s 0 = false ->
  skipEnd options = Some e -> Qeq_bool e 0 = false ->
  parseTrace csvText options
  = pushRows emptyTrace (filter acceptedRow (rowsInRange s e 0 (dataRowsOf csvText))).
Proof.
  intros Hs Hs0 He He0. unfold parseTrace. rewrite readLines_spec.
  unfold orDefault. rewrite Hs, He, Hs0, He0.
  now rewrite retainedFrom_rowsInRange.
Qed.

(** C5.  A configured [startLineIndex] of 0 is not used: [0 || 6650] is
    6650, so the rows counted 1 to 6649 are discarded all the same. *)
Theorem zero_start_discards_rows {F : Type} {AF : Arith F}
        (csvText : string) (options : Options) :
  skipStart options = Some 0%Q ->
  parseTrace csvText options
  = pushRows emptyTrace
      (filter acceptedRow
         (rowsInRange 6650 (orDefault (skipEnd options) 27000) 0 (dataRowsOf csvText))).
Proof.
  intros Hs. unfold parseTrace. rewrite readLines_spec.
  unfold orDefault at 1. rewrite Hs. change (Qeq_bool 0 0) with true. cbv iota.
  now rewrite retainedFrom_rowsInRange.
Qed.

(** [threeRows] read with [startLineIndex] 0 and [endLineIndex] 10000:
    the trace is empty, where the same text read from row 1 gives its
    three samples. *)
Lemma zero_start_discards_rows_witness :
  parseTrace (F:=float) threeRows (boundsOptions 0 10000) = emptyTrace
  /\ tr_t (parseTrace (F:=float) threeRows (boundsOptions 1 10000))
     = map Double.ofZ [0; 1; 2]%Z.
Proof.
  split.
  - rewrite (zero_start_discards_rows (F:=float) threeRows (boundsOptions 0 10000) eq_refl).
    vm_compute. reflexivity.
  - vm_compute. reflexivity.
Defined.

(* ================================================================== *)
(** ** Doubles: a difference across zero is not zero *)

(** The specification of binary64 arithmetic ([SpecFloat]) rounds a
    positive mantissa at an exponent of at least [emin] to a positive
    mantissa: gradual underflow never loses a non-zero sum. *)

Lemma shr_1_mantissa (mrs : shr_record) :
  (0 <= shr_m mrs)%Z -> shr_m (shr_1 mrs) = (shr_m mrs / 2)%Z.
Proof.
  destruct mrs as [m r s]; simpl. intros Hm.
  destruct m as [| [p | p |] | p]; simpl; try reflexivity; try lia.
  - rewrite Pos2Z.inj_xI. apply Z.div_unique with (r := 1%Z); lia.
  - rewrite Pos2Z.inj_xO. apply Z.div_unique with (r := 0%Z); lia.
Qed.

Lemma iter_shr_mantissa (p : positive) :
  forall mrs, (0 <= shr_m mrs)%Z ->
              shr_m (iter_pos shr_1 p mrs) = (shr_m mrs / 2 ^ Zpos p)%Z.
Proof.
  induction p as [p IH | p IH |]; intros mrs Hm; simpl iter_pos.
  - assert (H1 : (0 <= shr_m (shr_1 mrs))%Z).
    { rewrite shr_1_mantissa by exact Hm. apply Z.div_pos; lia. }
    assert (H2 : (0 <= shr_m (iter_pos shr_1 p (shr_1 mrs)))%Z).
    { rewrite IH by exact H1. apply Z.div_pos; [exact H1 | lia]. }
    rewrite IH by exact H2. rewrite IH by exact H1.
    rewrite shr_1_mantissa by exact Hm.
    rewrite !Z.div_div by lia. f_equal.
    rewrite <- Z.pow_add_r by lia. change 2%Z with (2 ^ 1)%Z at 1.
    rewrite <- Z.pow_add_r by lia. f_equal. lia.
  - assert (H2 : (0 <= shr_m (iter_pos shr_1 p mrs))%Z).
    { rewrite IH by exact Hm. apply Z.div_pos; [exact Hm | lia]. }
    rewrite IH by exact H2. rewrite IH by exact Hm.
    rewrite Z.div_div by lia. f_equal.
    rewrite <- Z.pow_add_r by lia. f_equal. lia.
  - rewrite shr_1_mantissa by exact Hm. reflexivity.
Qed.

Lemma digits2_pos_bounds (m : positive) :
  (2 ^ (Zpos (digits2_pos m) - 1) <= Zpos m)%Z.
Proof.
  induction m as [m IH | m IH |]; simpl digits2_pos.
  - rewrite Pos2Z.inj_succ, Pos2Z.inj_xI.
    replace (Z.succ (Z.pos (digits2_pos m)) - 1)%Z
      with (Z.succ (Z.pos (digits2_pos m) - 1)) by lia.
    rewrite Z.pow_succ_r by lia. lia.
  - rewrite Pos2Z.inj_succ. change (Z.pos m~0) with (2 * Z.pos m)%Z.
    replace (Z.succ (Z.pos (digits2_pos m)) - 1)%Z
      with (Z.succ (Z.pos (digits2_pos m) - 1)) by lia.
    rewrite Z.pow_succ_r by lia. lia.
  - simpl. lia.
Qed.

Lemma shr_record_of_loc_mantissa (m : Z) (l : location) :
  shr_m (shr_record_of_loc m l) = m.
Proof. destruct l as [| []]; reflexivity. Qed.

Lemma shr_fexp_positive (m : positive) (e : Z) (l : location) :
  (SpecFloat.emin prec emax <= e)%Z ->
  (0 < shr_m (fst (shr_fexp prec emax (Zpos m) e l)))%Z
  /\ (SpecFloat.emin prec emax <= snd (shr_fexp prec emax (Zpos m) e l))%Z.
Proof.
  intros He. unfold shr_fexp, shr.
  destruct (fexp prec emax (Zdigits2 (Z.pos m) + e) - e)%Z as [| p | p] eqn:Hn;
    cbn [fst snd]; try (rewrite shr_record_of_loc_mantissa; lia).
  rewrite iter_shr_mantissa by (rewrite shr_record_of_loc_mantissa; lia).
  rewrite shr_record_of_loc_mantissa. split; [| lia].
  apply Z.div_str_pos. split; [lia |].
  pose proof (digits2_pos_bounds m) as Hd.
  unfold fexp, Zdigits2 in Hn. unfold prec in *.
  eapply Z.le_trans; [| exact Hd].
  apply Z.pow_le_mono_r; lia.
Qed.

Lemma round_nearest_even_positive (m : Z) (l : location) :
  (0 < m)%Z -> (0 < round_nearest_even m l)%Z.
Proof.
  intros Hm. destruct l as [| []]; simpl; try lia.
  destruct (Z.even m); lia.
Qed.

Lemma binary_round_aux_nonzero (s : bool) (m : positive) (e : Z) (l : location) :
  (SpecFloat.emin prec emax <= e)%Z ->
  SFnonzero (binary_round_aux prec emax s (Zpos m) e l) = true.
Proof.
  intros He. unfold binary_round_aux.
  destruct (shr_fexp_positive m l He) as [Hm1 He1].
  destruct (shr_fexp prec emax (Z.pos m) e l) as [mrs1 e1]; cbn [fst snd] in *.
  pose proof (round_nearest_even_positive (loc_of_shr_record mrs1) Hm1) as Hm2.
  destruct (round_nearest_even (shr_m mrs1) (loc_of_shr_record mrs1)) as [| m2 | m2];
    try lia.
  destruct (shr_fexp_positive m2 loc_Exact He1) as [Hm3 _].
  destruct (shr_fexp prec emax (Z.pos m2) e1 loc_Exact) as [mrs2 e2]; cbn [fst snd] in *.
  destruct (shr_m mrs2) as [| m3 | m3]; try lia.
  destruct (Z.leb e2 (emax - prec)); reflexivity.
Qed.

Lemma binary_round_nonzero (s : bool) (m : positive) (e : Z) :
  (SpecFloat.emin prec emax <= e)%Z -> SFnonzero (binary_round prec emax s m e) = true.
Proof.
  intros He. unfold binary_round, shl_align.
  destruct (fexp prec emax (Z.pos (digits2_pos m) + e) - e)%Z as [| d | d] eqn:Hd;
    try (now apply binary_round_aux_nonzero).
  apply binary_round_aux_nonzero. unfold fexp. lia.
Qed.

(** The exponent of a finite double is at least [emin]. *)
Lemma valid_exponent (s : bool) (m : positive) (e : Z) :
  valid_binary (S754_finite s m e) = true -> (SpecFloat.emin prec emax <= e)%Z.
Proof.
  unfold SpecFloat.valid_binary, bounded, canonical_mantissa, fexp.
  intros H. apply andb_true_iff in H as [H _]. apply Z.eqb_eq in H. lia.
Qed.

(** A finite double minus a finite double of the opposite sign. *)
Lemma SFsub_opposite_nonzero (s : bool) (mx my : positive) (ex ey : Z) :
  (SpecFloat.emin prec emax <= ex)%Z -> (SpecFloat.emin prec emax <= ey)%Z ->
  SFnonzero (SF64sub (S754_finite s mx ex) (S754_finite (negb s) my ey)) = true.
Proof.
  intros Hx Hy. unfold SF64sub, SFsub.
  assert (He : (SpecFloat.emin prec emax <= Z.min ex ey)%Z) by lia.
  set (a := fst (shl_align mx ex (Z.min ex ey))).
  set (b := fst (shl_align my ey (Z.min ex ey))).
  destruct s; simpl cond_Zopp.
  - change (Z.neg a - Z.pos b)%Z with (Z.neg (a + b)).
    now apply binary_round_nonzero.
  - change (Z.pos a - Z.neg b)%Z with (Z.pos (a + b)).
    now apply binary_round_nonzero.
Qed.

(** [diffCurr > 0] and [diffPrev <= 0] make [diffCurr - diffPrev]
    different from 0 ... *)
Lemma double_sub_pos_nonpos (x y : float) :
  PrimFloat.ltb PrimFloat.zero x = true -> PrimFloat.leb y PrimFloat.zero = true ->
  PrimFloat.eqb (PrimFloat.sub x y) PrimFloat.zero = false.
Proof.
  rewrite FloatAxioms.ltb_spec, FloatAxioms.leb_spec, FloatAxioms.eqb_spec, FloatAxioms.sub_spec.
  pose proof (Prim2SF_valid x) as Vx. pose proof (Prim2SF_valid y) as Vy.
  change (Prim2SF PrimFloat.zero) with (S754_zero false).
  destruct (Prim2SF x) as [sx | sx | | sx mx ex]; try discriminate;
    destruct (Prim2SF y) as [sy | sy | | sy my ey]; try discriminate;
    try (destruct sx; try discriminate); try (destruct sy; try discriminate);
    try reflexivity; intros _ _.
  pose proof (@SFsub_opposite_nonzero false mx my ex ey
                (@valid_exponent _ _ _ Vx) (@valid_exponent _ _ _ Vy)) as H.
  cbn [negb] in H.
  destruct (SF64sub (S754_finite false mx ex) (S754_finite true my ey)) as [| [] | | []];
    try discriminate; reflexivity.
Qed.

(** ... and so do [diffCurr < 0] and [diffPrev >= 0]. *)
Lemma double_sub_neg_nonneg (x y : float) :
  PrimFloat.ltb x PrimFloat.zero = true -> PrimFloat.leb PrimFloat.zero y = true ->
  PrimFloat.eqb (PrimFloat.sub x y) PrimFloat.zero = false.
Proof.
  rewrite FloatAxioms.ltb_spec, FloatAxioms.leb_spec, FloatAxioms.eqb_spec, FloatAxioms.sub_spec.
  pose proof (Prim2SF_valid x) as Vx. pose proof (Prim2SF_valid y) as Vy.
  change (Prim2SF PrimFloat.zero) with (S754_zero false).
  destruct (Prim2SF x) as [sx | sx | | sx mx ex]; try discriminate;
    destruct (Prim2SF y) as [sy | sy | | sy my ey]; try discriminate;
    try (destruct sx; try discriminate); try (destruct sy; try discriminate);
    try reflexivity; intros _ _.
  pose proof (@SFsub_opposite_nonzero true mx my ex ey
                (@valid_exponent _ _ _ Vx) (@valid_exponent _ _ _ Vy)) as H.
  cbn [negb] in H.
  destruct (SF64sub (S754_finite true mx ex) (S754_finite false my ey)) as [| [] | | []];
    try discriminate; reflexivity.
Qed.

(* ================================================================== *)
(** ** Intersections of the two signals *)

Section Crossings.

Context {F : Type} {AF : Arith F}.
Local Open Scope js_scope.

Variables t tenz interf : list F.

Lemma intersectionAt_spec (yThreshold : F) (i : nat) :
  intersectionAt t tenz interf yThreshold i =
    if (signChange tenz interf i
        && (abs (crossingValue tenz interf i) <=? yThreshold))%bool
    then Some (crossingPoint t tenz interf i) else None.
Proof.
  unfold intersectionAt, signChange, crossingPoint, crossingValue, interpolate,
    crossingRatio, diffAt.
  destruct (_ || _)%bool; reflexivity.
Qed.

Lemma flat_map_option {A B : Type} (f : A -> option B) (p : A -> bool) (g : A -> B)
      (l : list A) :
  (forall a, f a = if p a then Some (g a) else None) ->
  flat_map (fun a => match f a with Some b => [b] | None => [] end) l
  = map g (filter p l).
Proof.
  intros Hf. induction l as [| a l IH]; simpl; [reflexivity |].
  rewrite Hf, IH. destruct (p a); reflexivity.
Qed.

Lemma findSignalIntersectionsAtZero_spec (yThreshold : F) :
  findSignalIntersectionsAtZero t tenz interf yThreshold
  = map (crossingPoint t tenz interf)
        (filter (fun i => (signChange tenz interf i
                           && (abs (crossingValue tenz interf i) <=? yThreshold))%bool)
                (seq 1 (length t - 1))).
Proof.
  unfold findSignalIntersectionsAtZero.
  apply flat_map_option. intros i. apply intersectionAt_spec.
Qed.

End Crossings.

(** C6.  For any three arrays of doubles, the points reported are those
    of the adjacent index pairs, in order, at which the difference of the
    two series changes sign ([diffPrev <= 0] and [diffCurr > 0], or
    [diffPrev >= 0] and [diffCurr < 0]) and the amplitude has magnitude at
    most the threshold; each point carries the interpolated time and the
    amplitude; and at a sign change the divisor [diffCurr - diffPrev] is
    never 0. *)
Theorem intersections_at_sign_changes (t tenz interf : list float) (yThreshold : float) :
  findSignalIntersectionsAtZero t tenz interf yThreshold
  = map (crossingPoint t tenz interf)
        (filter (fun i => (signChange tenz interf i
                           && leb (abs (crossingValue tenz interf i)) yThreshold)%bool)
                (seq 1 (length t - 1)))
  /\ (forall i, signChange tenz interf i = true ->
                eqb (sub (diffAt tenz interf i) (diffAt tenz interf (i - 1))) zero = false).
Proof.
  split; [apply findSignalIntersectionsAtZero_spec |].
  intros i Hs. unfold signChange in Hs.
  apply orb_true_iff in Hs as [Hs | Hs]; apply andb_true_iff in Hs as [Hprev Hcurr].
  - now apply double_sub_pos_nonpos.
  - now apply double_sub_neg_nonneg.
Qed.

(** Two series that cross between their two samples: the difference goes
    from -1 to 1, and the divisor is 2. *)
Lemma intersections_at_sign_changes_witness :
  signChange (F:=float) [0; 1]%float [1; 0]%float 1 = true
  /\ eqb (sub (diffAt (F:=float) [0; 1]%float [1; 0]%float 1)
              (diffAt (F:=float) [0; 1]%float [1; 0]%float 0)) zero = false.
Proof.
  split; [reflexivity |].
  apply (proj2 (intersections_at_sign_changes [0; 1]%float [0; 1]%float [1; 0]%float
                  0.02%float) 1%nat).
  reflexivity.
Defined.

(* ================================================================== *)
(** ** The smoothing filter as a sliding dot product *)

Section Sliding.

Context {F : Type} {AF : Arith F}.
Local Open Scope js_scope.

Lemma fold_left_dotFrom {A : Type} (f g : A -> F) (l : list A) :
  forall acc, fold_left (fun acc j => acc + f j * g j) l acc
              = dotFrom acc (map f l) (map g l).
Proof.
  induction l as [| a l IH]; intros acc; simpl; [reflexivity | apply IH].
Qed.

Lemma dotFrom_firstn (cs : list F) :
  forall acc xs, dotFrom acc (firstn (length cs) xs) cs = dotFrom acc xs cs.
Proof.
  induction cs as [| c cs IH]; intros acc xs; simpl.
  - now destruct xs.
  - destruct xs as [| x xs]; simpl; [reflexivity | apply IH].
Qed.

Lemma map_nth_seq {A : Type} (l : list A) (d : A) :
  map (fun k => nth k l d) (seq 0 (length l)) = l.
Proof.
  induction l as [| a l IH]; simpl; [reflexivity |].
  rewrite <- seq_shift, map_map. simpl. now rewrite IH.
Qed.

Lemma coeffs_by_offset (coeffs : list F) (half : Z) :
  (0 <= half)%Z -> length coeffs = Z.to_nat (2 * half + 1) ->
  map (fun j => nth (Z.to_nat (j + half)) coeffs NaN) (zrange (- half) half) = coeffs.
Proof.
  intros Hh Hlen. unfold zrange. rewrite map_map.
  replace (Z.to_nat (half - - half + 1)) with (length coeffs) by lia.
  transitivity (map (fun k => nth k coeffs NaN) (seq 0 (length coeffs)));
    [| apply map_nth_seq].
  apply map_ext. intros k. f_equal. lia.
Qed.

Lemma padded_nth (h : nat) (data : list F) (k : nat) :
  data <> [] -> (k < length data + 2 * h)%nat ->
  nth k (padded h data) NaN
  = nth (Z.to_nat (Z.max 0 (Z.min (Z.of_nat (length data) - 1)
                                  (Z.of_nat k - Z.of_nat h)))) data NaN.
Proof.
  intros Hne Hk. unfold padded.
  assert (Hn : (0 < length data)%nat) by (destruct data; simpl; [congruence | lia]).
  destruct (Nat.lt_ge_cases k h) as [Hlo | Hhi].
  - rewrite app_nth1 by (rewrite repeat_length; exact Hlo).
    rewrite nth_repeat_lt by exact Hlo. f_equal. lia.
  - rewrite app_nth2 by (rewrite repeat_length; exact Hhi). rewrite repeat_length.
    destruct (Nat.lt_ge_cases (k - h) (length data)) as [Hin | Hout].
    + rewrite app_nth1 by exact Hin. f_equal. lia.
    + rewrite app_nth2 by exact Hout.
      rewrite nth_repeat_lt by lia. f_equal. lia.
Qed.

Lemma window_by_offset (n : nat) (data : list F) (half : Z) (i : nat) :
  data <> [] -> n = length data -> (0 <= half)%Z -> (i < n)%nat ->
  map (fun j => nth (clampIndex n i j) data NaN) (zrange (- half) half)
  = firstn (Z.to_nat (2 * half + 1)) (skipn i (padded (Z.to_nat half) data)).
Proof.
  intros Hne Hn Hh Hi.
  assert (Hpl : length (padded (Z.to_nat half) data) = (n + 2 * Z.to_nat half)%nat).
  { unfold padded. rewrite !length_app, !repeat_length. lia. }
  apply nth_ext with (d := NaN) (d' := NaN).
  - rewrite length_map, zrange_length, length_firstn, length_skipn, Hpl. lia.
  - intros k Hk. rewrite length_map, zrange_length in Hk.
    rewrite nth_firstn.
    destruct (Nat.ltb_spec k (Z.to_nat (2 * half + 1))) as [_ | Hge]; [| lia].
    rewrite nth_skipn.
    rewrite nth_indep with (d' := nth (clampIndex n i (- half)) data NaN)
      by (rewrite length_map, zrange_length; exact Hk).
    rewrite (map_nth (fun j => nth (clampIndex n i j) data NaN)).
    rewrite zrange_nth by exact Hk.
    rewrite padded_nth by (try exact Hne; lia).
    f_equal. unfold clampIndex. subst n.
    destruct (Z.ltb_spec (Z.of_nat i + (- half + Z.of_nat k)) 0);
      destruct (Z.geb_spec (Z.of_nat i + (- half + Z.of_nat k)) (Z.of_nat (length data)));
      try destruct (Z.geb_spec 0 (Z.of_nat (length data))); lia.
Qed.

Lemma slideDot_spec (cs : list F) (k : nat) :
  forall l, map (fun i => dotFrom zero (skipn i l) cs) (seq 0 k) = slideDot k l cs.
Proof.
  induction k as [| k IH]; intros l; [reflexivity |].
  cbn [seq slideDot map]. f_equal.
  rewrite <- seq_shift, map_map. rewrite <- IH.
  apply map_ext. intros i. now destruct l; [destruct i |].
Qed.

(** The outputs of the filter are the dot products of the coefficients
    with the successive windows of the padded input. *)
Lemma convolve_sliding (data coeffs : list F) (half : Z) :
  data <> [] -> (0 <= half)%Z -> length coeffs = Z.to_nat (2 * half + 1) ->
  map (convolveAt (length data) data coeffs half) (seq 0 (length data))
  = slideDot (length data) (padded (Z.to_nat half) data) coeffs.
Proof.
  intros Hne Hh Hlen. rewrite <- slideDot_spec.
  apply map_ext_in. intros i Hi. apply in_seq in Hi.
  unfold convolveAt. rewrite fold_left_dotFrom.
  rewrite coeffs_by_offset by assumption.
  rewrite window_by_offset by (auto; lia).
  rewrite <- Hlen. apply dotFrom_firstn.
Qed.

End Sliding.

(* ================================================================== *)
(** ** The jump detector on a synthetic step *)

Lemma rampSignal_length (start len : nat) : length (rampSignal start len) = 10000%nat.
Proof. unfold rampSignal. now rewrite length_map, length_seq. Qed.

Lemma stepSignal_length : length stepSignal = 10000%nat.
Proof. apply rampSignal_length. Qed.

(** The smoothing of the detector as a sliding dot product. *)
Lemma jump_smoothed (signal : list float) :
  signal <> [] ->
  savitzkyGolay signal 11 2
  = Ok (slideDot (length signal) (padded 5 signal) jumpCoeffs).
Proof.
  intros Hne. rewrite savitzkyGolay_unfold by exact Hne.
  assert (HP : exists P, pseudoInverse (F:=float) (smoothHalf 11) (smoothOrder 11 2)
                         = Ok (Some (jumpCoeffs :: P)) /\ length jumpCoeffs = 11%nat).
  { eexists. split; vm_compute; reflexivity. }
  destruct HP as [P [HP Hlen]]. rewrite HP. cbn [bind nth_error].
  rewrite (@convolve_sliding float float_arith signal jumpCoeffs (smoothHalf 11) Hne);
    [| vm_compute; discriminate | exact Hlen].
  reflexivity.
Qed.


Lemma positive_window (span : float) :
  ltb zero (if ltb zero span then span else lit (1 # 1000000)) = true.
Proof.
  destruct (ltb zero span) eqn:Hs; [exact Hs | vm_compute; reflexivity].
Qed.

(** When the amplitude search on the smoothed signal [sm] finds index
    [i], the detector reports the time at [i], and as window a span of
    times when that is positive, 1e-6 otherwise. *)
Lemma findLargestJumpStart_found {F : Type} {AF : Arith F}
      (t signal sm : list F) (i : nat) :
  (3 <= length t)%nat -> length t = length signal ->
  savitzkyGolay signal 11 2 = Ok sm -> amplitudeStart sm = Some i ->
  exists span,
    findLargestJumpStart t signal
    = Ok (Some {| hint_time := nth i t NaN;
                  hint_window := if ltb zero span then span else lit (1 # 1000000) |}).
Proof.
  intros H3 Hlen Hsm Hi. unfold findLargestJumpStart.
  destruct (Nat.ltb_spec (length t) 3) as [Hlt | _]; [lia |].
  destruct (Nat.eqb_spec (length t) (length signal)) as [_ | Hne]; [| contradiction].
  cbn [negb orb]. rewrite Hsm. cbn [bind]. rewrite Hi.
  eexists. reflexivity.
Qed.

Lemma rampSignal_smoothed (start len : nat) :
  savitzkyGolay (rampSignal start len) 11 2
  = Ok (slideDot 10000 (padded 5 (rampSignal start len)) jumpCoeffs).
Proof.
  rewrite jump_smoothed, rampSignal_length; [reflexivity |].
  intros H. apply (f_equal (@length float)) in H. rewrite rampSignal_length in H.
  discriminate.
Qed.

Lemma stepSignal_smoothed :
  savitzkyGolay stepSignal 11 2
  = Ok (slideDot 10000 (padded 5 stepSignal) jumpCoeffs).
Proof. apply rampSignal_smoothed. Qed.

Lemma stepSignal_start :
  amplitudeStart (slideDot 10000 (padded 5 stepSignal) jumpCoeffs) = Some 5004%nat.
Proof. vm_compute. reflexivity. Qed.

(** What the detector returns on the step, for any array of times of the
    same length. *)
Lemma findLargestJumpStart_step (t : list float) :
  length t = 10000%nat ->
  findLargestJumpStart t stepSignal
  = Ok (Some {| hint_time := nth 5004 t NaN;
                hint_window :=
                  if ltb zero (sub (nth 5204 t NaN) (nth 4804 t NaN))
                  then sub (nth 5204 t NaN) (nth 4804 t NaN)
                  else lit (1 # 1000000) |}).
Proof.
  intros Ht. unfold findLargestJumpStart.
  rewrite Ht, stepSignal_length. cbn [Nat.ltb Nat.leb Nat.eqb negb orb].
  change (Nat.eqb 10000 10000) with true. cbn [negb orb].
  rewrite stepSignal_smoothed. cbn [bind].
  rewrite stepSignal_start.
  reflexivity.
Qed.

(** C8.  On the synthetic step, with any 10,000 sample times, the
    detector returns the time at index 5004 (the first sample at which
    the smoothed signal is at or below the baseline minus 15 % of the
    amplitude, four samples after index 5000) and a strictly positive
    window (the span from index 4804 to index 5204, or 1e-6). *)
Theorem jump_on_synthetic_step (t : list float) :
  length t = 10000%nat ->
  exists h,
    findLargestJumpStart t stepSignal = Ok (Some h)
    /\ hint_time h = nth 5004 t NaN
    /\ ltb zero (hint_window h) = true.
Proof.
  intros Ht. eexists. split; [apply findLargestJumpStart_step; exact Ht |].
  split; [reflexivity | apply positive_window].
Qed.

Lemma uniformTime_length : length uniformTime = 10000%nat.
Proof. unfold uniformTime. now rewrite length_map, length_seq. Qed.

Lemma jump_on_synthetic_step_witness :
  exists h,
    findLargestJumpStart uniformTime stepSignal = Ok (Some h)
    /\ hint_time h = nth 5004 uniformTime NaN
    /\ ltb zero (hint_window h) = true.
Proof. apply jump_on_synthetic_step. exact uniformTime_length. Defined.

(** With sample spacing 1 the detected time is 5004: its distance from
    the time at index 5000 is 4, not within one sample spacing. *)
Lemma jump_four_samples_late :
  exists h,
    findLargestJumpStart uniformTime stepSignal = Ok (Some h)
    /\ hint_time h = Double.ofZ 5004
    /\ leb (abs (sub (hint_time h) (nth 5000 uniformTime NaN)))
           (sub (nth 1 uniformTime NaN) (nth 0 uniformTime NaN)) = false.
Proof.
  eexists. split; [apply findLargestJumpStart_step; exact uniformTime_length |].
  split; vm_compute; reflexivity.
Qed.

(** The same holds wherever the ramp of 20 samples is put around sample
    5000: when it reaches -1/20 at index 5000 the detector reports index
    5003, when it is centred on index 5000 index 4994, and when it ends
    there index 4984. *)
Lemma jump_on_other_ramps (t : list float) :
  length t = 10000%nat ->
  Forall (fun '(start, i) =>
            exists h,
              findLargestJumpStart t (rampSignal start 20) = Ok (Some h)
              /\ hint_time h = nth i t NaN)
         [(4999, 5003); (4990, 4994); (4980, 4984)]%nat.
Proof.
  intros Ht.
  assert (Hlen : (3 <= length t)%nat) by (rewrite Ht; apply Nat.leb_le; reflexivity).
  assert (H1 : amplitudeStart (slideDot 10000 (padded 5 (rampSignal 4999 20)) jumpCoeffs)
               = Some 5003%nat) by (vm_compute; reflexivity).
  assert (H2 : amplitudeStart (slideDot 10000 (padded 5 (rampSignal 4990 20)) jumpCoeffs)
               = Some 4994%nat) by (vm_compute; reflexivity).
  assert (H3 : amplitudeStart (slideDot 10000 (padded 5 (rampSignal 4980 20)) jumpCoeffs)
               = Some 4984%nat) by (vm_compute; reflexivity).
  repeat apply Forall_cons; try apply Forall_nil.
  - destruct (@findLargestJumpStart_found float float_arith t (rampSignal 4999 20)
                (slideDot 10000 (padded 5 (rampSignal 4999 20)) jumpCoeffs) 5003
                Hlen (eq_trans Ht (eq_sym (rampSignal_length 4999 20)))
                (rampSignal_smoothed 4999 20) H1) as [span Hf].
    eexists. split; [exact Hf | reflexivity].
  - destruct (@findLargestJumpStart_found float float_arith t (rampSignal 4990 20)
                (slideDot 10000 (padded 5 (rampSignal 4990 20)) jumpCoeffs) 4994
                Hlen (eq_trans Ht (eq_sym (rampSignal_length 4990 20)))
                (rampSignal_smoothed 4990 20) H2) as [span Hf].
    eexists. split; [exact Hf | reflexivity].
  - destruct (@findLargestJumpStart_found float float_arith t (rampSignal 4980 20)
                (slideDot 10000 (padded 5 (rampSignal 4980 20)) jumpCoeffs) 4984
                Hlen (eq_trans Ht (eq_sym (rampSignal_length 4980 20)))
                (rampSignal_smoothed 4980 20) H3) as [span Hf].
    eexists. split; [exact Hf | reflexivity].
Qed.

(* ================================================================== *)
(** ** The filter on the sequence 1, 2, 3, 4, 5 *)

(** Two lists of canonical rationals with the same fractions are equal. *)
Lemma Qc_this_inj (x y : Qc) : this x = this y -> x = y.
Proof. intros H. apply Qc_is_canon. now rewrite H. Qed.

Lemma Qc_list_inj (l1 l2 : list Qc) : map this l1 = map this l2 -> l1 = l2.
Proof.
  revert l2; induction l1 as [| x l1 IH]; intros [| y l2] H; simpl in H;
    try discriminate; [reflexivity |].
  injection H as Hx Hl. f_equal; [now apply Qc_this_inj | now apply IH].
Qed.

Lemma Qc_option_inj (o1 o2 : option (list Qc)) :
  option_map (map this) o1 = option_map (map this) o2 -> o1 = o2.
Proof.
  destruct o1 as [l1 |], o2 as [l2 |]; simpl; intros H; try discriminate;
    [| reflexivity].
  injection H as H. f_equal. now apply Qc_list_inj.
Qed.

Lemma fractions_inj (r1 r2 : result (list Qc)) : fractions r1 = fractions r2 -> r1 = r2.
Proof.
  destruct r1 as [l1 | e1], r2 as [l2 | e2]; simpl; intros H;
    try discriminate; injection H as H; f_equal; [now apply Qc_list_inj | exact H].
Qed.

(** C2.  With window 5 and order 2 the filter leaves the middle sample of
    1, 2, 3, 4, 5 unchanged; the two outputs on either side, whose
    windows are filled by clamping, are 41/35, 67/35, 143/35 and 169/35
    (and their neighbours in doubles). *)
Theorem smoothing_one_to_five :
  savitzkyGolay (F:=float) (map Double.ofZ [1; 2; 3; 4; 5]%Z) 5 2
  = Ok [1.1714285714285717; 1.9142857142857146; 3;
        4.0857142857142863; 4.8285714285714292]%float
  /\ savitzkyGolay (F:=Qc) (map Exact.ofZ [1; 2; 3; 4; 5]%Z) 5 2
     = Ok (map Q2Qc [41 # 35; 67 # 35; 3 # 1; 143 # 35; 169 # 35]%Q).
Proof.
  split.
  - vm_compute. reflexivity.
  - apply fractions_inj. vm_compute. reflexivity.
Qed.

(** The first output is not the first input. *)
Lemma clamped_edge_changes :
  exists out,
    savitzkyGolay (F:=float) (map Double.ofZ [1; 2; 3; 4; 5]%Z) 5 2 = Ok out
    /\ eqb (nth 0 out NaN) (Double.ofZ 1) = false
    /\ eqb (nth 4 out NaN) (Double.ofZ 5) = false.
Proof.
  exists [1.1714285714285717; 1.9142857142857146; 3;
          4.0857142857142863; 4.8285714285714292]%float.
  repeat split; vm_compute; reflexivity.
Qed.

(* ================================================================== *)
(** ** The filter in exact arithmetic *)

(** In arithmetic without rounding the Gauss-Jordan elimination inverts
    the normal-equations matrix, and the smoothing coefficients sum to 1.
    The laws used are those of a commutative ring, [x / d = x * (1 / d)],
    [d / d = 1] for a non-zero [d], and that a pivot that passes the test
    of [invertMatrix] is not 0. *)

Section ExactFilter.

Context {F : Type} {AF : Arith F}.
Local Open Scope js_scope.

Hypothesis Rth : ring_theory zero one add mul sub opp (@eq F).
Hypothesis div_def : forall x d : F, x / d = x * (one / d).
Hypothesis div_self : forall d : F, d <> zero -> d / d = one.
Hypothesis ofZ_one : ofZ 1 = one.
Hypothesis pivot_nonzero : forall x : F, (abs x <? pivotEps) = false -> x <> zero.

Add Ring Fring : Rth.

Lemma dotFrom_dot (xs cs : list F) : forall acc, dotFrom acc xs cs = acc + dot xs cs.
Proof.
  revert cs; induction xs as [| x xs IH]; intros cs acc; simpl; [ring |].
  destruct cs as [| c cs]; [ring |]. rewrite IH. ring.
Qed.

Lemma sum_total (l : list F) : sum l = total l.
Proof.
  unfold sum.
  assert (H : forall acc, fold_left add l acc = acc + total l).
  { induction l as [| x l IH]; intros acc; simpl; [ring |]. rewrite IH. ring. }
  rewrite H. ring.
Qed.

Lemma div_zero (d : F) : zero / d = zero.
Proof. rewrite div_def. ring. Qed.

Lemma dot_scale (d : F) (c v : list F) :
  dot (map (fun x => x / d) c) v = dot c v / d.
Proof.
  revert v; induction c as [| x c IH]; intros v; simpl.
  - now rewrite div_zero.
  - destruct v as [| y v]; [now rewrite div_zero |].
    rewrite IH. rewrite (div_def x), (div_def (dot c v)), (div_def (x * y + dot c v)).
    ring.
Qed.

Lemma dot_eliminate (f : F) (c c' v : list F) :
  length c = length c' ->
  dot (map2 (fun a b => a - f * b) c c') v = dot c v - f * dot c' v.
Proof.
  revert c' v; induction c as [| x c IH]; intros [| y c'] v Hlen; simpl in *;
    try discriminate; [ring |].
  destruct v as [| z v]; [ring |].
  rewrite IH by lia. ring.
Qed.

Lemma skipn_map2 {A B C : Type} (f : A -> B -> C) (k : nat) :
  forall l1 l2, skipn k (map2 f l1 l2) = map2 f (skipn k l1) (skipn k l2).
Proof.
  induction k as [| k IH]; intros l1 l2; [reflexivity |].
  destruct l1 as [| a l1], l2 as [| b l2]; simpl; try reflexivity.
  - now destruct (skipn k l1).
  - apply IH.
Qed.

(** The entry of the unit vector [e_i] picks the entry [i] of [v]. *)
Lemma dot_unit (i : nat) (v : list F) :
  forall s, dot (map (fun j => if Nat.eqb i j then one else zero) (seq s (length v))) v
            = if ((s <=? i) && (i <? s + length v))%nat then nth (i - s) v NaN else zero.
Proof.
  induction v as [| y v IH]; intros s; simpl.
  - destruct (s <=? i)%nat eqn:H1; simpl; [| reflexivity].
    destruct (Nat.ltb_spec i (s + 0)); [apply Nat.leb_le in H1; lia | reflexivity].
  - rewrite IH.
    destruct (Nat.eqb_spec i s) as [-> | Hne].
    + rewrite Nat.leb_refl, Nat.sub_diag.
      destruct (Nat.leb_spec (S s) s); [lia |]. simpl.
      destruct (Nat.ltb_spec s (s + S (length v))); [ring | lia].
    + destruct (Nat.leb_spec s i), (Nat.leb_spec (S s) i); try lia; simpl; try ring.
      replace (i - s)%nat with (S (i - S s)) by lia.
      destruct (Nat.ltb_spec i (S (s + length v))), (Nat.ltb_spec i (s + S (length v)));
        try lia; ring.
Qed.

(** *** The invariant of the elimination *)

Section Elimination.

(** [M] is the square matrix being inverted, with at least one row. *)
Variable M : matrix (F:=F).
Variable n : nat.
Hypothesis M_shape : hasShape n n M.
Hypothesis n_pos : (0 < n)%nat.

Lemma rowOK_scale (d : F) (r : list F) : rowOK M n r -> rowOK M n (map (fun x => x / d) r).
Proof.
  intros [Hlen Hdot]. split; [now rewrite length_map |].
  rewrite skipn_map, dot_scale, Hdot.
  destruct r as [| x r]; [simpl in Hlen; lia | reflexivity].
Qed.

Lemma rowOK_eliminate (f : F) (r ri : list F) :
  rowOK M n r -> rowOK M n ri -> rowOK M n (map2 (fun a b => a - f * b) r ri).
Proof.
  intros [Hlen Hdot] [Hleni Hdoti]. split.
  - rewrite map2_length. lia.
  - rewrite skipn_map2, dot_eliminate by (rewrite !length_skipn; lia).
    rewrite Hdot, Hdoti.
    destruct r as [| x r]; [simpl in Hlen; lia |].
    destruct ri as [| y ri]; [simpl in Hleni; lia | reflexivity].
Qed.

Lemma rowsOK_pivotRows (A : matrix (F:=F)) (i k : nat) :
  rowsOK M n A -> (i < n)%nat -> (k < n)%nat -> rowOK M n (nth k (pivotRows A i n) []).
Proof.
  intros [Hlen Hrows] Hi Hk. rewrite pivotRows_nth by assumption.
  apply Hrows. now apply pivotSource_bound.
Qed.

Lemma rowsOK_pivotStep (A A' : matrix (F:=F)) (i : nat) :
  rowsOK M n A -> (i < n)%nat -> pivotStep A i n = Ok A' -> rowsOK M n A'.
Proof.
  intros HA Hi Hstep.
  destruct (@pivotStep_rows F AF A A' i n (proj1 HA) Hi Hstep) as [_ [Hlen Hrows]].
  split; [exact Hlen |]. intros k Hk. rewrite Hrows by exact Hk.
  destruct (Nat.eqb k i).
  - apply rowOK_scale. now apply rowsOK_pivotRows.
  - apply rowOK_eliminate; [| apply rowOK_scale]; now apply rowsOK_pivotRows.
Qed.

Lemma rowsOK_augment : rowsOK M n (augment M).
Proof.
  destruct M_shape as [Hlen Hrows]. unfold augment. rewrite Hlen.
  split; [now rewrite mapi_length |]. intros k Hk.
  rewrite mapi_nth with (da := []) by lia.
  assert (Hrow : length (nth k M []) = n).
  { rewrite Forall_forall in Hrows. apply Hrows. apply nth_In. lia. }
  split.
  - rewrite length_app, length_map, length_seq. lia.
  - rewrite skipn_app, Hrow, Nat.sub_diag, skipn_all2 by lia. cbn [app skipn].
    assert (Hcol : length (firstColumn M) = n) by (unfold firstColumn; now rewrite length_map).
    rewrite <- Hcol at 1. rewrite dot_unit, Hcol. cbn [Nat.leb andb Nat.add].
    destruct (Nat.ltb_spec k n); [| lia]. rewrite Nat.sub_0_r.
    rewrite app_nth1 by lia. unfold firstColumn.
    apply (map_nth (fun row => nth 0 row NaN) M []).
Qed.

(** Column 0 is handled by the first pass ... *)
Lemma firstColumn_first (A A' : matrix (F:=F)) :
  rowsOK M n A -> pivotStep A 0 n = Ok A' -> firstColumnDone n A'.
Proof.
  intros HA Hstep.
  destruct (@pivotStep_rows F AF A A' 0 n (proj1 HA) n_pos Hstep) as [Hpiv [Hlen Hrows]].
  apply pivot_nonzero in Hpiv.
  assert (Hone : nth 0 (scaledPivotRow A 0 n) NaN = one).
  { unfold scaledPivotRow.
    destruct (@rowsOK_pivotRows A 0 0 HA n_pos n_pos) as [Hl _].
    unfold entry in *. destruct (nth 0 (pivotRows A 0 n) []) as [| x r];
      [simpl in Hl; lia |]. simpl in *. now apply div_self. }
  split.
  - rewrite Hrows by exact n_pos. exact Hone.
  - intros k Hk. rewrite Hrows by lia.
    destruct (Nat.eqb_spec k 0); [lia |]. unfold eliminatedRow.
    assert (Hk' : (k < n)%nat) by lia.
    destruct (@rowsOK_pivotRows A 0 k HA n_pos Hk') as [Hl _].
    destruct (@rowsOK_pivotRows A 0 0 HA n_pos n_pos) as [Hl0 _].
    assert (Hls : length (scaledPivotRow A 0 n) = (n + n)%nat)
      by (unfold scaledPivotRow; now rewrite length_map).
    destruct (nth k (pivotRows A 0 n) []) as [| x r]; [simpl in Hl; lia |].
    destruct (scaledPivotRow A 0 n) as [| y ri]; [simpl in Hls; lia |].
    simpl in *. subst y. ring.
Qed.

(** ... and left alone by the later ones. *)
Lemma firstColumn_later (A A' : matrix (F:=F)) (i : nat) :
  rowsOK M n A -> firstColumnDone n A -> (1 <= i < n)%nat ->
  pivotStep A i n = Ok A' -> firstColumnDone n A'.
Proof.
  intros HA [H0 Hk0] Hi Hstep.
  assert (Hin : (i < n)%nat) by lia.
  destruct (@pivotStep_rows F AF A A' i n (proj1 HA) Hin Hstep) as [_ [Hlen Hrows]].
  pose proof (findMaxRow_bounds A Hin) as Hm.
  assert (Hsrc : forall k, (k < n)%nat ->
             nth 0 (nth k (pivotRows A i n) []) NaN
             = if Nat.eqb k 0 then one else zero).
  { intros k Hk. rewrite pivotRows_nth by (try apply HA; exact Hin).
    unfold pivotSource.
    destruct (Nat.eqb_spec k i) as [-> | Hki].
    - destruct (Nat.eqb_spec i 0); [lia |]. apply Hk0. lia.
    - destruct (Nat.eqb_spec k (findMaxRow A i n)) as [-> | Hkm].
      + destruct (Nat.eqb_spec (findMaxRow A i n) 0); [lia |]. apply Hk0. lia.
      + destruct (Nat.eqb_spec k 0) as [-> | Hk1]; [exact H0 | apply Hk0; lia]. }
  assert (Hzero : nth 0 (scaledPivotRow A i n) NaN = zero).
  { unfold scaledPivotRow.
    destruct (@rowsOK_pivotRows A i i HA Hin Hin) as [Hl _].
    pose proof (Hsrc i Hin) as Hi0.
    destruct (Nat.eqb_spec i 0); [lia |].
    destruct (nth i (pivotRows A i n) []) as [| x r]; [simpl in Hl; lia |].
    simpl in *. subst x. apply div_zero. }
  assert (Helim : forall k, (k < n)%nat ->
             nth 0 (eliminatedRow A i n k) NaN = nth 0 (nth k (pivotRows A i n) []) NaN).
  { intros k Hk. unfold eliminatedRow.
    destruct (@rowsOK_pivotRows A i k HA Hin Hk) as [Hl _].
    assert (Hls : length (scaledPivotRow A i n) = (n + n)%nat).
    { unfold scaledPivotRow. rewrite length_map.
      apply (@rowsOK_pivotRows A i i HA Hin Hin). }
    set (f := nth i (nth k (pivotRows A i n) []) NaN).
    destruct (nth k (pivotRows A i n) []) as [| x r]; [simpl in Hl; lia |].
    destruct (scaledPivotRow A i n) as [| y ri]; [simpl in Hls; lia |].
    simpl in *. subst y. ring. }
  split.
  - rewrite Hrows by lia. destruct (Nat.eqb_spec 0 i); [lia |].
    rewrite Helim by lia. now rewrite Hsrc by lia.
  - intros k Hk. rewrite Hrows by lia.
    destruct (Nat.eqb_spec k i) as [-> | Hki]; [exact Hzero |].
    rewrite Helim by lia. rewrite Hsrc by lia.
    destruct (Nat.eqb_spec k 0); [lia | reflexivity].
Qed.

Lemma pivotLoop_invariant (len : nat) :
  forall s A A',
    (s + len <= n)%nat -> rowsOK M n A -> ((1 <= s)%nat -> firstColumnDone n A) ->
    fold_left (fun acc i => A <- acc ;; pivotStep A i n) (seq s len) (Ok A) = Ok A' ->
    rowsOK M n A' /\ ((1 <= s + len)%nat -> firstColumnDone n A').
Proof.
  induction len as [| len IH]; intros s A A' Hs HA Hcol Hloop; simpl in Hloop.
  - injection Hloop as <-. split; [exact HA |]. intros H. apply Hcol. lia.
  - destruct (pivotStep A s n) as [A1 | e] eqn:Hstep;
      [| rewrite pivotLoop_thrown in Hloop; discriminate].
    assert (HA1 : rowsOK M n A1) by (apply (@rowsOK_pivotStep A A1 s HA); [lia | exact Hstep]).
    assert (Hcol1 : firstColumnDone n A1).
    { destruct s as [| s].
      - now apply (@firstColumn_first A A1).
      - apply (@firstColumn_later A A1 (S s)); auto; try lia. apply Hcol. lia. }
    destruct (IH (S s) A1 A') as [HA' Hcol']; auto; try lia.
    split; [exact HA' |]. intros _. apply Hcol'. lia.
Qed.

(** Row 0 of the inverse, multiplied with the first column of [M], gives
    the entry (0, 0) of the identity. *)
Lemma invertMatrix_first_row (inv : matrix (F:=F)) :
  invertMatrix M = Ok inv ->
  length (nth 0 inv []) = n /\ dot (nth 0 inv []) (firstColumn M) = one.
Proof.
  unfold invertMatrix. destruct M_shape as [Hlen _]. rewrite Hlen.
  intros H. apply bind_ok in H as [A' [Hloop Hinv]]. injection Hinv as <-.
  destruct (@pivotLoop_invariant n 0 (augment M) A') as [[_ Hrows] Hcol]; auto.
  - apply rowsOK_augment.
  - intros H; lia.
  - assert (Hrow0 : nth 0 (map (skipn n) A') [] = skipn n (nth 0 A' [])).
    { rewrite <- (map_nth (skipn n) A' []). f_equal. now destruct n. }
    rewrite Hrow0.
    destruct (Hrows 0%nat n_pos) as [Hl Hdot]. destruct Hcol as [Hone _]; [lia |].
    split; [rewrite length_skipn; lia |]. now rewrite Hdot.
Qed.

End Elimination.

(** *** The intersection amplitude *)

(** Without rounding, the amplitude of an intersection is the midpoint
    of the two interpolated values. *)
Lemma crossingValue_midpoint (tenz interf : list F) (i : nat) :
  crossingValue tenz interf i
  = (interpolate tenz interf tenz i + interpolate tenz interf interf i) / ofZ 2.
Proof. unfold crossingValue, interpolate. f_equal. ring. Qed.

(** *** From the inverse to the sum of the coefficients *)

Lemma total_map_add {A : Type} (f g : A -> F) (l : list A) :
  total (map (fun j => f j + g j) l) = total (map f l) + total (map g l).
Proof. induction l as [| a l IH]; simpl; [ring | rewrite IH; ring]. Qed.

Lemma total_map_scale {A : Type} (x : F) (f : A -> F) (l : list A) :
  total (map (fun j => x * f j) l) = x * total (map f l).
Proof. induction l as [| a l IH]; simpl; [ring | rewrite IH; ring]. Qed.

Lemma total_map_zero {A : Type} (l : list A) : total (map (fun _ => zero) l) = zero.
Proof. induction l as [| a l IH]; simpl; [reflexivity | rewrite IH; ring]. Qed.

Lemma map_nth_seq_with {A B : Type} (f : A -> B) (l : list A) (d : A) :
  map (fun k => f (nth k l d)) (seq 0 (length l)) = map f l.
Proof. rewrite <- (map_map (fun k => nth k l d) f). now rewrite map_nth_seq. Qed.

(** The accumulation loop of [multiplyMatrices] is a dot product. *)
Lemma product_entry (c : list F) (rows : matrix (F:=F)) (j : nat) :
  length c = length rows ->
  fold_left (fun acc k => acc + nth k c NaN * entry rows k j) (seq 0 (length c)) zero
  = dot c (columnOf j rows).
Proof.
  intros Hlen. rewrite fold_left_dotFrom, dotFrom_dot, map_nth_seq.
  unfold entry, columnOf. rewrite Hlen.
  rewrite (map_nth_seq_with (fun r => nth j r NaN) rows []). ring.
Qed.

Lemma total_columns (w : nat) (c : list F) :
  forall rows,
    Forall (fun r => length r = w) rows ->
    total (map (fun j => dot c (columnOf j rows)) (seq 0 w)) = dot c (map total rows).
Proof.
  induction c as [| x c IH]; intros rows Hrows; simpl.
  - apply total_map_zero.
  - destruct rows as [| r rows]; simpl; [apply total_map_zero |].
    inversion Hrows as [| r' rows' Hr Hrows']; subst.
    rewrite (total_map_add (fun j => x * nth j r NaN) (fun j => dot c (columnOf j rows))).
    rewrite total_map_scale, IH by exact Hrows'.
    now rewrite map_nth_seq.
Qed.

Lemma dot_ones (r : list F) (g : nat -> F) :
  forall s, (forall k, (s <= k < s + length r)%nat -> g k = one) ->
            dot r (map g (seq s (length r))) = total r.
Proof.
  induction r as [| x r IH]; intros s Hg; simpl; [reflexivity |].
  rewrite IH by (intros k Hk; apply Hg; simpl; lia).
  rewrite Hg by (simpl; lia). ring.
Qed.

Lemma multiplyMatrices_rows (A B C : matrix (F:=F)) :
  multiplyMatrices A B = Ok C ->
  C = map (fun rowA =>
             map (fun j =>
                    fold_left (fun acc k => acc + nth k rowA NaN * entry B k j)
                              (seq 0 (length (nth 0 A []))) zero)
                 (seq 0 (length (nth 0 B []))))
          A.
Proof.
  destruct A as [| a0 A']; [discriminate |].
  destruct B as [| b0 B']; [discriminate |].
  unfold multiplyMatrices. destruct (_ && _)%bool; [discriminate |].
  intros H. now injection H as <-.
Qed.

Lemma designMatrix_first_column (half polyOrder : Z) (k : nat) :
  (0 <= polyOrder)%Z -> (k < Z.to_nat (2 * half + 1))%nat ->
  entry (designMatrix half polyOrder) k 0 = one.
Proof.
  intros Hp Hk. unfold entry, designMatrix.
  set (f := fun i : Z => map (fun p => ofZ (i ^ p)) (zrange 0 polyOrder)).
  rewrite nth_indep with (d' := f 0%Z)
    by (rewrite length_map, zrange_length; lia).
  rewrite (map_nth f). unfold f, zrange.
  replace (Z.to_nat (polyOrder - 0 + 1)) with (S (Z.to_nat polyOrder)) by lia.
  cbn [seq map nth]. now rewrite Z.pow_0_r.
Qed.

(** The first column of [AtA] holds the sums of the rows of [At]. *)
Lemma normalMatrix_first_column (half polyOrder : Z) (AT ATA : matrix (F:=F)) :
  (0 <= half)%Z -> (0 <= polyOrder)%Z ->
  transpose (designMatrix half polyOrder) = Ok AT ->
  multiplyMatrices AT (designMatrix half polyOrder) = Ok ATA ->
  firstColumn ATA = map total AT.
Proof.
  intros Hh Hp HT HM.
  destruct (@normalMatrix_shape F AF half polyOrder Hh Hp)
    as [AT' [ATA' [HT' [[HlenT HrowsT] [HM' _]]]]].
  rewrite HT in HT'. injection HT' as <-.
  destruct (designMatrix_shape (F:=F) half polyOrder) as [HlenA HrowsA].
  apply multiplyMatrices_rows in HM. subst ATA.
  unfold firstColumn. rewrite map_map. apply map_ext_in. intros rowA Hin.
  assert (HrowA : length rowA = Z.to_nat (2 * half + 1))
    by (rewrite Forall_forall in HrowsT; now apply HrowsT).
  assert (Hcols : length (nth 0 (designMatrix half polyOrder) [])
                  = S (Z.to_nat polyOrder)).
  { rewrite Forall_forall in HrowsA. rewrite (HrowsA _); [lia |].
    apply nth_In. lia. }
  assert (Hrow0 : length (nth 0 AT []) = length rowA).
  { rewrite Forall_forall in HrowsT. rewrite (HrowsT (nth 0 AT [])); [lia |].
    apply nth_In. lia. }
  rewrite Hcols, Hrow0. cbn [seq map nth].
  rewrite fold_left_dotFrom, dotFrom_dot, map_nth_seq.
  rewrite dot_ones; [ring |].
  intros k Hk. apply designMatrix_first_column; lia.
Qed.

(** The smoothing coefficients sum to 1. *)
Lemma coefficients_total (half polyOrder : Z) (P : matrix (F:=F)) (coeffs : list F) :
  (0 <= half)%Z -> (0 <= polyOrder)%Z ->
  pseudoInverse half polyOrder = Ok (Some P) -> nth_error P 0 = Some coeffs ->
  total coeffs = one /\ length coeffs = Z.to_nat (2 * half + 1).
Proof.
  intros Hh Hp HP Hc.
  destruct (@normalMatrix_shape F AF half polyOrder Hh Hp)
    as [AT [ATA [HT [[HlenT HrowsT] [HM HMs]]]]].
  unfold pseudoInverse in HP. rewrite HT in HP; cbn [bind] in HP.
  rewrite HM in HP; cbn [bind] in HP.
  destruct (invertMatrix ATA) as [inv | e] eqn:Hinv; [| discriminate].
  apply bind_ok in HP as [P' [HP' HP]]. injection HP as <-.
  assert (Hn : (0 < Z.to_nat (polyOrder + 1))%nat) by lia.
  destruct (@invertMatrix_first_row ATA (Z.to_nat (polyOrder + 1)) HMs Hn inv Hinv)
    as [Hlen0 Hdot].
  apply multiplyMatrices_rows in HP'. subst P'.
  destruct inv as [| i0 inv']; [discriminate |].
  cbn [map nth_error nth] in *. injection Hc as <-.
  assert (Hw : length (nth 0 AT []) = Z.to_nat (2 * half + 1)).
  { rewrite Forall_forall in HrowsT. apply HrowsT. apply nth_In. lia. }
  split; [| now rewrite length_map, length_seq].
  rewrite (map_ext _ (fun j => dot i0 (columnOf j AT)))
    by (intros j; apply product_entry; lia).
  rewrite Hw, (total_columns i0 HrowsT).
  rewrite <- (@normalMatrix_first_column half polyOrder AT ATA Hh Hp HT HM).
  exact Hdot.
Qed.

Lemma clampIndex_lt (n i : nat) (j : Z) : (0 < n)%nat -> (clampIndex n i j < n)%nat.
Proof.
  intros Hn. unfold clampIndex.
  destruct (Z.ltb_spec (Z.of_nat i + j) 0);
    [destruct (Z.geb_spec 0 (Z.of_nat n)) | destruct (Z.geb_spec (Z.of_nat i + j) (Z.of_nat n))];
    lia.
Qed.

Lemma dot_constant (c : F) (cs : list F) :
  forall {A : Type} (l : list A),
    length l = length cs -> dot (map (fun _ => c) l) cs = c * total cs.
Proof.
  induction cs as [| x cs IH]; intros A l Hlen; destruct l as [| a l]; simpl in *;
    try discriminate; [ring |].
  rewrite IH by lia. ring.
Qed.

Lemma map_constant {A B : Type} (b : B) (l : list A) :
  map (fun _ => b) l = repeat b (length l).
Proof. induction l as [| a l IH]; simpl; [reflexivity | now rewrite IH]. Qed.

(** A filter whose coefficients sum to 1 reproduces a constant. *)
Lemma convolve_constant (c : F) (n : nat) (coeffs : list F) (half : Z) (i : nat) :
  (0 <= half)%Z -> length coeffs = Z.to_nat (2 * half + 1) -> total coeffs = one ->
  (0 < n)%nat ->
  convolveAt n (repeat c n) coeffs half i = c.
Proof.
  intros Hh Hlen Hsum Hn. unfold convolveAt.
  rewrite fold_left_dotFrom, dotFrom_dot, coeffs_by_offset by assumption.
  rewrite (map_ext _ (fun _ => c))
    by (intros j; apply nth_repeat_lt; now apply clampIndex_lt).
  rewrite dot_constant by (rewrite zrange_length; lia).
  rewrite Hsum. ring.
Qed.

Lemma savitzkyGolay_constant (windowSize polyOrder : Q) (c : F) (n : nat) :
  savitzkyGolay (repeat c n) windowSize polyOrder = Ok (repeat c n).
Proof.
  destruct n as [| n]; [reflexivity |].
  rewrite savitzkyGolay_unfold by discriminate.
  pose proof (smoothHalf_pos windowSize) as Hh.
  pose proof (smoothOrder_bounds windowSize polyOrder) as Hp.
  destruct (@pseudoInverse_shape F AF (smoothHalf windowSize)
              (smoothOrder windowSize polyOrder)) as [-> | [P [HP [Hlen _]]]];
    try lia; [reflexivity |].
  rewrite HP. cbn [bind].
  destruct (nth_error P 0) as [coeffs |] eqn:Hc;
    [| destruct P; [simpl in Hlen; lia | discriminate]].
  destruct (@coefficients_total (smoothHalf windowSize)
              (smoothOrder windowSize polyOrder) P coeffs
              ltac:(lia) ltac:(lia) HP Hc) as [Hsum Hcl].
  f_equal. rewrite repeat_length.
  rewrite (map_ext _ (fun _ => c))
    by (intros i; apply convolve_constant; auto; lia).
  now rewrite map_constant, length_seq.
Qed.

End ExactFilter.

(* ================================================================== *)
(** ** The coefficient sum and constant inputs *)

(** The laws of exact arithmetic hold for the rationals. *)
Lemma Qc_div_def (x d : Qc) : div x d = mul x (div one d).
Proof. cbn [div mul one Qc_arith]. unfold Qcdiv. ring. Qed.

Lemma Qc_div_self (d : Qc) : d <> zero -> div d d = one.
Proof. intros Hd. cbn [div one Qc_arith]. unfold Qcdiv. now apply Qcmult_inv_r. Qed.

Lemma Qc_pivot_nonzero (x : Qc) : ltb (abs x) pivotEps = false -> x <> zero.
Proof. intros H Hx. subst x. vm_compute in H. discriminate. Qed.

(** In any arithmetic, the doubles of the program included, the filter
    turns a constant sequence into a constant sequence. *)
Section ConstantInputs.

Context {F : Type} {AF : Arith F}.
Local Open Scope js_scope.

(** On a constant array every window reads the same value, clamped or
    not, so that the sliding dot product does not depend on the index. *)
Lemma convolveAt_constant (c : F) (n : nat) (coeffs : list F) (half : Z) (i : nat) :
  (0 < n)%nat ->
  convolveAt n (repeat c n) coeffs half i = convolveAt n (repeat c n) coeffs half 0.
Proof.
  intros Hn. unfold convolveAt.
  generalize (zero (F:=F)) as acc. generalize (zrange (- half) half) as js.
  induction js as [| j js IH]; intros acc; cbn [fold_left]; [reflexivity |].
  rewrite !nth_repeat_lt by now apply clampIndex_lt.
  apply IH.
Qed.

(** [savitzkyGolay] returns, for a constant sequence, a constant sequence
    of the same length. *)
Lemma savitzkyGolay_constant_shape (windowSize polyOrder : Q) (c : F) (n : nat) :
  exists c', savitzkyGolay (repeat c n) windowSize polyOrder = Ok (repeat c' n).
Proof.
  destruct n as [| n]; [exists c; reflexivity |].
  destruct (savitzkyGolay_ok (repeat c (S n)) windowSize polyOrder) as [out [Hout _]].
  rewrite savitzkyGolay_unfold in Hout |- * by discriminate.
  destruct (pseudoInverse _ _) as [[P |] | e]; cbn [bind] in *; try discriminate.
  - destruct (nth_error P 0) as [coeffs |]; [| discriminate].
    exists (convolveAt (S n) (repeat c (S n)) coeffs (smoothHalf windowSize) 0).
    f_equal. rewrite repeat_length.
    rewrite (map_ext _ (fun _ => convolveAt (S n) (repeat c (S n)) coeffs
                                            (smoothHalf windowSize) 0))
      by (intros i; apply convolveAt_constant; lia).
    now rewrite map_constant, length_seq.
  - exists c. reflexivity.
Qed.

End ConstantInputs.

(** C1.  For every window size and polynomial order.  In any arithmetic,
    that of the program included, the filter returns for a constant
    sequence of any length a constant sequence of that length, clamped
    boundaries included.  In exact arithmetic the smoothing coefficient
    vector, whenever the inversion yields one, sums to 1, and the
    sequence returned is the input (also when the inversion falls
    back). *)
Theorem smoothing_preserves_constants (windowSize polyOrder : Q) :
  (forall (F : Type) (AF : Arith F) (c : F) (n : nat),
      exists c' : F,
        savitzkyGolay (repeat c n) windowSize polyOrder = Ok (repeat c' n))
  /\ (forall coeffs : list Qc,
         smoothingCoeffs windowSize polyOrder = Some coeffs -> sum coeffs = one)
  /\ (forall (c : Qc) (n : nat),
         savitzkyGolay (repeat c n) windowSize polyOrder = Ok (repeat c n)).
Proof.
  split; [intros F AF c n; apply savitzkyGolay_constant_shape |].
  split.
  - intros coeffs Hc. unfold smoothingCoeffs in Hc.
    destruct (pseudoInverse (smoothHalf windowSize) (smoothOrder windowSize polyOrder))
      as [[P |] | e] eqn:HP; try discriminate.
    pose proof (smoothHalf_pos windowSize) as Hh.
    pose proof (smoothOrder_bounds windowSize polyOrder) as Hp.
    rewrite (@sum_total Qc Qc_arith Qcrt coeffs).
    apply (@coefficients_total Qc Qc_arith Qcrt Qc_div_def Qc_div_self eq_refl
             Qc_pivot_nonzero (smoothHalf windowSize)
             (smoothOrder windowSize polyOrder) P coeffs); auto; lia.
  - intros c n.
    apply (@savitzkyGolay_constant Qc Qc_arith Qcrt Qc_div_def Qc_div_self eq_refl
             Qc_pivot_nonzero).
Qed.

(** With window 5 and order 2 the inversion succeeds and the coefficients
    are -3/35, 12/35, 17/35, 12/35, -3/35. *)
Lemma smoothing_preserves_constants_witness :
  smoothingCoeffs (F:=Qc) 5 2
  = Some (map Q2Qc [-3 # 35; 12 # 35; 17 # 35; 12 # 35; -3 # 35]%Q)
  /\ sum (map Q2Qc [-3 # 35; 12 # 35; 17 # 35; 12 # 35; -3 # 35]%Q) = one.
Proof.
  assert (H : smoothingCoeffs (F:=Qc) 5 2
              = Some (map Q2Qc [-3 # 35; 12 # 35; 17 # 35; 12 # 35; -3 # 35]%Q)).
  { apply Qc_option_inj. vm_compute. reflexivity. }
  split; [exact H |].
  exact (proj1 (proj2 (smoothing_preserves_constants 5 2)) _ H).
Defined.

(** In doubles the constant returned is not the constant given, and not
    by the last bit only.  With window 5 and order 2 the coefficients sum
    to 1.0000000000000002, and so does every output for the constant 1.
    With window 17 and order 16, where every entry [i ** p] of the design
    matrix is an integer below 2^53 and so exact, the coefficients sum to
    1.0000000056749518: every output for the constant 1 is off by more
    than 5e-9, some 25 million units in the last place. *)
Lemma rounding_changes_constant :
  ((exists coeffs,
       smoothingCoeffs (F:=float) 5 2 = Some coeffs
       /\ sum coeffs = 1.0000000000000002%float
       /\ eqb (sum coeffs) one = false)
   /\ savitzkyGolay (F:=float) (repeat one 7) 5 2
      = Ok (repeat 1.0000000000000002%float 7)
   /\ eqb 1.0000000000000002%float one = false)
  /\ forallb (fun i => forallb (fun p => (Z.abs (i ^ p) <=? 2 ^ 53)%Z) (zrange 0 16))
             (zrange (- 8) 8) = true
  /\ (exists coeffs,
         smoothingCoeffs (F:=float) 17 16 = Some coeffs
         /\ sum coeffs = 1.0000000056749518%float)
  /\ savitzkyGolay (F:=float) (repeat one 20) 17 16
     = Ok (repeat 1.0000000056749518%float 20)
  /\ ltb 5e-9%float (abs (sub 1.0000000056749518%float one)) = true.
Proof.
  split; [split; [| split; vm_compute; reflexivity] |].
  - exists [-0.085714285714285632; 0.34285714285714286; 0.48571428571428565;
            0.34285714285714286; -0.085714285714285632]%float.
    repeat split; vm_compute; reflexivity.
  - split; [vm_compute; reflexivity |].
    split; [| split; vm_compute; reflexivity].
    vm_compute. eexists. split; reflexivity.
Qed.

(** With the window 31 the page starts with and the largest order its
    field then accepts, 30, the constant 1 comes back as
    1.0044321237656249.  (Here the powers above 2^53 are the integer
    powers rounded to the nearest double.) *)
Lemma rounding_at_default_window :
  savitzkyGolay (F:=float) (repeat one 40) 31 30
  = Ok (repeat 1.0044321237656249%float 40)
  /\ onPolyChange 31 (Some 30%Q) = 30%Z
  /\ ltb 0.004%float (abs (sub 1.0044321237656249%float one)) = true.
Proof. repeat split; vm_compute; reflexivity. Qed.

(* ================================================================== *)
(** ** Transposition *)

Section Transposition.

Context {F : Type} {AF : Arith F}.

Lemma nth_map_seq {A : Type} (f : nat -> A) (n k : nat) (d : A) :
  (k < n)%nat -> nth k (map f (seq 0 n)) d = f k.
Proof.
  intros Hk. rewrite nth_indep with (d' := f 0%nat) by now rewrite length_map, length_seq.
  rewrite (map_nth f), seq_nth by exact Hk. reflexivity.
Qed.

Lemma map_seq_nth {A : Type} (l : list A) (d : A) (n : nat) :
  length l = n -> map (fun k => nth k l d) (seq 0 n) = l.
Proof. intros <-. apply map_nth_seq. Qed.

End Transposition.

(** X1.  Transposing a matrix with at least one row and one column twice
    gives the matrix back; the transpose has the rows and columns
    exchanged. *)
Theorem transpose_involution {F : Type} {AF : Arith F}
        (r c : nat) (M : matrix (F:=F)) :
  hasShape (S r) (S c) M ->
  exists T,
    transpose M = Ok T /\ hasShape (S c) (S r) T /\ transpose T = Ok M
    /\ forall i j, (i < S r)%nat -> (j < S c)%nat -> entry T j i = entry M i j.
Proof.
  intros HM. destruct (transpose_shape HM) as [T [HT HTs]].
  exists T. split; [exact HT |]. split; [exact HTs |].
  destruct HM as [Hlen Hrows].
  destruct M as [| row0 M']; [discriminate |].
  assert (Hrow0 : length row0 = S c) by now inversion Hrows.
  unfold transpose in HT. injection HT as HT. rewrite Hrow0 in HT.
  assert (Hentry : forall i j, (i < S r)%nat -> (j < S c)%nat ->
                               entry T j i = entry (row0 :: M') i j).
  { intros i j Hi Hj. unfold entry. rewrite <- HT.
    rewrite nth_map_seq by exact Hj.
    transitivity (nth i (map (fun row => nth j row NaN) (row0 :: M')) NaN);
      [reflexivity |].
    rewrite nth_indep with (d' := nth j [] NaN) by (rewrite length_map; lia).
    apply (map_nth (fun row => nth j row NaN)). }
  split; [| exact Hentry].
  destruct T as [| t0 T']; [discriminate |].
  assert (Ht0 : length t0 = S r).
  { destruct HTs as [_ HTr]. now inversion HTr. }
  unfold transpose. f_equal. rewrite Ht0.
  etransitivity; [| apply (map_seq_nth (row0 :: M') [] Hlen)].
  apply map_ext_in. intros i Hi. apply in_seq in Hi.
  assert (Hri : length (nth i (row0 :: M') []) = S c).
  { rewrite Forall_forall in Hrows. apply Hrows, nth_In. lia. }
  etransitivity; [| apply (map_seq_nth (nth i (row0 :: M') []) NaN Hri)].
  etransitivity;
    [apply (f_equal (map (fun row => nth i row NaN)));
     symmetry; apply (map_seq_nth (t0 :: T') [] (proj1 HTs)) |].
  rewrite map_map. apply map_ext_in. intros j Hj. apply in_seq in Hj.
  apply (Hentry i j); lia.
Qed.

Lemma transpose_involution_witness :
  exists T,
    transpose (F:=float) [[1; 2; 3]; [4; 5; 6]]%float = Ok T
    /\ hasShape 3 2 T
    /\ transpose T = Ok [[1; 2; 3]; [4; 5; 6]]%float
    /\ forall i j, (i < 2)%nat -> (j < 3)%nat ->
                   entry T j i = entry [[1; 2; 3]; [4; 5; 6]]%float i j.
Proof.
  apply (@transpose_involution float float_arith 1 2).
  split; [reflexivity | repeat constructor].
Defined.

(* ================================================================== *)
(** ** What the matrix utilities return *)

(** X2.  On a square matrix, in any arithmetic, [invertMatrix] returns a
    matrix of the same size or throws its degeneracy error; nothing
    else. *)
Theorem invertMatrix_outcomes {F : Type} {AF : Arith F} (n : nat) (m : matrix (F:=F)) :
  hasShape n n m ->
  (exists inv, invertMatrix m = Ok inv /\ hasShape n n inv)
  \/ invertMatrix m = Throw MatrixDegenerate.
Proof.
  intros Hm. destruct (invertMatrix m) as [inv | e] eqn:Hinv.
  - left. exists inv. split; [reflexivity |]. exact (invertMatrix_shape Hm Hinv).
  - right. f_equal. exact (invertMatrix_throw _ Hinv).
Qed.

(** In doubles the matrix with rows (1, 2) and (2, 4) is degenerate. *)
Lemma invertMatrix_outcomes_witness :
  invertMatrix (F:=float) [[1; 2]; [2; 4]]%float = Throw MatrixDegenerate
  /\ exists inv, invertMatrix (F:=float) [[2; 1]; [1; 1]]%float = Ok inv
                 /\ hasShape 2 2 inv.
Proof.
  split; [vm_compute; reflexivity |].
  destruct (@invertMatrix_outcomes float float_arith 2 [[2; 1]; [1; 1]]%float)
    as [H | H].
  - split; [reflexivity | repeat constructor].
  - exact H.
  - vm_compute in H. discriminate.
Defined.

(** X3.  [multiplyMatrices] of an [r] by [k] and a [k'] by [c] matrix, both
    with at least one row: when [k <= k'] the product has [r] rows of
    [c] entries (rows of the second matrix beyond [k] are not read); when
    [k > k'] and there is a column, reading the missing row throws a
    [TypeError]; and so does a matrix without rows. *)
Theorem multiplyMatrices_shapes {F : Type} {AF : Arith F}
        (r k k' c : nat) (A B : matrix (F:=F)) :
  hasShape (S r) k A -> hasShape (S k') c B ->
  ((k <= S k')%nat ->
   exists C, multiplyMatrices A B = Ok C /\ hasShape (S r) c C)
  /\ ((S k' < k)%nat -> (0 < c)%nat -> multiplyMatrices A B = Throw TypeError)
  /\ multiplyMatrices [] B = Throw TypeError
  /\ multiplyMatrices A [] = Throw TypeError.
Proof.
  intros HA HB. split; [apply (multiplyMatrices_shape HA HB) |].
  destruct HA as [HlenA HrowsA], HB as [HlenB HrowsB].
  destruct A as [| a0 A']; [discriminate |].
  destruct B as [| b0 B']; [discriminate |].
  assert (Ha0 : length a0 = k) by now inversion HrowsA.
  assert (Hb0 : length b0 = c) by now inversion HrowsB.
  repeat split.
  intros Hk Hc. unfold multiplyMatrices. rewrite Ha0, Hb0, HlenB.
  destruct (Nat.ltb_spec (S k') k); [| lia].
  destruct (Nat.ltb_spec 0 c); [reflexivity | lia].
Qed.

Lemma multiplyMatrices_shapes_witness :
  (exists C, multiplyMatrices (F:=float) [[1; 2]]%float [[3]; [4]; [5]]%float = Ok C
             /\ hasShape 1 1 C)
  /\ multiplyMatrices (F:=float) [[1; 2; 3]]%float [[3]; [4]]%float = Throw TypeError.
Proof.
  assert (H12 : hasShape 1 2 [[1; 2]]%float) by (split; [reflexivity | repeat constructor]).
  assert (H13 : hasShape 1 3 [[1; 2; 3]]%float) by (split; [reflexivity | repeat constructor]).
  assert (H31 : hasShape 3 1 [[3]; [4]; [5]]%float)
    by (split; [reflexivity | repeat constructor]).
  assert (H21 : hasShape 2 1 [[3]; [4]]%float) by (split; [reflexivity | repeat constructor]).
  split.
  - apply (proj1 (multiplyMatrices_shapes H12 H31)). lia.
  - apply (proj1 (proj2 (multiplyMatrices_shapes H13 H21))); lia.
Defined.

(* ================================================================== *)
(** ** The inverse in exact arithmetic *)

Section ExactInverse.

Context {F : Type} {AF : Arith F}.
Local Open Scope js_scope.

Hypothesis Rth : ring_theory zero one add mul sub opp (@eq F).
Hypothesis div_def : forall x d : F, x / d = x * (one / d).
Hypothesis div_self : forall d : F, d <> zero -> d / d = one.
Hypothesis pivot_nonzero : forall x : F, (abs x <? pivotEps) = false -> x <> zero.

Add Ring Finv : Rth.

Variable M : matrix (F:=F).
Variable n : nat.
Hypothesis M_shape : hasShape n n M.

Lemma nth_scaled (d : F) (r : list F) (c : nat) :
  (c < length r)%nat -> nth c (map (fun x => x / d) r) NaN = nth c r NaN / d.
Proof.
  intros Hc. rewrite nth_indep with (d' := NaN / d) by now rewrite length_map.
  apply (map_nth (fun x => x / d)).
Qed.

Lemma rowSolves_scale (j : nat) (d : F) (r : list F) :
  (j < n)%nat -> rowSolves M n j r -> rowSolves M n j (map (fun x => x / d) r).
Proof.
  intros Hj [Hlen Hdot]. split; [now rewrite length_map |].
  rewrite skipn_map, (@dot_scale F AF Rth div_def), Hdot.
  symmetry. apply nth_scaled. lia.
Qed.

Lemma rowSolves_eliminate (j : nat) (f : F) (r ri : list F) :
  (j < n)%nat -> rowSolves M n j r -> rowSolves M n j ri ->
  rowSolves M n j (map2 (fun a b => a - f * b) r ri).
Proof.
  intros Hj [Hlen Hdot] [Hleni Hdoti]. split.
  - rewrite map2_length. lia.
  - rewrite skipn_map2, (@dot_eliminate F AF Rth)
      by (rewrite !length_skipn; lia).
    rewrite Hdot, Hdoti. symmetry.
    apply (map2_nth (fun a b => a - f * b)); lia.
Qed.

Lemma rowsSolve_pivotRows (A : matrix (F:=F)) (i j k : nat) :
  rowsSolve M n A -> (i < n)%nat -> (j < n)%nat -> (k < n)%nat ->
  rowSolves M n j (nth k (pivotRows A i n) []).
Proof.
  intros [Hlen Hrows] Hi Hj Hk. rewrite pivotRows_nth by assumption.
  apply Hrows; [exact Hj |]. now apply pivotSource_bound.
Qed.

Lemma rowsSolve_pivotStep (A A' : matrix (F:=F)) (i : nat) :
  rowsSolve M n A -> (i < n)%nat -> pivotStep A i n = Ok A' -> rowsSolve M n A'.
Proof.
  intros HA Hi Hstep.
  destruct (@pivotStep_rows F AF A A' i n (proj1 HA) Hi Hstep) as [_ [Hlen Hrows]].
  split; [exact Hlen |]. intros j k Hj Hk. rewrite Hrows by exact Hk.
  destruct (Nat.eqb k i).
  - apply rowSolves_scale; [exact Hj |]. now apply rowsSolve_pivotRows.
  - apply rowSolves_eliminate; [exact Hj | | apply rowSolves_scale; [exact Hj |]];
      now apply rowsSolve_pivotRows.
Qed.

Lemma rowsSolve_augment : rowsSolve M n (augment M).
Proof.
  destruct M_shape as [Hlen Hrows]. unfold augment. rewrite Hlen.
  split; [now rewrite mapi_length |]. intros j k Hj Hk.
  rewrite mapi_nth with (da := []) by lia.
  assert (Hrow : length (nth k M []) = n).
  { rewrite Forall_forall in Hrows. apply Hrows. apply nth_In. lia. }
  split.
  - rewrite length_app, length_map, length_seq. lia.
  - rewrite skipn_app, Hrow, Nat.sub_diag, skipn_all2 by lia. cbn [app skipn].
    assert (Hcol : length (columnOf j M) = n) by (unfold columnOf; now rewrite length_map).
    rewrite <- Hcol at 1. rewrite (@dot_unit F AF Rth), Hcol. cbn [Nat.leb andb Nat.add].
    destruct (Nat.ltb_spec k n); [| lia]. rewrite Nat.sub_0_r.
    rewrite app_nth1 by lia. unfold columnOf.
    rewrite nth_indep with (d' := nth j [] NaN) by (rewrite length_map; lia).
    apply (map_nth (fun row => nth j row NaN) M []).
Qed.

(** One pass makes column [i] a column of the identity and leaves the
    columns before it as they are. *)
Lemma columnsDone_pivotStep (A A' : matrix (F:=F)) (i : nat) :
  rowsSolve M n A -> columnsDone i n A -> (i < n)%nat ->
  pivotStep A i n = Ok A' -> columnsDone (S i) n A'.
Proof.
  intros HA Hdone Hi Hstep.
  destruct (@pivotStep_rows F AF A A' i n (proj1 HA) Hi Hstep) as [Hpiv [Hlen Hrows]].
  apply pivot_nonzero in Hpiv.
  pose proof (findMaxRow_bounds A Hi) as Hm.
  assert (Hi0 : (0 < n)%nat) by lia.
  assert (Hlrow : forall k, (k < n)%nat -> length (nth k (pivotRows A i n) []) = (n + n)%nat).
  { intros k Hk. apply (@rowsSolve_pivotRows A i 0 k HA Hi Hi0 Hk). }
  assert (Hls : length (scaledPivotRow A i n) = (n + n)%nat).
  { unfold scaledPivotRow. rewrite length_map. now apply Hlrow. }
  assert (Hsrc : forall c k, (c < i)%nat -> (k < n)%nat ->
             nth c (nth k (pivotRows A i n) []) NaN
             = if Nat.eqb k c then one else zero).
  { intros c k Hc Hk. rewrite pivotRows_nth by (try apply HA; exact Hi).
    unfold pivotSource.
    destruct (Nat.eqb_spec k i) as [-> | Hki].
    - rewrite Hdone by lia.
      destruct (Nat.eqb_spec (findMaxRow A i n) c), (Nat.eqb_spec i c); try lia; reflexivity.
    - destruct (Nat.eqb_spec k (findMaxRow A i n)) as [-> | Hkm].
      + rewrite Hdone by lia.
        destruct (Nat.eqb_spec i c), (Nat.eqb_spec (findMaxRow A i n) c); try lia; reflexivity.
      + now apply Hdone. }
  assert (Hscaled : forall c, (c < n + n)%nat ->
             nth c (scaledPivotRow A i n) NaN
             = nth c (nth i (pivotRows A i n) []) NaN / entry (pivotRows A i n) i i).
  { intros c Hc. unfold scaledPivotRow. apply nth_scaled. now rewrite Hlrow. }
  assert (Helim : forall c k, (c < n + n)%nat -> (k < n)%nat ->
             nth c (eliminatedRow A i n k) NaN
             = nth c (nth k (pivotRows A i n) []) NaN
               - nth i (nth k (pivotRows A i n) []) NaN * nth c (scaledPivotRow A i n) NaN).
  { intros c k Hc Hk. unfold eliminatedRow.
    apply (map2_nth (fun a b => a - nth i (nth k (pivotRows A i n) []) NaN * b));
      [rewrite Hlrow by exact Hk; exact Hc | rewrite Hls; exact Hc]. }
  intros c k Hc Hk. rewrite Hrows by exact Hk.
  destruct (Nat.eq_dec c i) as [-> | Hci].
  - (* the new column *)
    destruct (Nat.eqb_spec k i) as [-> | Hki].
    + rewrite Hscaled by lia. unfold entry. now apply div_self.
    + rewrite Helim, Hscaled by lia. unfold entry.
      rewrite div_self by exact Hpiv. ring.
  - (* an earlier column *)
    assert (Hc' : (c < i)%nat) by lia.
    assert (Hz : nth c (scaledPivotRow A i n) NaN = zero).
    { rewrite Hscaled by lia. rewrite Hsrc by lia.
      destruct (Nat.eqb_spec i c); [lia |]. apply (@div_zero F AF Rth div_def). }
    destruct (Nat.eqb_spec k i) as [-> | Hki].
    + rewrite Hz. destruct (Nat.eqb_spec i c); [lia | reflexivity].
    + rewrite Helim, Hz, Hsrc by lia. ring.
Qed.

Lemma pivotLoop_inverse (len : nat) :
  forall s A A',
    (s + len <= n)%nat -> rowsSolve M n A -> columnsDone s n A ->
    fold_left (fun acc i => A <- acc ;; pivotStep A i n) (seq s len) (Ok A) = Ok A' ->
    rowsSolve M n A' /\ columnsDone (s + len) n A'.
Proof.
  induction len as [| len IH]; intros s A A' Hs HA Hcol Hloop; simpl in Hloop.
  - injection Hloop as <-. rewrite Nat.add_0_r. now split.
  - destruct (pivotStep A s n) as [A1 | e] eqn:Hstep;
      [| rewrite pivotLoop_thrown in Hloop; discriminate].
    assert (HA1 : rowsSolve M n A1)
      by (apply (@rowsSolve_pivotStep A A1 s HA); [lia | exact Hstep]).
    assert (Hcol1 : columnsDone (S s) n A1)
      by (apply (@columnsDone_pivotStep A A1 s); auto; lia).
    destruct (IH (S s) A1 A') as [HA' Hcol']; auto; try lia.
    split; [exact HA' |]. now replace (s + S len)%nat with (S s + len)%nat by lia.
Qed.

(** Row [k] of the inverse, multiplied with column [j] of [M], gives the
    entry [(k, j)] of the identity. *)
Lemma invertMatrix_rows (inv : matrix (F:=F)) :
  invertMatrix M = Ok inv ->
  forall k j, (k < n)%nat -> (j < n)%nat ->
    length (nth k inv []) = n
    /\ dot (nth k inv []) (columnOf j M) = if Nat.eqb k j then one else zero.
Proof.
  unfold invertMatrix. destruct M_shape as [Hlen _]. rewrite Hlen.
  intros H k j Hk Hj. apply bind_ok in H as [A' [Hloop Hinv]]. injection Hinv as <-.
  destruct (@pivotLoop_inverse n 0 (augment M) A') as [[_ Hrows] Hcol]; auto.
  - apply rowsSolve_augment.
  - intros c k' Hc. lia.
  - assert (Hrowk : nth k (map (skipn n) A') [] = skipn n (nth k A' [])).
    { rewrite <- (map_nth (skipn n) A' []). f_equal. now destruct n. }
    rewrite Hrowk.
    destruct (Hrows j k Hj Hk) as [Hl Hdot].
    split; [rewrite length_skipn; lia |]. rewrite Hdot.
    apply Hcol; assumption.
Qed.

End ExactInverse.

(* ================================================================== *)
(** ** The filter on polynomials, in exact arithmetic *)

Section ExactMoments.

Context {F : Type} {AF : Arith F}.
Local Open Scope js_scope.

Hypothesis Rth : ring_theory zero one add mul sub opp (@eq F).
Hypothesis div_def : forall x d : F, x / d = x * (one / d).
Hypothesis div_self : forall d : F, d <> zero -> d / d = one.
Hypothesis ofZ_zero : ofZ 0 = zero.
Hypothesis ofZ_one : ofZ 1 = one.
Hypothesis pivot_nonzero : forall x : F, (abs x <? pivotEps) = false -> x <> zero.

Add Ring Fmom : Rth.

Lemma dot_comm (c v : list F) : dot c v = dot v c.
Proof.
  revert v; induction c as [| x c IH]; intros [| y v]; simpl; try reflexivity.
  rewrite IH. ring.
Qed.

Lemma dot_nil_r (c : list F) : dot c [] = zero.
Proof. now destruct c. Qed.

Lemma dot_map_zero {A : Type} (l : list A) (c : list F) :
  dot (map (fun _ => zero) l) c = zero.
Proof.
  revert c; induction l as [| a l IH]; intros [| y c]; simpl; try reflexivity.
  rewrite IH. ring.
Qed.

Lemma dot_map_linear {A : Type} (x : F) (f g : A -> F) (l : list A) (c : list F) :
  dot (map (fun a => x * f a + g a) l) c = x * dot (map f l) c + dot (map g l) c.
Proof.
  revert c; induction l as [| a l IH]; intros [| y c]; simpl; try ring.
  rewrite IH. ring.
Qed.

(** Summing the dot products with the columns, weighted by [v], is the
    dot product with the weighted rows. *)
Lemma dot_columns (w : nat) (c v : list F) :
  length v = w ->
  forall rows,
    Forall (fun r => length r = w) rows ->
    dot (map (fun i => dot c (columnOf i rows)) (seq 0 w)) v
    = dot c (map (fun r => dot r v) rows).
Proof.
  intros Hv. induction c as [| x c IH]; intros rows Hrows.
  - simpl. apply dot_map_zero.
  - destruct rows as [| r rows].
    + simpl. apply dot_map_zero.
    + inversion Hrows as [| r' rows' Hr Hrows']; subst.
      rewrite (map_ext _ (fun i => x * nth i r NaN + dot c (columnOf i rows)))
        by reflexivity.
      rewrite (dot_map_linear x (fun i => nth i r NaN) (fun i => dot c (columnOf i rows))).
      rewrite IH by exact Hrows'.
      rewrite <- Hr, map_nth_seq. reflexivity.
Qed.

(** Column [j] of the design matrix holds the powers [o^j] of the
    offsets. *)
Lemma designMatrix_column (half p : Z) (j : nat) :
  (Z.of_nat j <= p)%Z ->
  columnOf j (designMatrix half p) = powerColumn half (Z.of_nat j).
Proof.
  intros Hj. unfold columnOf, designMatrix, powerColumn. rewrite map_map.
  apply map_ext. intros o.
  rewrite nth_indep with (d' := ofZ (o ^ 0))
    by (rewrite length_map, zrange_length; lia).
  rewrite (map_nth (fun q => ofZ (o ^ q))), zrange_nth by lia.
  reflexivity.
Qed.

(** The rows of a product are dot products with the columns. *)
Lemma product_rows (r k c : nat) (A B C : matrix (F:=F)) :
  hasShape r k A -> hasShape k c B -> multiplyMatrices A B = Ok C ->
  C = map (fun rowA => map (fun j => dot rowA (columnOf j B)) (seq 0 c)) A.
Proof.
  intros [HlenA HrowsA] [HlenB HrowsB] HC.
  pose proof (multiplyMatrices_rows _ _ HC) as ->.
  destruct A as [| a0 A']; [discriminate |].
  destruct B as [| b0 B']; [discriminate |].
  assert (Hb0 : length b0 = c) by now inversion HrowsB.
  assert (Ha0 : length a0 = k) by now inversion HrowsA.
  cbn [nth]. rewrite Hb0, Ha0.
  apply map_ext_in. intros row Hin. apply map_ext. intros j.
  rewrite Forall_forall in HrowsA. rewrite <- (HrowsA row Hin).
  apply (@product_entry F AF Rth). rewrite (HrowsA row Hin). now rewrite HlenB.
Qed.

Lemma nth_map_rows {A : Type} (f : list F -> A) (d : A) (rows : matrix (F:=F)) (k : nat) :
  (k < length rows)%nat -> nth k (map f rows) d = f (nth k rows []).
Proof.
  intros Hk. rewrite nth_indep with (d' := f []) by now rewrite length_map.
  apply map_nth.
Qed.

(** The moment conditions: row [r] of the pseudo-inverse, multiplied with
    the powers [o^j] of the offsets, gives 1 for [j = r] and 0 for the
    other powers up to the order. *)
Lemma pseudoInverse_moments (half p : Z) (P : matrix (F:=F)) (r j : nat) :
  (0 <= half)%Z -> pseudoInverse half p = Ok (Some P) ->
  (Z.of_nat r <= p)%Z -> (Z.of_nat j <= p)%Z ->
  length (nth r P []) = Z.to_nat (2 * half + 1)
  /\ dot (powerColumn half (Z.of_nat j)) (nth r P [])
     = if Nat.eqb r j then one else zero.
Proof.
  intros Hh HP Hr Hj.
  assert (Hp : (0 <= p)%Z) by lia.
  destruct (@normalMatrix_shape F AF half p Hh Hp)
    as [AT [ATA [HT [HATs [HM HMs]]]]].
  pose proof (designMatrix_shape (F:=F) half p) as HAs.
  unfold pseudoInverse in HP. rewrite HT in HP; cbn [bind] in HP.
  rewrite HM in HP; cbn [bind] in HP.
  destruct (invertMatrix ATA) as [inv | e] eqn:Hinv; [| discriminate].
  apply bind_ok in HP as [P' [HP' HP]]. injection HP as <-.
  pose proof (invertMatrix_shape HMs Hinv) as Hinvs.
  set (m := Z.to_nat (p + 1)) in *. set (w := Z.to_nat (2 * half + 1)) in *.
  assert (Hrm : (r < m)%nat) by (subst m; lia).
  assert (Hjm : (j < m)%nat) by (subst m; lia).
  destruct (@invertMatrix_rows F AF Rth div_def div_self pivot_nonzero
              ATA m HMs inv Hinv r j Hrm Hjm) as [Hlr Hdot].
  rewrite (@product_rows m m w inv AT P' Hinvs HATs HP').
  rewrite nth_map_rows by (destruct Hinvs as [-> _]; exact Hrm).
  split; [now rewrite length_map, length_seq |].
  rewrite dot_comm.
  rewrite <- (@designMatrix_column half p j Hj).
  rewrite dot_columns with (w := w);
    [| unfold columnOf; rewrite length_map; apply HAs | apply HATs].
  rewrite <- Hdot. f_equal.
  rewrite (@product_rows m w m AT (designMatrix half p) ATA HATs HAs HM).
  unfold columnOf at 2. rewrite map_map. apply map_ext. intros row.
  rewrite nth_indep with (d' := dot row (columnOf 0%nat (designMatrix half p)))
    by now rewrite length_map, length_seq.
  rewrite (map_nth (fun q => dot row (columnOf q (designMatrix half p)))).
  now rewrite seq_nth.
Qed.

(** The filter loop is the dot product of the window with the
    coefficients. *)
Lemma convolveAt_dot (data coeffs : list F) (half : Z) (i : nat) :
  (0 <= half)%Z -> length coeffs = Z.to_nat (2 * half + 1) ->
  convolveAt (length data) data coeffs half i = dot (windowAt data half i) coeffs.
Proof.
  intros Hh Hlen. unfold convolveAt, windowAt.
  rewrite (@fold_left_dotFrom F AF), (@dotFrom_dot F AF Rth), coeffs_by_offset by assumption.
  ring.
Qed.

Lemma dot_poly (half : Z) (coeffs : list F) (r : nat) :
  forall b j,
    (forall k, (j <= k < j + length b)%nat ->
               dot (powerColumn half (Z.of_nat k)) coeffs
               = if Nat.eqb r k then one else zero) ->
    dot (map (polyFrom (Z.of_nat j) b) (zrange (- half) half)) coeffs
    = if (j <=? r)%nat then nth (r - j) b zero else zero.
Proof.
  induction b as [| x b IH]; intros j Hmom.
  - cbn [polyFrom]. rewrite dot_map_zero.
    destruct (j <=? r)%nat; [now destruct (r - j)%nat | reflexivity].
  - cbn [polyFrom].
    rewrite (dot_map_linear x (fun o => ofZ (o ^ Z.of_nat j))
               (polyFrom (Z.of_nat j + 1) b)).
    fold (powerColumn (F:=F) half (Z.of_nat j)).
    rewrite Hmom by (simpl; lia).
    replace (Z.of_nat j + 1)%Z with (Z.of_nat (S j)) by lia.
    rewrite IH by (intros k Hk; apply Hmom; simpl; lia).
    destruct (Nat.eqb_spec r j) as [-> | Hne].
    + rewrite Nat.leb_refl, Nat.sub_diag.
      destruct (Nat.leb_spec (S j) j); [lia |]. cbn [nth]. ring.
    + destruct (Nat.leb_spec j r), (Nat.leb_spec (S j) r); try lia; [| ring].
      replace (r - j)%nat with (S (r - S j)) by lia. cbn [nth]. ring.
Qed.

(** A window that lies on a polynomial of degree at most the order gives,
    with row [r] of the pseudo-inverse, the coefficient [r] of the
    polynomial. *)
Lemma window_polynomial (half p : Z) (P : matrix (F:=F)) (r : nat)
      (data b : list F) (i : nat) :
  (0 <= half)%Z -> pseudoInverse half p = Ok (Some P) ->
  (Z.of_nat r <= p)%Z -> (Z.of_nat (length b) <= p + 1)%Z ->
  windowAt data half i = map (polyAt b) (zrange (- half) half) ->
  convolveAt (length data) data (nth r P []) half i = nth r b zero.
Proof.
  intros Hh HP Hr Hb Hwin.
  destruct (@pseudoInverse_moments half p P r 0 Hh HP Hr ltac:(lia)) as [Hlen _].
  rewrite convolveAt_dot, Hwin by assumption.
  change (map (polyAt b) (zrange (- half) half))
    with (map (polyFrom (Z.of_nat 0) b) (zrange (- half) half)).
  rewrite (@dot_poly half (nth r P []) r b 0).
  - cbn [Nat.leb]. now rewrite Nat.sub_0_r.
  - intros k Hk. apply (@pseudoInverse_moments half p P r k); auto. lia.
Qed.

(** The value of a polynomial at offset 0 is its constant term. *)
Lemma polyFrom_zero (b : list F) :
  forall j, (0 < j)%Z -> polyFrom j b 0 = zero.
Proof.
  induction b as [| x b IH]; intros j Hj; cbn [polyFrom]; [reflexivity |].
  rewrite Z.pow_0_l by exact Hj. rewrite ofZ_zero, IH by lia. ring.
Qed.

Lemma polyAt_zero (b : list F) : polyAt b 0 = nth 0 b zero.
Proof.
  unfold polyAt. destruct b as [| x b]; cbn [polyFrom nth]; [reflexivity |].
  rewrite Z.pow_0_r, ofZ_one, polyFrom_zero by lia. ring.
Qed.

Lemma nth_map_zrange (f : Z -> F) (lo hi : Z) (k : nat) (d : F) :
  (k < Z.to_nat (hi - lo + 1))%nat ->
  nth k (map f (zrange lo hi)) d = f (lo + Z.of_nat k)%Z.
Proof.
  intros Hk. rewrite nth_indep with (d' := f 0%Z)
    by (rewrite length_map, zrange_length; exact Hk).
  rewrite (map_nth f), zrange_nth by exact Hk. reflexivity.
Qed.

Lemma windowAt_centre (data : list F) (half : Z) (i : nat) (f : Z -> F) :
  (0 <= half)%Z -> (i < length data)%nat ->
  windowAt data half i = map f (zrange (- half) half) ->
  nth i data NaN = f 0%Z.
Proof.
  intros Hh Hi Hwin.
  apply (f_equal (fun l => nth (Z.to_nat half) l NaN)) in Hwin.
  unfold windowAt in Hwin. cbv beta in Hwin.
  rewrite !nth_map_zrange in Hwin by lia.
  replace (- half + Z.of_nat (Z.to_nat half))%Z with 0%Z in Hwin by lia.
  rewrite <- Hwin. f_equal. unfold clampIndex.
  destruct (Z.ltb_spec (Z.of_nat i + 0) 0); [lia |].
  destruct (Z.geb_spec (Z.of_nat i + 0) (Z.of_nat (length data))); lia.
Qed.

(** Smoothing leaves a sample unchanged when the samples of its window
    lie on a polynomial of degree at most the order. *)
Lemma savitzkyGolay_polynomial (data b : list F) (windowSize polyOrder : Q) (i : nat) :
  (i < length data)%nat ->
  (Z.of_nat (length b) <= smoothOrder windowSize polyOrder + 1)%Z ->
  windowAt data (smoothHalf windowSize) i
  = map (polyAt b) (zrange (- smoothHalf windowSize) (smoothHalf windowSize)) ->
  exists out,
    savitzkyGolay data windowSize polyOrder = Ok out
    /\ nth i out NaN = nth i data NaN.
Proof.
  intros Hi Hb Hwin.
  assert (Hne : data <> []) by (destruct data; simpl in Hi; [lia | discriminate]).
  rewrite savitzkyGolay_unfold by exact Hne.
  pose proof (smoothHalf_pos windowSize) as Hh.
  pose proof (smoothOrder_bounds windowSize polyOrder) as Hp.
  destruct (@pseudoInverse_shape F AF (smoothHalf windowSize)
              (smoothOrder windowSize polyOrder)) as [-> | [P [HP [Hlen _]]]];
    try lia.
  { exists data. split; reflexivity. }
  rewrite HP. cbn [bind].
  destruct (nth_error P 0) as [coeffs |] eqn:Hc;
    [| destruct P; [simpl in Hlen; lia | discriminate]].
  eexists. split; [reflexivity |].
  rewrite nth_indep with (d' := convolveAt (length data) data coeffs (smoothHalf windowSize) 0)
    by now rewrite length_map, length_seq.
  rewrite (map_nth (convolveAt (length data) data coeffs (smoothHalf windowSize))).
  rewrite seq_nth by exact Hi. cbn [Nat.add].
  assert (Hc0 : coeffs = nth 0 P []) by (destruct P; [discriminate | now injection Hc]).
  rewrite Hc0.
  rewrite (@window_polynomial (smoothHalf windowSize) (smoothOrder windowSize polyOrder)
             P 0 data b i) by (auto; lia).
  rewrite (@windowAt_centre data (smoothHalf windowSize) i (polyAt b)) by (auto; lia).
  now rewrite polyAt_zero.
Qed.

(** The derivative filter gives the linear coefficient of the polynomial,
    divided by the first time step, unless the inversion fell back. *)
Lemma calculateDerivativeSG_polynomial (t signal b : list F) (windowSize polyOrder : Q)
      (i : nat) :
  (3 <= length signal)%nat -> (i < length signal)%nat ->
  (0 <= Qfloor (windowSize / 2))%Z -> (1 <= Qfloor polyOrder)%Z ->
  (Z.of_nat (length b) <= Qfloor polyOrder + 1)%Z ->
  windowAt signal (Qfloor (windowSize / 2)) i
  = map (polyAt b) (zrange (- Qfloor (windowSize / 2)) (Qfloor (windowSize / 2))) ->
  pseudoInverse (F:=F) (Qfloor (windowSize / 2)) (Qfloor polyOrder) <> Ok None ->
  exists out,
    calculateDerivativeSG t signal windowSize polyOrder = Ok out
    /\ nth i out NaN = nth 1 b zero / (nth 1 t NaN - nth 0 t NaN).
Proof.
  intros Hn Hi Hh Hp Hb Hwin Hinv. unfold calculateDerivativeSG.
  destruct (Nat.ltb_spec (length signal) 3) as [Hlt | _]; [lia |].
  destruct (@pseudoInverse_shape F AF (Qfloor (windowSize / 2)) (Qfloor polyOrder))
    as [HP | [P [HP [Hlen _]]]]; try lia; [contradiction |].
  rewrite HP. cbn [bind].
  destruct (nth_error P 1) as [coeffs |] eqn:Hc.
  2:{ apply nth_error_None in Hc. lia. }
  eexists. split; [reflexivity |].
  set (g := fun k => convolveAt (length signal) signal coeffs (Qfloor (windowSize / 2)) k
                     / (nth 1 t NaN - nth 0 t NaN)).
  rewrite nth_indep with (d' := g 0%nat) by now rewrite length_map, length_seq.
  rewrite (map_nth g). rewrite seq_nth by exact Hi. cbn [Nat.add]. unfold g.
  assert (Hc1 : coeffs = nth 1 P []) by (symmetry; now apply nth_error_nth).
  rewrite Hc1.
  rewrite (@window_polynomial (Qfloor (windowSize / 2)) (Qfloor polyOrder)
             P 1 signal b i) by (auto; lia).
  reflexivity.
Qed.

End ExactMoments.

(* ================================================================== *)
(** ** Exact rationals: the inverse and the filter on polynomials *)

Lemma Qc_matrix_inj (m1 m2 : list (list Qc)) :
  map (map this) m1 = map (map this) m2 -> m1 = m2.
Proof.
  revert m2; induction m1 as [| r1 m1 IH]; intros [| r2 m2] H; simpl in H;
    try discriminate; [reflexivity |].
  injection H as Hr Hm. f_equal; [now apply Qc_list_inj | now apply IH].
Qed.

(** X4.  Without rounding, what [invertMatrix] returns for a square matrix is
    its inverse: multiplied with the matrix it gives the identity. *)
Theorem invertMatrix_left_inverse (n : nat) (m inv : matrix (F:=Qc)) :
  hasShape (S n) (S n) m -> invertMatrix m = Ok inv ->
  hasShape (S n) (S n) inv
  /\ multiplyMatrices inv m = Ok (identityMatrix (S n)).
Proof.
  intros Hm Hinv.
  pose proof (invertMatrix_shape Hm Hinv) as Hs.
  split; [exact Hs |].
  destruct (multiplyMatrices_shape Hs Hm (Nat.le_refl _)) as [C [HC _]].
  rewrite HC. f_equal.
  rewrite (@product_rows Qc Qc_arith Qcrt (S n) (S n) (S n) inv m C Hs Hm HC).
  unfold identityMatrix.
  rewrite <- (map_nth_seq inv []) at 1. rewrite map_map.
  destruct Hs as [Hlen _]. rewrite Hlen.
  apply map_ext_in. intros k Hk. apply in_seq in Hk.
  apply map_ext_in. intros j Hj. apply in_seq in Hj.
  apply (@invertMatrix_rows Qc Qc_arith Qcrt Qc_div_def Qc_div_self Qc_pivot_nonzero
           m (S n) Hm inv Hinv k j); lia.
Qed.

(** The matrix with rows (2, 1) and (1, 1). *)
Lemma invertMatrix_left_inverse_witness :
  exists inv,
    invertMatrix (F:=Qc) (map (map Exact.ofZ) [[2; 1]; [1; 1]]%Z) = Ok inv
    /\ map (map this) inv = [[1; -1]; [-1; 2]]%Q
    /\ multiplyMatrices inv (map (map Exact.ofZ) [[2; 1]; [1; 1]]%Z)
       = Ok (identityMatrix 2).
Proof.
  destruct (invertMatrix (F:=Qc) (map (map Exact.ofZ) [[2; 1]; [1; 1]]%Z))
    as [inv | e] eqn:Hinv; [| vm_compute in Hinv; discriminate].
  exists inv. split; [reflexivity |]. split.
  - assert (H : Ok inv = Ok (map (map Q2Qc) [[1; -1]; [-1; 2]]%Q)).
    { rewrite <- Hinv. 
      assert (Hm : forall r1 r2 : result (list (list Qc)),
                 match r1, r2 with
                 | Ok a, Ok b => map (map this) a = map (map this) b
                 | Throw a, Throw b => a = b
                 | _, _ => False
                 end -> r1 = r2).
      { intros [a | a] [b | b] H; try contradiction; f_equal;
          [now apply Qc_matrix_inj | exact H]. }
      apply Hm. vm_compute. reflexivity. }
    injection H as ->. vm_compute. reflexivity.
  - apply (@invertMatrix_left_inverse 1 _ inv); [| exact Hinv].
    split; [reflexivity | repeat constructor].
Defined.

(** X5.  Without rounding, smoothing leaves a sample as it is when the samples
    of its window (clamped at the ends) lie on a polynomial of degree at
    most the order: [b] lists the coefficients of that polynomial in the
    offset from the sample. *)
Theorem smoothing_keeps_polynomial_samples
        (data b : list Qc) (windowSize polyOrder : Q) (i : nat) :
  (i < length data)%nat ->
  (Z.of_nat (length b) <= smoothOrder windowSize polyOrder + 1)%Z ->
  windowAt data (smoothHalf windowSize) i
  = map (polyAt b) (zrange (- smoothHalf windowSize) (smoothHalf windowSize)) ->
  exists out,
    savitzkyGolay data windowSize polyOrder = Ok out
    /\ nth i out NaN = nth i data NaN.
Proof.
  apply (@savitzkyGolay_polynomial Qc Qc_arith Qcrt Qc_div_def Qc_div_self
           eq_refl eq_refl Qc_pivot_nonzero).
Qed.

(** The squares 0, 1, 4, ..., 36 under window 5 and order 2: around
    index 3 the samples are 9 + 6 o + o^2. *)
Lemma smoothing_keeps_polynomial_samples_witness :
  exists out,
    savitzkyGolay (F:=Qc) (map Exact.ofZ [0; 1; 4; 9; 16; 25; 36]%Z) 5 2 = Ok out
    /\ nth 3 out NaN = Exact.ofZ 9.
Proof.
  apply (@smoothing_keeps_polynomial_samples
           (map Exact.ofZ [0; 1; 4; 9; 16; 25; 36]%Z) (map Exact.ofZ [9; 6; 1]%Z) 5 2 3).
  - simpl. lia.
  - vm_compute. discriminate.
  - apply Qc_list_inj. vm_compute. reflexivity.
Defined.

(** X6.  Without rounding, and unless the inversion fell back, the derivative
    filter gives at a sample whose window lies on a polynomial of degree
    at most the order the linear coefficient of that polynomial, divided
    by the first time step [t[1] - t[0]]. *)
Theorem derivative_of_polynomial_samples
        (t signal b : list Qc) (windowSize polyOrder : Q) (i : nat) :
  (3 <= length signal)%nat -> (i < length signal)%nat ->
  (0 <= Qfloor (windowSize / 2))%Z -> (1 <= Qfloor polyOrder)%Z ->
  (Z.of_nat (length b) <= Qfloor polyOrder + 1)%Z ->
  windowAt signal (Qfloor (windowSize / 2)) i
  = map (polyAt b) (zrange (- Qfloor (windowSize / 2)) (Qfloor (windowSize / 2))) ->
  pseudoInverse (F:=Qc) (Qfloor (windowSize / 2)) (Qfloor polyOrder) <> Ok None ->
  exists out,
    calculateDerivativeSG t signal windowSize polyOrder = Ok out
    /\ nth i out NaN = div (nth 1 b zero) (sub (nth 1 t NaN) (nth 0 t NaN)).
Proof.
  apply (@calculateDerivativeSG_polynomial Qc Qc_arith Qcrt Qc_div_def Qc_div_self
           Qc_pivot_nonzero).
Qed.

(** The squares again, sampled every 2 time units: at index 3 the
    derivative is 6 / 2. *)
Lemma derivative_of_polynomial_samples_witness :
  exists out,
    calculateDerivativeSG (F:=Qc) (map Exact.ofZ [0; 2; 4; 6; 8; 10; 12]%Z)
                          (map Exact.ofZ [0; 1; 4; 9; 16; 25; 36]%Z) 5 2 = Ok out
    /\ nth 3 out NaN = div (Exact.ofZ 6) (Exact.ofZ 2).
Proof.
  apply (@derivative_of_polynomial_samples
           (map Exact.ofZ [0; 2; 4; 6; 8; 10; 12]%Z)
           (map Exact.ofZ [0; 1; 4; 9; 16; 25; 36]%Z)
           (map Exact.ofZ [9; 6; 1]%Z) 5 2 3).
  - simpl. lia.
  - simpl. lia.
  - vm_compute. discriminate.
  - vm_compute. discriminate.
  - vm_compute. discriminate.
  - apply Qc_list_inj. vm_compute. reflexivity.
  - intros H. vm_compute in H. discriminate.
Defined.

(* ================================================================== *)
(** ** The parameters of the two filters *)

Lemma Qfloor_inject_Z (z : Z) : Qfloor (inject_Z z) = z.
Proof. unfold Qfloor, inject_Z. cbn. apply Z.div_1_r. Qed.

Lemma normWindow_fixed (windowSize : Q) :
  normWindow (inject_Z (normWindow windowSize)) = normWindow windowSize.
Proof.
  destruct (normWindow_spec windowSize) as [H3 Hodd].
  unfold normWindow at 1. rewrite Qfloor_inject_Z.
  rewrite Z.max_r by lia.
  rewrite Zodd_mod in Hodd. apply Z.eqb_eq in Hodd. rewrite Hodd. reflexivity.
Qed.

Lemma normOrder_fixed (w : Z) (polyOrder : Q) :
  (3 <= w)%Z -> normOrder w (inject_Z (normOrder w polyOrder)) = normOrder w polyOrder.
Proof.
  intros Hw. pose proof (normOrder_spec polyOrder Hw) as Hp.
  unfold normOrder at 1. rewrite Qfloor_inject_Z.
  rewrite Z.max_r by lia.
  destruct (Z.geb_spec (normOrder w polyOrder) w); [lia | reflexivity].
Qed.

(** X7.  [savitzkyGolay] works with the normalised parameters only: any
    window gives the result of the odd window of at least 3 it is
    normalised to, any order that of the order between 1 and the window
    minus 1. *)
Theorem savitzkyGolay_normalised {F : Type} {AF : Arith F}
        (data : list F) (windowSize polyOrder : Q) :
  savitzkyGolay data windowSize polyOrder
  = savitzkyGolay data (inject_Z (normWindow windowSize))
                  (inject_Z (smoothOrder windowSize polyOrder))
  /\ (3 <= normWindow windowSize)%Z
  /\ Z.odd (normWindow windowSize) = true
  /\ (1 <= smoothOrder windowSize polyOrder < normWindow windowSize)%Z.
Proof.
  split.
  - destruct data as [| d0 data']; [reflexivity |].
    rewrite !savitzkyGolay_unfold by discriminate.
    unfold smoothHalf, smoothOrder.
    rewrite normWindow_fixed, normOrder_fixed by apply normWindow_spec.
    reflexivity.
  - destruct (normWindow_spec windowSize) as [H3 Hodd].
    repeat split; try assumption; apply smoothOrder_bounds.
Qed.

(** X8.  [calculateDerivativeSG] returns an array of the length of the signal
    whenever the window has at least one sample ([windowSize >= 0]) and
    the order is at least 1; with fewer than 3 samples it returns zeros
    whatever the parameters are. *)
Theorem derivative_returns {F : Type} {AF : Arith F}
        (t signal : list F) (windowSize polyOrder : Q) :
  ((length signal < 3)%nat ->
   calculateDerivativeSG t signal windowSize polyOrder = Ok (repeat zero (length signal)))
  /\ ((0 <= Qfloor (windowSize / 2))%Z -> (1 <= Qfloor polyOrder)%Z ->
      exists out, calculateDerivativeSG t signal windowSize polyOrder = Ok out
                  /\ length out = length signal).
Proof.
  split.
  - intros Hn. unfold calculateDerivativeSG.
    destruct (Nat.ltb_spec (length signal) 3); [reflexivity | lia].
  - apply calculateDerivativeSG_ok.
Qed.

Lemma derivative_returns_witness :
  calculateDerivativeSG (F:=float) [0; 1]%float [5; 7]%float (-4) 0 = Ok [0; 0]%float
  /\ exists out,
       calculateDerivativeSG (F:=float) [0; 1; 2; 3]%float [1; 3; 5; 7]%float 3 1 = Ok out
       /\ length out = 4%nat.
Proof.
  split.
  - apply (proj1 (@derivative_returns float float_arith [0; 1]%float [5; 7]%float (-4) 0)).
    simpl. lia.
  - apply (proj2 (@derivative_returns float float_arith [0; 1; 2; 3]%float
                    [1; 3; 5; 7]%float 3 1)); vm_compute; discriminate.
Defined.

(* ================================================================== *)
(** ** The filter of close points only drops points *)

Lemma subseq_refl {A : Type} (l : list A) : subseq l l.
Proof. induction l; constructor; assumption. Qed.

Lemma subseq_trans {A : Type} (l1 l2 l3 : list A) :
  subseq l1 l2 -> subseq l2 l3 -> subseq l1 l3.
Proof.
  intros H12 H23. revert l1 H12.
  induction H23 as [| x l2 l3 H IH | x l2 l3 H IH]; intros l1 H12.
  - exact H12.
  - inversion H12; subst; constructor; auto.
  - constructor. auto.
Qed.

Section DedupSubsequence.

Context {F : Type} {AF : Arith F} {V : Type}.
Variable undef : V.
Variable minDistance : F.

Lemma sweepFrom_subseq (outT : list F) :
  forall last outY,
    length outY = length outT ->
    subseq (combine (fst (sweepFrom undef minDistance last outT outY))
                    (snd (sweepFrom undef minDistance last outT outY)))
           (combine outT outY)
    /\ length (fst (sweepFrom undef minDistance last outT outY))
       = length (snd (sweepFrom undef minDistance last outT outY)).
Proof.
  induction outT as [| ti restT IH]; intros last outY Hlen.
  - destruct outY; [| discriminate]. simpl. split; [constructor | reflexivity].
  - destruct outY as [| y outY]; [discriminate |]. simpl in Hlen.
    cbn [sweepFrom tl hd].
    destruct (leb minDistance (sub ti last)).
    + destruct (IH ti outY ltac:(lia)) as [Hs Hl].
      destruct (sweepFrom undef minDistance ti restT outY) as [newT newY].
      cbn [fst snd combine length] in *. split; [now constructor | lia].
    + destruct (IH last outY ltac:(lia)) as [Hs Hl].
      split; [| exact Hl]. cbn [combine]. now constructor.
Qed.

Lemma sweep_subseq (outT : list F) (outY : list V) :
  outT <> [] -> length outY = length outT ->
  subseq (combine (fst (sweep undef minDistance outT outY))
                  (snd (sweep undef minDistance outT outY)))
         (combine outT outY)
  /\ length (fst (sweep undef minDistance outT outY))
     = length (snd (sweep undef minDistance outT outY))
  /\ hd_error (fst (sweep undef minDistance outT outY)) = hd_error outT.
Proof.
  intros Hne Hlen. destruct outT as [| t0 restT]; [congruence |].
  destruct outY as [| y outY]; [discriminate |]. simpl in Hlen.
  cbn [sweep tl hd].
  destruct (@sweepFrom_subseq restT t0 outY ltac:(lia)) as [Hs Hl].
  destruct (sweepFrom undef minDistance t0 restT outY) as [newT newY].
  cbn [fst snd combine length hd_error] in *.
  split; [now constructor |]. split; [lia | reflexivity].
Qed.

Lemma passes_subseq (k : nat) :
  forall outT outY,
    outT <> [] -> length outY = length outT ->
    subseq (combine (fst (passes undef minDistance k outT outY))
                    (snd (passes undef minDistance k outT outY)))
           (combine outT outY)
    /\ length (fst (passes undef minDistance k outT outY))
       = length (snd (passes undef minDistance k outT outY))
    /\ hd_error (fst (passes undef minDistance k outT outY)) = hd_error outT.
Proof.
  induction k as [| k IH]; intros outT outY Hne Hlen; cbn [passes].
  - cbn [fst snd]. split; [apply subseq_refl |]. split; [now symmetry | reflexivity].
  - destruct (@sweep_subseq outT outY Hne Hlen) as [Hs [Hl Hh]].
    pose proof (sweep_nonempty undef minDistance outT outY) as Hne'.
    destruct (sweep undef minDistance outT outY) as [newT newY].
    cbn [fst snd] in *.
    destruct (length newT =? length outT)%nat.
    + cbn [fst snd]. split; [apply subseq_refl |]. split; [now symmetry | reflexivity].
    + destruct (IH newT newY Hne' (eq_sym Hl)) as [Hs' [Hl' Hh']].
      split; [eapply subseq_trans; eassumption |].
      split; [exact Hl' | congruence].
Qed.

End DedupSubsequence.

Lemma filterClosePoints_subseq {F : Type} {AF : Arith F} {V : Type}
      (undef : V) (minDistance : F) (t0 : list F) (y0 : list V) :
  length y0 = length t0 ->
  subseq (combine (fst (filterClosePoints undef minDistance t0 y0))
                  (snd (filterClosePoints undef minDistance t0 y0)))
         (combine t0 y0)
  /\ length (fst (filterClosePoints undef minDistance t0 y0))
     = length (snd (filterClosePoints undef minDistance t0 y0))
  /\ hd_error (fst (filterClosePoints undef minDistance t0 y0)) = hd_error t0.
Proof.
  intros Hlen. unfold filterClosePoints.
  destruct (Nat.leb_spec (length t0) 1) as [Hshort | Hlong].
  - cbn [fst snd]. split; [apply subseq_refl |]. split; [now symmetry | reflexivity].
  - apply passes_subseq; [| exact Hlen]. destruct t0; simpl in *; [lia | discriminate].
Qed.

(** X9.  [filterClosePoints] only drops points: the kept (time, value) pairs
    are the input pairs with some left out, in the same order; the two
    output arrays have the same length; and the first point is always
    kept. *)
Theorem filterClosePoints_drops_only {F : Type} {AF : Arith F} {V : Type}
        (undef : V) (minDistance : F) (t0 : list F) (y0 : list V) :
  length y0 = length t0 ->
  subseq (combine (fst (filterClosePoints undef minDistance t0 y0))
                  (snd (filterClosePoints undef minDistance t0 y0)))
         (combine t0 y0)
  /\ length (fst (filterClosePoints undef minDistance t0 y0))
     = length (snd (filterClosePoints undef minDistance t0 y0))
  /\ hd_error (fst (filterClosePoints undef minDistance t0 y0)) = hd_error t0.
Proof. apply filterClosePoints_subseq. Qed.

Lemma filterClosePoints_drops_only_witness :
  subseq [(0, 1%nat); (0.12, 3%nat); (0.3, 5%nat)]%float
         (combine [0; 0.05; 0.12; 0.15; 0.3; 0.31]%float [1; 2; 3; 4; 5; 6]%nat)
  /\ length [0; 0.12; 0.3]%float = length [1; 3; 5]%nat
  /\ hd_error [0; 0.12; 0.3]%float = hd_error [0; 0.05; 0.12; 0.15; 0.3; 0.31]%float.
Proof.
  exact (@filterClosePoints_drops_only float float_arith nat 0%nat 0.1%float
           [0; 0.05; 0.12; 0.15; 0.3; 0.31]%float [1; 2; 3; 4; 5; 6]%nat eq_refl).
Defined.

(* ================================================================== *)
(** ** Roots and jumps: what the searches return *)

Section Searches.

Context {F : Type} {AF : Arith F}.
Local Open Scope js_scope.

Lemma findZeroCrossings_loop (t interf : list F) (idxs : list nat) :
  forall acc,
    snd acc = repeat zero (length (fst acc)) ->
    let out := fold_left
                 (fun '(t0, y0) i =>
                    let y1 := nth (i - 1) interf NaN in
                    let y2 := nth i interf NaN in
                    if y1 * y2 <? zero then
                      let x1 := nth (i - 1) t NaN in
                      let x2 := nth i t NaN in
                      let tZ := x1 - y1 * (x2 - x1) / (y2 - y1) in
                      (t0 ++ [tZ], y0 ++ [zero])
                    else (t0, y0))
                 idxs acc in
    snd out = repeat zero (length (fst out))
    /\ (length (fst out) <= length (fst acc) + length idxs)%nat.
Proof.
  induction idxs as [| i idxs IH]; intros [t0 y0] Hy; cbv zeta; cbn [fold_left].
  - split; [exact Hy | lia].
  - cbn [fst snd] in Hy.
    destruct (nth (i - 1) interf NaN * nth i interf NaN <? zero).
    + match goal with
      | |- context [fold_left ?f idxs ?a] => destruct (IH a) as [H1 H2]
      end.
      { cbn [fst snd]. rewrite length_app, repeat_app. cbn [length repeat]. now rewrite Hy. }
      split; [exact H1 |]. cbn [fst] in *. rewrite length_app in H2. cbn [length] in *. lia.
    + destruct (IH (t0, y0) Hy) as [H1 H2]. split; [exact H1 |]. cbn [fst length] in *. lia.
Qed.

Lemma slopesOf_length (t signal : list F) :
  length (slopesOf t signal) = (length signal - 1)%nat.
Proof. unfold slopesOf. now rewrite length_map, length_seq. Qed.

Lemma maxSlopeOf_bound (slopes : list F) :
  slopes <> [] -> (fst (maxSlopeOf slopes) < length slopes)%nat.
Proof.
  intros Hne. unfold maxSlopeOf.
  assert (H : forall l init,
             (forall i, In i l -> (i < length slopes)%nat) ->
             (fst init < length slopes)%nat ->
             (fst (fold_left
                     (fun '(maxIdx, maxSlope) i =>
                        if abs (nth i slopes NaN) >? abs maxSlope
                        then (i, nth i slopes NaN) else (maxIdx, maxSlope))
                     l init) < length slopes)%nat).
  { induction l as [| i l IH]; intros [maxIdx maxSlope] Hl Hinit; cbn [fold_left].
    - exact Hinit.
    - apply IH; [intros i' Hi'; apply Hl; now right |].
      destruct (ltb _ _); [apply Hl; now left | exact Hinit]. }
  apply H.
  - intros i Hi. apply in_seq in Hi. lia.
  - destruct slopes; [congruence | simpl; lia].
Qed.

Lemma walkBack_le (slopes : list F) (slopeSign startThreshold : F) (startIdx : nat) :
  (walkBack slopes slopeSign startThreshold startIdx <= startIdx)%nat.
Proof.
  induction startIdx as [| prev IH]; cbn [walkBack]; [lia |].
  destruct (_ || _)%bool; lia.
Qed.

Lemma findJumpByDerivative_bound (t signal : list F) (k : nat) :
  findJumpByDerivative t signal = Some k -> (S k < length signal)%nat.
Proof.
  unfold findJumpByDerivative.
  pose proof (slopesOf_length t signal) as Hlen.
  destruct (slopesOf t signal) as [| s0 slopes] eqn:Hs; [discriminate |].
  pose proof (@maxSlopeOf_bound (s0 :: slopes) ltac:(discriminate)) as Hmax.
  destruct (maxSlopeOf (s0 :: slopes)) as [maxIdx maxSlope]. cbn [fst] in Hmax.
  intros H. injection H as <-.
  match goal with |- context [walkBack ?a ?b ?c ?d] => pose proof (walkBack_le a b c d) end.
  lia.
Qed.

Lemma firstAtOrBelow_bound (threshold : F) (l : list F) :
  forall i k, firstAtOrBelow threshold i l = Some k -> (i <= k < i + length l)%nat.
Proof.
  induction l as [| x l IH]; intros i k H; cbn [firstAtOrBelow] in H; [discriminate |].
  destruct (x <=? threshold).
  - injection H as <-. simpl. lia.
  - apply IH in H. simpl. lia.
Qed.

Lemma amplitudeStart_bound (smoothSignal : list F) (k : nat) :
  amplitudeStart smoothSignal = Some k -> (k < length smoothSignal)%nat.
Proof.
  unfold amplitudeStart. destruct (ltb _ _); [| discriminate].
  intros H. apply firstAtOrBelow_bound in H. lia.
Qed.

(** The detector never throws; a hint carries the time of a sample and,
    as window, a positive span of times or 1e-6. *)
Lemma findLargestJumpStart_cases (t signal : list F) :
  exists r,
    findLargestJumpStart t signal = Ok r
    /\ forall h, r = Some h ->
         (exists k, (k < length t)%nat /\ hint_time h = nth k t NaN)
         /\ exists span, hint_window h = if span >? zero then span else lit (1 # 1000000).
Proof.
  unfold findLargestJumpStart.
  destruct (Nat.ltb_spec (length t) 3) as [Hlt | Hge];
    [exists None; split; [reflexivity | discriminate] |].
  destruct (Nat.eqb_spec (length t) (length signal)) as [Heq | Hne];
    [| exists None; split; [reflexivity | discriminate]].
  cbn [negb orb].
  destruct (savitzkyGolay_ok signal 11 2) as [sm [-> Hsm]]. cbn [bind].
  assert (Hidx : forall k,
             match amplitudeStart sm with
             | Some i => Some i
             | None => findJumpByDerivative t sm
             end = Some k -> (k < length t)%nat).
  { intros k. destruct (amplitudeStart sm) as [i |] eqn:Ha.
    - intros H. injection H as <-. apply amplitudeStart_bound in Ha. lia.
    - intros H. apply findJumpByDerivative_bound in H. lia. }
  destruct (match amplitudeStart sm with
            | Some i => Some i
            | None => findJumpByDerivative t sm
            end) as [k |].
  - eexists. split; [reflexivity |]. intros h Hh. injection Hh as <-. cbn [hint_time hint_window].
    split; [exists k; split; [now apply Hidx | reflexivity] |].
    eexists. reflexivity.
  - exists None. split; [reflexivity | discriminate].
Qed.

End Searches.

Lemma findZeroCrossings_values {F : Type} {AF : Arith F} (t interf : list F) :
  snd (findZeroCrossings t interf)
  = repeat zero (length (fst (findZeroCrossings t interf)))
  /\ (length (fst (findZeroCrossings t interf)) <= length interf - 1)%nat.
Proof.
  unfold findZeroCrossings.
  destruct (@findZeroCrossings_loop F AF t interf (seq 1 (length interf - 1)) ([], [])
              eq_refl) as [H1 H2].
  split; [exact H1 |]. rewrite length_seq in H2. exact H2.
Qed.

(** X10.  Every root reported by [findZeroCrossings] has value 0, one value per
    root time, and there are fewer roots than samples. *)
Theorem findZeroCrossings_roots {F : Type} {AF : Arith F} (t interf : list F) :
  snd (findZeroCrossings t interf)
  = repeat zero (length (fst (findZeroCrossings t interf)))
  /\ (length (fst (findZeroCrossings t interf)) <= length interf - 1)%nat.
Proof. apply findZeroCrossings_values. Qed.

(** X11.  [findJumpByDerivative] returns [null] exactly when the signal has
    fewer than two samples; otherwise the index it returns has a sample
    after it. *)
Theorem findJumpByDerivative_index {F : Type} {AF : Arith F} (t signal : list F) :
  (findJumpByDerivative t signal = None <-> (length signal <= 1)%nat)
  /\ forall k, findJumpByDerivative t signal = Some k -> (S k < length signal)%nat.
Proof.
  split; [| intros k; apply findJumpByDerivative_bound].
  unfold findJumpByDerivative.
  pose proof (slopesOf_length t signal) as Hlen.
  destruct (slopesOf t signal) as [| s0 slopes].
  - simpl in Hlen. split; [lia | reflexivity].
  - simpl in Hlen. destruct (maxSlopeOf (s0 :: slopes)). split; [discriminate | lia].
Qed.

(** X12.  On doubles: [findLargestJumpStart] never throws, and a hint it
    returns carries the time of one of the samples and a strictly
    positive window. *)
Theorem findLargestJumpStart_hint (t signal : list float) :
  exists r,
    findLargestJumpStart t signal = Ok r
    /\ forall h, r = Some h ->
                 In (hint_time h) t /\ ltb zero (hint_window h) = true.
Proof.
  destruct (findLargestJumpStart_cases t signal) as [r [Hr Hh]].
  exists r. split; [exact Hr |]. intros h Hsome.
  destruct (Hh h Hsome) as [[k [Hk Htime]] [span Hwin]].
  split.
  - rewrite Htime. now apply nth_In.
  - rewrite Hwin. apply positive_window.
Qed.

(** Four samples with a drop after the second. *)
Lemma findLargestJumpStart_hint_witness :
  exists h,
    findLargestJumpStart (F:=float) [0; 1; 2; 3]%float [0; 0; -1; -1]%float = Ok (Some h)
    /\ In (hint_time h) [0; 1; 2; 3]%float
    /\ ltb zero (hint_window h) = true.
Proof.
  destruct (findLargestJumpStart_hint [0; 1; 2; 3]%float [0; 0; -1; -1]%float)
    as [r [Hr Hh]].
  destruct r as [h |]; [| vm_compute in Hr; discriminate].
  exists h. split; [exact Hr | now apply Hh].
Defined.

(* ================================================================== *)
(** ** Roots lie between their samples *)

Lemma Q_root_between (x1 x2 y1 y2 : Q) :
  (y1 * y2 < 0)%Q -> (x1 < x2)%Q ->
  (x1 < x1 - y1 * (x2 - x1) / (y2 - y1)
   /\ x1 - y1 * (x2 - x1) / (y2 - y1) < x2)%Q.
Proof.
  intros Hy Hx.
  assert (Hdx : (0 < x2 - x1)%Q) by lra.
  destruct (Qlt_le_dec 0 y1) as [H1 | H1].
  - assert (H2 : (y2 < 0)%Q).
    { destruct (Qlt_le_dec y2 0) as [H | H]; [exact H |].
      pose proof (Qmult_le_0_compat y1 y2 ltac:(lra) H). lra. }
    assert (HD : (0 < y1 - y2)%Q) by lra.
    assert (Hq : (y1 * (x2 - x1) / (y2 - y1) == (- (y1 * (x2 - x1))) / (y1 - y2))%Q).
    { field. lra. }
    rewrite Hq.
    pose proof (Qmult_lt_0_compat y1 (x2 - x1) H1 Hdx) as P1.
    pose proof (Qmult_lt_0_compat (x2 - x1) (- y2) Hdx ltac:(lra)) as P2.
    assert (Ha : (- (y1 * (x2 - x1)) / (y1 - y2) < 0)%Q).
    { apply Qlt_shift_div_r; [exact HD | lra]. }
    assert (Hb : (x1 - x2 < - (y1 * (x2 - x1)) / (y1 - y2))%Q).
    { apply Qlt_shift_div_l; [exact HD | lra]. }
    split; lra.
  - assert (H1' : (y1 < 0)%Q).
    { apply Qle_lt_or_eq in H1 as [H | H]; [exact H |].
      rewrite H in Hy. lra. }
    assert (H2 : (0 < y2)%Q).
    { destruct (Qlt_le_dec 0 y2) as [H | H]; [exact H |].
      pose proof (Qmult_le_0_compat (- y1) (- y2) ltac:(lra) ltac:(lra)). lra. }
    assert (HD : (0 < y2 - y1)%Q) by lra.
    pose proof (Qmult_lt_0_compat (- y1) (x2 - x1) ltac:(lra) Hdx) as P1.
    pose proof (Qmult_lt_0_compat (x2 - x1) y2 Hdx H2) as P2.
    assert (Ha : (y1 * (x2 - x1) / (y2 - y1) < 0)%Q).
    { apply Qlt_shift_div_r; [exact HD | lra]. }
    assert (Hb : (x1 - x2 < y1 * (x2 - x1) / (y2 - y1))%Q).
    { apply Qlt_shift_div_l; [exact HD | lra]. }
    split; lra.
Qed.

Lemma Exact_ltb_lt (a b : Qc) : Exact.ltb a b = true <-> (this a < this b)%Q.
Proof.
  unfold Exact.ltb, Qccompare. rewrite Qlt_alt.
  destruct (this a ?= this b)%Q; split; congruence.
Qed.

Lemma Qc_root_between (x1 x2 y1 y2 : Qc) :
  ltb (mul y1 y2) zero = true -> ltb x1 x2 = true ->
  ltb x1 (sub x1 (div (mul y1 (sub x2 x1)) (sub y2 y1))) = true
  /\ ltb (sub x1 (div (mul y1 (sub x2 x1)) (sub y2 y1))) x2 = true.
Proof.
  cbn [ltb mul sub div zero Qc_arith].
  rewrite !Exact_ltb_lt. intros Hy Hx.
  assert (Hm : (this (y1 * y2)%Qc == this y1 * this y2)%Q) by apply Qred_correct.
  assert (Hz : (this (x1 - y1 * (x2 - x1) / (y2 - y1))%Qc
                == this x1 - this y1 * (this x2 - this x1) / (this y2 - this y1))%Q).
  { unfold Qcminus, Qcdiv, Qcmult, Qcplus, Qcopp, Qcinv, Q2Qc. cbn [this].
    rewrite !Qred_correct. reflexivity. }
  rewrite Hz. rewrite Hm in Hy.
  apply Q_root_between; [exact Hy | exact Hx].
Qed.

Section RootTimes.

Context {F : Type} {AF : Arith F}.
Local Open Scope js_scope.

Lemma findZeroCrossings_fold (t interf : list F) (idxs : list nat) :
  forall acc,
    fst (fold_left
           (fun '(t0, y0) i =>
              let y1 := nth (i - 1) interf NaN in
              let y2 := nth i interf NaN in
              if y1 * y2 <? zero then
                let x1 := nth (i - 1) t NaN in
                let x2 := nth i t NaN in
                let tZ := x1 - y1 * (x2 - x1) / (y2 - y1) in
                (t0 ++ [tZ], y0 ++ [zero])
              else (t0, y0))
           idxs acc)
    = fst acc ++ map (rootTime t interf) (filter (oppositeSigns interf) idxs).
Proof.
  induction idxs as [| i idxs IH]; intros [t0 y0]; cbn [fold_left filter].
  - cbn [fst map]. now rewrite app_nil_r.
  - unfold oppositeSigns at 1.
    destruct (nth (i - 1) interf NaN * nth i interf NaN <? zero).
    + rewrite IH. cbn [fst map]. now rewrite <- app_assoc.
    + apply IH.
Qed.

(** The root times are those interpolated on the pairs of neighbouring
    samples whose product is negative, in order. *)
Lemma findZeroCrossings_spec (t interf : list F) :
  fst (findZeroCrossings t interf)
  = map (rootTime t interf)
        (filter (oppositeSigns interf) (seq 1 (length interf - 1))).
Proof. unfold findZeroCrossings. now rewrite findZeroCrossings_fold. Qed.

End RootTimes.

(** X13.  Without rounding, and when the sample times increase, every root time
    that [findZeroCrossings] reports lies strictly between the times of
    the two samples between which the signal changes sign. *)
Theorem roots_between_samples (t interf : list Qc) :
  (forall i, (1 <= i < length interf)%nat ->
             ltb (nth (i - 1) t NaN) (nth i t NaN) = true) ->
  forall tz, In tz (fst (findZeroCrossings t interf)) ->
    exists i, (1 <= i < length interf)%nat
              /\ ltb (mul (nth (i - 1) interf NaN) (nth i interf NaN)) zero = true
              /\ ltb (nth (i - 1) t NaN) tz = true
              /\ ltb tz (nth i t NaN) = true.
Proof.
  intros Ht tz Hin. rewrite findZeroCrossings_spec in Hin.
  apply in_map_iff in Hin as [i [<- Hi]].
  apply filter_In in Hi as [Hi Hsign]. apply in_seq in Hi.
  exists i. split; [lia |]. split; [exact Hsign |].
  apply Qc_root_between; [exact Hsign | apply Ht; lia].
Qed.

(** A signal that crosses zero twice: the roots are 1/2 and 5/2. *)
Lemma roots_between_samples_witness :
  map this (fst (findZeroCrossings (F:=Qc) (map Exact.ofZ [0; 1; 2; 3]%Z)
                                   (map Exact.ofZ [-1; 1; 2; -2]%Z)))
  = [1 # 2; 5 # 2]%Q
  /\ exists i, (1 <= i < 4)%nat
               /\ ltb (nth (i - 1) (map Exact.ofZ [0; 1; 2; 3]%Z) NaN) (Q2Qc (5 # 2)) = true
               /\ ltb (Q2Qc (5 # 2)) (nth i (map Exact.ofZ [0; 1; 2; 3]%Z) NaN) = true.
Proof.
  split; [vm_compute; reflexivity |].
  destruct (@roots_between_samples (map Exact.ofZ [0; 1; 2; 3]%Z)
              (map Exact.ofZ [-1; 1; 2; -2]%Z)) with (tz := Q2Qc (5 # 2))
    as [i [Hi [_ [Hlo Hhi]]]].
  - intros i Hi. simpl in Hi.
    assert (Hc : i = 1%nat \/ i = 2%nat \/ i = 3%nat) by lia.
    destruct Hc as [-> | [-> | ->]]; vm_compute; reflexivity.
  - assert (Hf : fst (findZeroCrossings (F:=Qc) (map Exact.ofZ [0; 1; 2; 3]%Z)
                                        (map Exact.ofZ [-1; 1; 2; -2]%Z))
                 = map Q2Qc [1 # 2; 5 # 2]%Q)
      by (apply Qc_list_inj; vm_compute; reflexivity).
    rewrite Hf. right. left. reflexivity.
  - exists i. simpl in Hi. auto.
Defined.

(* ================================================================== *)
(** ** Intersections are common points *)

Lemma Exact_leb_le (a b : Qc) : Exact.leb a b = true <-> (this a <= this b)%Q.
Proof.
  unfold Exact.leb, Qccompare. rewrite Qle_alt.
  destruct (this a ?= this b)%Q; split; congruence.
Qed.

Lemma Qc_sign_change_nonzero (dp dc : Qc) :
  (Exact.leb dp (Q2Qc 0) && Exact.ltb (Q2Qc 0) dc
   || Exact.leb (Q2Qc 0) dp && Exact.ltb dc (Q2Qc 0))%bool = true ->
  (dc - dp)%Qc <> Q2Qc 0.
Proof.
  intros Hs Heq.
  assert (Hd : dc = dp).
  { apply (f_equal (fun x => (x + dp)%Qc)) in Heq.
    transitivity (dc - dp + dp)%Qc; [ring | rewrite Heq; ring]. }
  subst dc.
  apply orb_true_iff in Hs as [Hs | Hs]; apply andb_true_iff in Hs as [H1 H2];
    apply Exact_leb_le in H1; apply Exact_ltb_lt in H2; cbn [this Q2Qc] in *;
    change (Qred 0) with 0%Q in *; lra.
Qed.

(** X14.  Without rounding, the point reported at a sign change is a common
    point of the two signals: at the reported time the two linearly
    interpolated signals have the same value, and that value is the one
    reported. *)
Theorem intersection_is_common_point (tenz interf : list Qc) (i : nat) :
  signChange tenz interf i = true ->
  interpolate tenz interf tenz i = interpolate tenz interf interf i
  /\ crossingValue tenz interf i = interpolate tenz interf tenz i.
Proof.
  intros Hs. apply Qc_sign_change_nonzero in Hs.
  unfold interpolate, crossingValue, crossingRatio, diffAt in *.
  set (a1 := nth (i - 1) tenz NaN) in *. set (a2 := nth i tenz NaN) in *.
  set (b1 := nth (i - 1) interf NaN) in *. set (b2 := nth i interf NaN) in *.
  cbn [add sub mul div opp ofZ Qc_arith] in *.
  replace (Exact.ofZ 2) with (1 + 1)%Qc by (apply Qc_is_canon; reflexivity).
  assert (H2 : (1 + 1)%Qc <> Q2Qc 0) by discriminate.
  clearbody a1 a2 b1 b2.
  split; field; auto.
Qed.

(** Two lines that cross at a third of the way: 0, 3 against 1, 1. *)
Lemma intersection_is_common_point_witness :
  this (interpolate (F:=Qc) (map Exact.ofZ [0; 3]%Z) (map Exact.ofZ [1; 1]%Z)
                    (map Exact.ofZ [0; 3]%Z) 1) = 1%Q
  /\ interpolate (F:=Qc) (map Exact.ofZ [0; 3]%Z) (map Exact.ofZ [1; 1]%Z)
                 (map Exact.ofZ [0; 3]%Z) 1
     = interpolate (F:=Qc) (map Exact.ofZ [0; 3]%Z) (map Exact.ofZ [1; 1]%Z)
                   (map Exact.ofZ [1; 1]%Z) 1.
Proof.
  split; [vm_compute; reflexivity |].
  apply (@intersection_is_common_point (map Exact.ofZ [0; 3]%Z) (map Exact.ofZ [1; 1]%Z) 1).
  vm_compute. reflexivity.
Defined.

(* ================================================================== *)
(** ** The whole of [parseCSV] *)

Section WholeParse.

Context {F : Type} {AF : Arith F}.
Local Open Scope js_scope.

Lemma dataRows_no_header (lines : list string) :
  forallb (fun raw => negb (startsWith "TIME,CH1," (trim raw))) lines = true ->
  dataRows lines false = [].
Proof.
  induction lines as [| raw rest IH]; intros H; [reflexivity |].
  cbn [forallb] in H. apply andb_true_iff in H as [Hraw Hrest].
  cbn [dataRows]. apply negb_true_iff in Hraw. rewrite Hraw.
  destruct (String.eqb (trim raw) EmptyString); now apply IH.
Qed.

Lemma parseTrace_lengths (csvText : string) (options : Options) :
  length (tr_tenz (parseTrace (F:=F) csvText options))
  = length (tr_t (parseTrace (F:=F) csvText options))
  /\ length (tr_interf (parseTrace (F:=F) csvText options))
     = length (tr_t (parseTrace (F:=F) csvText options)).
Proof.
  unfold parseTrace. rewrite readLines_spec. unfold pushRows. cbn [tr_t tr_tenz tr_interf].
  now rewrite !length_app, !length_map.
Qed.

Lemma removeBaseline_length (arr : list F) (N : Q) :
  length (removeBaseline arr N) = length arr.
Proof. unfold removeBaseline. apply length_map. Qed.

Lemma scatter_length (n : nat) (idxMap : list nat) (dudt_local : list F) :
  length (scatter n idxMap dudt_local) = n.
Proof.
  unfold scatter.
  assert (H : forall ks out,
             length (fold_left
                       (fun out k => set_nth (nth k idxMap 0%nat) (nth_error dudt_local k) out)
                       ks out) = length out).
  { induction ks as [| k ks IH]; intros out; cbn [fold_left]; [reflexivity |].
    now rewrite IH, set_nth_length. }
  now rewrite H, repeat_length.
Qed.

Lemma findZeroCrossings_lengths (t interf : list F) :
  length (snd (findZeroCrossings t interf)) = length (fst (findZeroCrossings t interf)).
Proof.
  destruct (findZeroCrossings_values t interf) as [H1 _].
  rewrite H1. apply repeat_length.
Qed.

Lemma derivative_or_empty (c : bool) (t signal : list F) (windowSize polyOrder : Q) :
  (0 <= Qfloor (windowSize / 2))%Z -> (1 <= Qfloor polyOrder)%Z ->
  exists out,
    (if c then calculateDerivativeSG t signal windowSize polyOrder else Ok []) = Ok out.
Proof.
  intros Hw Hp. destruct c; [| now exists []].
  destruct (@calculateDerivativeSG_ok F AF t signal windowSize polyOrder Hw Hp) as [out [Ho _]].
  now exists out.
Qed.

(** With a window of at least one sample and an order of at least 1,
    [parseCSV] returns, and all its arrays have the length of the time
    array. *)
Lemma parseCSV_ok (csvText : string) (options : Options) :
  (0 <= Qfloor (orDefault (sgWindow options) 31 / 2))%Z ->
  (1 <= Qfloor (orDefault (sgPoly options) 3))%Z ->
  exists r,
    parseCSV csvText options = Ok r
    /\ res_t r = tr_t (parseTrace csvText options)
    /\ length (res_tenz r) = length (res_t r)
    /\ length (res_interf r) = length (res_t r)
    /\ length (res_interfSmoothed r) = length (res_t r)
    /\ length (res_interfCorrected r) = length (res_t r)
    /\ length (res_dudt_interf r) = length (res_t r)
    /\ length (res_y0 r) = length (res_t0 r).
Proof.
  intros Hw Hp. unfold parseCSV.
  destruct (parseTrace_lengths csvText options) as [Htenz Hinterf].
  destruct (savitzkyGolay_ok (tr_interf (parseTrace csvText options))
              (orDefault (sgWindow options) 31) (orDefault (sgPoly options) 3))
    as [sm [-> Hsm]].
  cbn [bind].
  pose proof (findZeroCrossings_lengths (tr_t (parseTrace csvText options))
                (removeBaseline sm (orDefault (baselineN options) 2000))) as Hz.
  destruct (findZeroCrossings (tr_t (parseTrace csvText options))
              (removeBaseline sm (orDefault (baselineN options) 2000))) as [t0 y0].
  cbn [fst snd] in Hz.
  destruct (@filterClosePoints_subseq F AF F NaN (lit (100 # 1000000000)) t0 y0 Hz)
    as [_ [Hf _]].
  destruct (filterClosePoints NaN (lit (100 # 1000000000)) t0 y0)
    as [filteredT0 filteredY0].
  cbn [fst snd] in Hf.
  match goal with
  | |- context [if ?c then calculateDerivativeSG ?a ?b ?w ?p else Ok []] =>
      destruct (@derivative_or_empty c a b w p Hw Hp) as [out ->]
  end.
  cbn [bind].
  eexists. split; [reflexivity |].
  cbn [res_t res_tenz res_interf res_interfSmoothed res_interfCorrected res_dudt_interf
       res_t0 res_y0].
  rewrite removeBaseline_length, scatter_length.
  repeat split; try assumption; try lia; now symmetry.
Qed.

End WholeParse.

(** X15.  A text in which no line starts with [TIME,CH1,] gives empty arrays,
    whatever the options are: not an error. *)
Theorem parseCSV_without_header {F : Type} {AF : Arith F}
        (csvText : string) (options : Options) :
  forallb (fun raw => negb (startsWith "TIME,CH1," (trim raw))) (splitOn "010" csvText)
  = true ->
  parseCSV (F:=F) csvText options
  = Ok {| res_t := []; res_tenz := []; res_interf := [];
          res_interfSmoothed := []; res_interfCorrected := [];
          res_t0 := []; res_y0 := []; res_dudt_interf := [];
          res_intersectionPoints := [] |}.
Proof.
  intros Hno.
  assert (Ht : parseTrace (F:=F) csvText options = emptyTrace).
  { unfold parseTrace. rewrite readLines_spec.
    now rewrite (dataRows_no_header _ Hno). }
  unfold parseCSV. rewrite Ht. reflexivity.
Qed.

Lemma parseCSV_without_header_witness :
  parseCSV (F:=float) ("0,1,2,3,4" ++ newline ++ "1,1,2,3,4")
           (filterOptions 5 2)
  = Ok {| res_t := []; res_tenz := []; res_interf := [];
          res_interfSmoothed := []; res_interfCorrected := [];
          res_t0 := []; res_y0 := []; res_dudt_interf := [];
          res_intersectionPoints := [] |}.
Proof. apply parseCSV_without_header. reflexivity. Defined.

(** X16.  When the window is not negative and the order at least 1 (absent
    options count with their defaults 31 and 3), [parseCSV] returns, and
    every array of the result has one entry per time sample; the roots
    come with one value each. *)
Theorem parseCSV_arrays {F : Type} {AF : Arith F}
        (csvText : string) (options : Options) :
  (0 <= Qfloor (orDefault (sgWindow options) 31 / 2))%Z ->
  (1 <= Qfloor (orDefault (sgPoly options) 3))%Z ->
  exists r,
    parseCSV (F:=F) csvText options = Ok r
    /\ res_t r = tr_t (parseTrace csvText options)
    /\ length (res_tenz r) = length (res_t r)
    /\ length (res_interf r) = length (res_t r)
    /\ length (res_interfSmoothed r) = length (res_t r)
    /\ length (res_interfCorrected r) = length (res_t r)
    /\ length (res_dudt_interf r) = length (res_t r)
    /\ length (res_y0 r) = length (res_t0 r).
Proof. apply parseCSV_ok. Qed.

Lemma parseCSV_arrays_witness :
  exists r,
    parseCSV (F:=float) crossingRows (filterOptions 3 1) = Ok r
    /\ length (res_t r) = 5%nat
    /\ length (res_dudt_interf r) = 5%nat.
Proof.
  assert (Hw : (0 <= Qfloor (orDefault (sgWindow (filterOptions 3 1)) 31 / 2))%Z)
    by (vm_compute; discriminate).
  assert (Hp : (1 <= Qfloor (orDefault (sgPoly (filterOptions 3 1)) 3))%Z)
    by (vm_compute; discriminate).
  destruct (@parseCSV_arrays float float_arith crossingRows (filterOptions 3 1) Hw Hp)
    as [r [Hr [Ht [_ [_ [_ [_ [Hd _]]]]]]]].
  exists r. split; [exact Hr |].
  assert (H5 : length (res_t r) = 5%nat) by (rewrite Ht; vm_compute; reflexivity).
  split; [exact H5 | now rewrite Hd].
Defined.

(* ================================================================== *)
(** ** The baseline *)

Lemma Qc_ofZ_succ (n : Z) : Exact.ofZ (n + 1) = (Exact.ofZ n + 1)%Qc.
Proof.
  apply Qc_is_canon. unfold Exact.ofZ, Qcplus, Q2Qc. cbn [this].
  rewrite !Qred_correct. rewrite inject_Z_plus. reflexivity.
Qed.

Lemma Qc_sum_shifted (a : Qc) (l : list Qc) :
  sum (map (fun v => sub v a) l)
  = (sum l - Exact.ofZ (Z.of_nat (length l)) * a)%Qc.
Proof.
  rewrite !(@sum_total Qc Qc_arith Qcrt).
  induction l as [| x l IH]; cbn [map total length].
  - cbn [zero Qc_arith]. change (Exact.ofZ (Z.of_nat 0)) with (Q2Qc 0). ring.
  - rewrite IH, Nat2Z.inj_succ, <- Z.add_1_r, Qc_ofZ_succ.
    cbn [add sub Qc_arith]. ring.
Qed.

Lemma Qc_ofZ_nonzero (n : Z) : (1 <= n)%Z -> Exact.ofZ n <> Q2Qc 0.
Proof.
  intros Hn H. apply (f_equal this) in H. unfold Exact.ofZ, Q2Qc in H. cbn [this] in H.
  assert (Hq : (inject_Z n == 0)%Q) by (rewrite <- (Qred_correct (inject_Z n)), H; reflexivity).
  unfold Qeq, inject_Z in Hq. cbn in Hq. lia.
Qed.

(** X17.  Without rounding, after [removeBaseline] with a whole number [n] of
    at least 1 the first [n] samples (all of them when there are fewer)
    add up to 0: their mean has been taken off.  The length of the array
    is kept. *)
Theorem baseline_mean_zero (arr : list Qc) (n : Z) :
  (1 <= n)%Z -> arr <> [] ->
  sum (firstn (Z.to_nat (Z.min n (Z.of_nat (length arr))))
              (removeBaseline arr (inject_Z n))) = zero
  /\ length (removeBaseline arr (inject_Z n)) = length arr.
Proof.
  intros Hn Hne. split; [| apply removeBaseline_length].
  assert (Hlen : (1 <= Z.of_nat (length arr))%Z) by (destruct arr; [congruence | simpl; lia]).
  set (c := Z.min n (Z.of_nat (length arr))).
  assert (Hcount : Qmin (inject_Z (Z.of_nat (length arr))) (inject_Z n) = inject_Z c).
  { unfold Qmin, GenericMinMax.gmin.
    destruct (inject_Z (Z.of_nat (length arr)) ?= inject_Z n)%Q eqn:Hc.
    - apply Qeq_alt in Hc. unfold Qeq, inject_Z in Hc. cbn in Hc. f_equal. lia.
    - apply Qlt_alt in Hc. rewrite <- Zlt_Qlt in Hc. f_equal. lia.
    - apply Qgt_alt in Hc. rewrite <- Zlt_Qlt in Hc. f_equal. lia. }
  unfold removeBaseline. rewrite Hcount.
  assert (Hslice : sliceTo arr (inject_Z c) = firstn (Z.to_nat c) arr).
  { unfold sliceTo. cbn [Qnum inject_Z].
    destruct (Z.ltb_spec c 0); [lia |]. rewrite Qfloor_Z.
    destruct (Z.ltb_spec c 0); [lia |]. f_equal. lia. }
  rewrite Hslice, firstn_map.
  set (head := firstn (Z.to_nat c) arr).
  assert (Hhead : Z.of_nat (length head) = c).
  { unfold head. rewrite length_firstn. lia. }
  rewrite Qc_sum_shifted, Hhead.
  change (lit (inject_Z c)) with (Exact.ofZ c).
  pose proof (@Qc_ofZ_nonzero c ltac:(lia)) as Hnz.
  cbn [div zero Qc_arith]. field. exact Hnz.
Qed.

Lemma baseline_mean_zero_witness :
  map this (removeBaseline (F:=Qc) (map Exact.ofZ [1; 2; 3; 4]%Z) 2)
  = [-1 # 2; 1 # 2; 3 # 2; 5 # 2]%Q
  /\ sum (firstn 2 (removeBaseline (F:=Qc) (map Exact.ofZ [1; 2; 3; 4]%Z) 2)) = zero.
Proof.
  split; [vm_compute; reflexivity |].
  apply (@baseline_mean_zero (map Exact.ofZ [1; 2; 3; 4]%Z) 2); [lia | discriminate].
Defined.

(* ================================================================== *)
(** ** The derivative is local to the roots *)

Section LocalDerivative.

Context {F : Type} {AF : Arith F}.
Local Open Scope js_scope.

Lemma set_nth_nth_error {A : Type} (i k : nat) (x : A) (l : list A) :
  k <> i -> nth_error (set_nth i x l) k = nth_error l k.
Proof.
  revert i k; induction l as [| y l IH]; intros i k Hne.
  - now destruct i.
  - destruct i as [| i], k as [| k]; cbn [set_nth nth_error]; try reflexivity;
      try congruence.
    apply IH. congruence.
Qed.

Lemma nth_map_any {A B : Type} (f : A -> B) (l : list A) (i : nat) (d : B) (d' : A) :
  (i < length l)%nat -> nth i (map f l) d = f (nth i l d').
Proof.
  intros Hi. rewrite nth_indep with (d' := f d') by now rewrite length_map.
  apply map_nth.
Qed.

Lemma scatter_untouched (n : nat) (idxMap : list nat) (dudt_local : list F) (i : nat) :
  ~ In i idxMap -> (i < n)%nat ->
  nth_error (scatter n idxMap dudt_local) i = Some (Some zero).
Proof.
  intros Hnot Hi. unfold scatter.
  assert (H : forall ks out,
             (forall k, In k ks -> (k < length idxMap)%nat) ->
             nth_error (fold_left
                          (fun out k => set_nth (nth k idxMap 0%nat)
                                                (nth_error dudt_local k) out)
                          ks out) i
             = nth_error out i).
  { induction ks as [| k ks IH]; intros out Hks; cbn [fold_left]; [reflexivity |].
    rewrite IH by (intros k' Hk'; apply Hks; now right).
    apply set_nth_nth_error. intros Heq. apply Hnot. rewrite Heq.
    apply nth_In. apply Hks. now left. }
  rewrite H by (intros k Hk; apply in_seq in Hk; lia).
  rewrite nth_error_repeat by exact Hi. reflexivity.
Qed.

End LocalDerivative.

(** X18.  In the result of [parseCSV] the derivative is 0 at every sample that
    is not within the derivative window (200 ns by default) of one of the
    roots kept: the derivative filter only runs around the roots. *)
Theorem derivative_zero_away_from_roots {F : Type} {AF : Arith F}
        (csvText : string) (options : Options) (r : Results) (i : nat) :
  parseCSV (F:=F) csvText options = Ok r ->
  (i < length (res_t r))%nat ->
  existsb (fun center =>
             within (sub center (mul (lit (orDefault (derivativeWindowNs options) 200))
                                     (lit (1 # 1000000000))))
                    (add center (mul (lit (orDefault (derivativeWindowNs options) 200))
                                     (lit (1 # 1000000000))))
                    (nth i (res_t r) NaN))
          (res_t0 r) = false ->
  nth_error (res_dudt_interf r) i = Some (Some zero).
Proof.
  unfold parseCSV. intros H.
  apply bind_ok in H as [sm [_ H]].
  destruct (findZeroCrossings _ _) as [t0 y0].
  destruct (filterClosePoints _ _ _ _) as [filteredT0 filteredY0].
  apply bind_ok in H as [dl [_ H]]. injection H as <-.
  cbn [res_t res_t0 res_dudt_interf]. intros Hi Hmask.
  apply scatter_untouched; [| exact Hi].
  intros Hin. apply filter_In in Hin as [_ Hm].
  rewrite nth_map_any with (d' := NaN) in Hm by exact Hi.
  congruence.
Qed.

Lemma derivative_zero_away_from_roots_witness :
  exists r,
    parseCSV (F:=float) crossingRows
             {| sgWindow := Some 3%Q; sgPoly := Some 1%Q; baselineN := None;
                skipStart := Some 1%Q; skipEnd := None;
                derivativeWindowNs := Some 5%Q |} = Ok r
    /\ nth_error (res_dudt_interf r) 0 = Some (Some zero)
    /\ nth_error (res_dudt_interf r) 2 = Some None.
Proof.
  set (o := {| sgWindow := Some 3%Q; sgPoly := Some 1%Q; baselineN := None;
               skipStart := Some 1%Q; skipEnd := None;
               derivativeWindowNs := Some 5%Q |}).
  assert (H : exists r, parseCSV (F:=float) crossingRows o = Ok r)
    by (vm_compute; eexists; reflexivity).
  destruct H as [r Hr]. exists r. split; [exact Hr |].
  assert (Hv := Hr). vm_compute in Hv. injection Hv as Hv.
  split.
  - apply (@derivative_zero_away_from_roots float float_arith crossingRows o r 0 Hr).
    + rewrite <- Hv. vm_compute. lia.
    + rewrite <- Hv. vm_compute. reflexivity.
  - rewrite <- Hv. reflexivity.
Defined.

(* ================================================================== *)
(** ** The chart data *)

Lemma strideCount_step (len s i : nat) :
  (1 <= s)%nat -> (i < len)%nat ->
  strideCount (len - i) s = S (strideCount (len - (i + s)) s).
Proof.
  intros Hs Hi. unfold strideCount.
  destruct (Nat.le_gt_cases s (len - i)) as [Hge | Hlt].
  - replace (len - i + s - 1)%nat with (len - (i + s) + s - 1 + 1 * s)%nat by lia.
    rewrite Nat.div_add by lia. lia.
  - replace (len - (i + s))%nat with 0%nat by lia.
    rewrite (Nat.div_small (0 + s - 1) s) by lia.
    symmetry. apply Nat.div_unique with (r := (len - i - 1)%nat); lia.
Qed.

Lemma strideCount_none (len s i : nat) :
  (1 <= s)%nat -> (len <= i)%nat -> strideCount (len - i) s = 0%nat.
Proof.
  intros Hs Hi. unfold strideCount.
  replace (len - i)%nat with 0%nat by lia. apply Nat.div_small. lia.
Qed.

Lemma strideCount_le (len s : nat) : (1 <= s)%nat -> (strideCount len s <= len)%nat.
Proof.
  intros Hs. unfold strideCount.
  destruct len as [| len]; [rewrite Nat.div_small; lia |].
  apply Nat.Div0.div_le_upper_bound. nia.
Qed.

(** The loop [for (i = i0; i < len; i += s)] visits [i0], [i0 + s],
    [i0 + 2 s], ... *)
Lemma strideFrom_spec (len s : nat) :
  (1 <= s)%nat ->
  forall fuel i,
    (strideCount (len - i) s <= fuel)%nat ->
    strideFrom fuel len s i
    = map (fun k => (i + k * s)%nat) (seq 0 (strideCount (len - i) s)).
Proof.
  intros Hs. induction fuel as [| fuel IH]; intros i Hfuel.
  - replace (strideCount (len - i) s) with 0%nat by lia. reflexivity.
  - cbn [strideFrom]. destruct (Nat.ltb_spec i len) as [Hi | Hi].
    + rewrite (strideCount_step Hs Hi) in *. rewrite IH by lia.
      cbn [seq map]. f_equal; [lia |].
      rewrite <- seq_shift, map_map. apply map_ext. intros k. simpl. lia.
    + now rewrite (strideCount_none Hs Hi).
Qed.

Lemma sampledIndices_spec (len : nat) (step : option nat) :
  match step with Some s => (1 <= s)%nat | None => True end ->
  exists s, (1 <= s)%nat
            /\ sampledIndices len step
               = map (fun k => (k * s)%nat) (seq 0 (strideCount len s)).
Proof.
  destruct step as [s |]; intros Hs; cbn [sampledIndices].
  - exists s. split; [exact Hs |].
    rewrite strideFrom_spec by (try exact Hs; rewrite Nat.sub_0_r; now apply strideCount_le).
    now rewrite Nat.sub_0_r.
  - destruct len as [| len].
    + exists 1%nat. split; [lia | reflexivity].
    + exists (S len). split; [lia |]. unfold strideCount.
      replace (S len + S len - 1)%nat with (len + 1 * S len)%nat by lia.
      rewrite Nat.div_add, Nat.div_small by lia. reflexivity.
Qed.

Section Charts.

Context {F : Type} {AF : Arith F}.
Local Open Scope js_scope.

Lemma chartStep_positive (len : nat) (maxPoints : Q) :
  match chartStep (F:=F) len maxPoints with Some s => (1 <= s)%nat | None => True end.
Proof.
  unfold chartStep. destruct (floor _) as [z |]; [lia |].
  destruct (_ || _)%bool; [exact I | lia].
Qed.

Lemma pointsOf_x (xs : list F) (ys : list (option F)) :
  map cp_x (pointsOf xs ys) = xs.
Proof.
  unfold pointsOf, mapi. generalize 0%nat.
  induction xs as [| x xs IH]; intros k; cbn [mapi_from map]; [reflexivity |].
  now rewrite IH.
Qed.

Lemma pointsOf_y (xs : list F) (ys : list (option F)) :
  length ys = length xs -> map cp_y (pointsOf xs ys) = ys.
Proof.
  intros Hlen. unfold pointsOf, mapi.
  assert (H : forall k xs', (k + length xs' = length ys)%nat ->
                            map cp_y (mapi_from k
                                        (fun i x => {| cp_x := x; cp_y := nth i ys None |}) xs')
                            = skipn k ys).
  { intros k xs'. revert k. induction xs' as [| x xs' IH]; intros k Hk; cbn [mapi_from map].
    - rewrite skipn_all2 by (simpl in Hk; lia). reflexivity.
    - cbn [cp_y]. rewrite IH by (simpl in Hk; lia).
      simpl in Hk.
      rewrite <- (firstn_skipn k ys) at 1.
      rewrite app_nth2 by (rewrite length_firstn; lia).
      rewrite length_firstn, Nat.min_l, Nat.sub_diag by lia.
      destruct (skipn k ys) as [| y rest] eqn:Hsk.
      + apply (f_equal (@length _)) in Hsk. rewrite length_skipn in Hsk. simpl in Hsk. lia.
      + cbn [nth]. f_equal.
        change (S k) with (1 + k)%nat. rewrite <- skipn_skipn, Hsk. reflexivity. }
  rewrite (H 0%nat xs) by (simpl; lia). reflexivity.
Qed.

(** The loop over the intersections keeps the times of its points and
    adds the displacement by the trapezoid rule. *)
Lemma seriesLoop_spec (t : list F) (dudt_interf : list (option F)) (points : list RootPoint) :
  forall k idx lastTime lastVel disp,
    (0 < k)%nat ->
    map sp_time (fst (seriesLoop t dudt_interf k points idx lastTime lastVel disp))
    = map pt_time points
    /\ trapezoid lastTime lastVel disp
                 (fst (seriesLoop t dudt_interf k points idx lastTime lastVel disp))
                 (snd (seriesLoop t dudt_interf k points idx lastTime lastVel disp)).
Proof.
  induction points as [| p rest IH]; intros k idx lastTime lastVel disp Hk;
    cbn [seriesLoop].
  - split; [reflexivity | constructor].
  - destruct (Nat.ltb_spec 0 k) as [_ | Hk0]; [| lia].
    match goal with
    | |- context [seriesLoop t dudt_interf (S k) rest ?i ?a ?b ?c] =>
        destruct (IH (S k) i a b c ltac:(lia)) as [Htime Htrap];
        destruct (seriesLoop t dudt_interf (S k) rest i a b c) as [vs ds]
    end.
    cbn [fst snd map sp_time] in *. split; [now rewrite Htime |].
    constructor. exact Htrap.
Qed.

Lemma seriesAt_spec (t : list F) (dudt_interf : list (option F))
      (points : list RootPoint) :
  map sp_time (fst (seriesAt t dudt_interf points)) = map pt_time points
  /\ map sp_time (snd (seriesAt t dudt_interf points)) = map pt_time points
  /\ match fst (seriesAt t dudt_interf points), snd (seriesAt t dudt_interf points) with
     | [], [] => points = []
     | v0 :: vs, d0 :: ds =>
         sp_value d0 = zero /\ trapezoid (sp_time v0) (sp_value v0) zero vs ds
     | _, _ => False
     end.
Proof.
  destruct points as [| p0 rest]; [cbn; auto |].
  cbn [seriesAt seriesLoop Nat.ltb Nat.leb].
  match goal with
  | |- context [seriesLoop t dudt_interf 1 rest ?i ?a ?b ?c] =>
      destruct (@seriesLoop_spec t dudt_interf rest 1 i a b c ltac:(lia)) as [Htime Htrap];
      destruct (seriesLoop t dudt_interf 1 rest i a b c) as [vs ds] eqn:Hloop
  end.
  cbn [fst snd map sp_time sp_value] in *.
  assert (Hds : map sp_time ds = map sp_time vs).
  { clear Hloop Htime. induction Htrap; cbn [map sp_time]; [reflexivity | now f_equal]. }
  repeat split; try (f_equal; congruence); exact Htrap.
Qed.

End Charts.

(** X19.  [generateChartData] always returns, and each of its four curves
    takes sample 0 and then every [s]-th sample, for a step [s] of at
    least 1: point [k] has the time and the value of sample [k s]. *)
Theorem chart_sampling {F : Type} {AF : Arith F}
        (results : Results) (maxPoints : option Q) :
  exists c s,
    generateChartData (F:=F) results maxPoints = Ok c
    /\ (1 <= s)%nat
    /\ let idxs := map (fun k => (k * s)%nat)
                       (seq 0 (strideCount (length (res_t results)) s)) in
       map cp_x (cd_tenz c) = map (fun i => nth i (res_t results) NaN) idxs
       /\ map cp_x (cd_smoothed c) = map cp_x (cd_tenz c)
       /\ map cp_x (cd_corrected c) = map cp_x (cd_tenz c)
       /\ map cp_x (cd_derivative c) = map cp_x (cd_tenz c)
       /\ map cp_y (cd_tenz c) = map (nth_error (res_tenz results)) idxs
       /\ map cp_y (cd_smoothed c) = map (nth_error (res_interfSmoothed results)) idxs
       /\ map cp_y (cd_corrected c) = map (nth_error (res_interfCorrected results)) idxs.
Proof.
  unfold generateChartData.
  destruct (sampledIndices_spec (length (res_t results))
              (chartStep (length (res_t results)) (orDefault maxPoints 2000))
              (chartStep_positive _ _)) as [s [Hs ->]].
  destruct (seriesAt _ _ _) as [vs ds].
  destruct (findLargestJumpStart_cases (res_t results) (res_interfCorrected results))
    as [r [-> _]].
  cbn [bind]. eexists. exists s. split; [reflexivity |]. split; [exact Hs |].
  cbv zeta. cbn [cd_tenz cd_smoothed cd_corrected cd_derivative].
  rewrite !pointsOf_x, !pointsOf_y by now rewrite !length_map.
  repeat split; reflexivity.
Qed.

(** X20.  [generateChartData] always returns, and the velocity and
    displacement series of what it returns have one point per
    intersection, at its time; the displacement starts at 0 and grows by
    the trapezoid rule, half the sum of two successive velocities times
    the time between them. *)
Theorem chart_series {F : Type} {AF : Arith F}
        (results : Results) (maxPoints : option Q) :
  exists c,
    generateChartData (F:=F) results maxPoints = Ok c
    /\ map sp_time (cd_velocitySeries c) = map pt_time (res_intersectionPoints results)
    /\ map sp_time (cd_displacementSeries c) = map pt_time (res_intersectionPoints results)
    /\ match cd_velocitySeries c, cd_displacementSeries c with
       | [], [] => res_intersectionPoints results = []
       | v0 :: vs, d0 :: ds =>
           sp_value d0 = zero /\ trapezoid (sp_time v0) (sp_value v0) zero vs ds
       | _, _ => False
       end.
Proof.
  unfold generateChartData.
  pose proof (seriesAt_spec (res_t results) (res_dudt_interf results)
                            (res_intersectionPoints results)) as H.
  destruct (seriesAt _ _ _) as [vs ds].
  destruct (findLargestJumpStart_cases (res_t results) (res_interfCorrected results))
    as [r [-> _]].
  cbn [bind]. eexists. split; [reflexivity |].
  cbn [cd_velocitySeries cd_displacementSeries]. exact H.
Qed.

(* ================================================================== *)
(** ** The page: what its controls can pass *)




Section Upload.

Context {F : Type} {AF : Arith F}.
Local Open Scope js_scope.



End Upload.





